(** * zkpoker: a shallow embedding of the betting engine, the commitments,
      the hand-rank table and the ElGamal card operations.

    Numbers of the TypeScript/JavaScript sources are modelled as [Z]
    (chip counts, seat indices, bigint field elements), strings as
    [string], arrays as [list], objects as records.  In-place mutation of
    the engine state is modelled by explicit state passing. *)

From Stdlib Require Import ZArith List Bool String Lia Permutation Sorted.
From Stdlib Require Import Znumtheory Zpow_facts Field Ring Zmod.
From Stdlib Require Ascii Mergesort Orders.
Import ListNotations.
Local Open Scope string_scope.
Local Open Scope list_scope.
Local Open Scope Z_scope.

(* ================================================================== *)
(** * Part I: definitions                                              *)
(* ================================================================== *)

(** ** Generic helpers standing for JavaScript built-ins *)

Module Js.

(** [Array.prototype.sort(cmp)]: a stable sort; [a] stays before [b]
    when [cmp a b <= 0]. *)
Fixpoint insertBy {A : Type} (cmp : A -> A -> Z) (x : A) (l : list A) : list A :=
  match l with
  | [] => [x]
  | y :: l' => if cmp x y <=? 0 then x :: y :: l' else y :: insertBy cmp x l'
  end.

Fixpoint sortBy {A : Type} (cmp : A -> A -> Z) (l : list A) : list A :=
  match l with
  | [] => []
  | x :: l' => insertBy cmp x (sortBy cmp l')
  end.

(** [Math.max(...xs)] on a non-empty array (on the empty array JavaScript
    gives [-Infinity]; the engine only calls it when a player exists). *)
Definition maxOf (xs : list Z) : Z :=
  match xs with
  | [] => 0
  | x :: r => fold_left Z.max r x
  end.

(** The mutation of the first array element satisfying [pred], as done
    through the object reference returned by [Array.prototype.find]. *)
Fixpoint updFirst {A : Type} (pred : A -> bool) (f : A -> A) (l : list A) : list A :=
  match l with
  | [] => []
  | x :: r => if pred x then f x :: r else x :: updFirst pred f r
  end.

(** An insertion-ordered [Map<string, V>]. *)
Definition JsMap (V : Type) := list (string * V).

Definition mapGet {V : Type} (k : string) (m : JsMap V) : option V :=
  option_map snd (find (fun kv => String.eqb (fst kv) k) m).


Fixpoint mapSet {V : Type} (k : string) (v : V) (m : JsMap V) : JsMap V :=
  match m with
  | [] => [(k, v)]
  | (k', v') :: r => if String.eqb k' k then (k, v) :: r else (k', v') :: mapSet k v r
  end.

Definition sumZ (l : list Z) : Z := fold_right Z.add 0 l.

End Js.

(** ** SDK constants ([sdk/src/types.ts]) and the two-player state machine
       ([sdk/src/game-state.ts]) *)

Module Sdk.

Definition ACTION_NULL : Z := 0.
Definition ACTION_BET : Z := 1.
Definition ACTION_CALL : Z := 2.
Definition ACTION_FOLD : Z := 3.
Definition ACTION_RAISE : Z := 4.
Definition ACTION_CHECK : Z := 5.
Definition ACTION_ALL_IN : Z := 6.

Definition STREET_PREFLOP : Z := 0.
Definition STREET_FLOP : Z := 1.
Definition STREET_TURN : Z := 2.
Definition STREET_RIVER : Z := 3.
Definition STREET_SHOWDOWN : Z := 4.

Definition STATUS_WAITING : Z := 0.
Definition STATUS_ACTIVE : Z := 1.
Definition STATUS_FINISHED : Z := 2.

Record GameState := mkGameState {
  stackP1 : Z;
  stackP2 : Z;
  pot : Z;
  street : Z;
  currentPlayer : Z;
  lastAction : Z;
  lastBetSize : Z;
  streetBetP1 : Z;
  streetBetP2 : Z;
  status : Z;
  dealer : Z
}.

Record Action := mkAction {
  actionType : Z;
  amount : Z
}.

Definition createGameState (stackP1 stackP2 dealer : Z) : GameState :=
  mkGameState stackP1 stackP2 0 STREET_PREFLOP
    (if dealer =? 1 then 2 else 1) ACTION_NULL 0 0 0 STATUS_ACTIVE dealer.

Definition currentStack (s : GameState) : Z :=
  if currentPlayer s =? 1 then stackP1 s else stackP2 s.

Definition currentStreetBet (s : GameState) : Z :=
  if currentPlayer s =? 1 then streetBetP1 s else streetBetP2 s.

Definition opponentStreetBet (s : GameState) : Z :=
  if currentPlayer s =? 1 then streetBetP2 s else streetBetP1 s.

Definition amountToCall (s : GameState) : Z :=
  if opponentStreetBet s >? currentStreetBet s
  then opponentStreetBet s - currentStreetBet s else 0.

(** The [switch] computing [chipsToAdd] in [applyAction]. *)
Definition chipsToAdd (s : GameState) (a : Action) : Z :=
  if actionType a =? ACTION_CALL then Z.min (amountToCall s) (currentStack s)
  else if actionType a =? ACTION_BET then amount a
  else if actionType a =? ACTION_RAISE then amount a - currentStreetBet s
  else if actionType a =? ACTION_ALL_IN then currentStack s
  else 0.

Definition applyAction (s : GameState) (a : Action) : GameState :=
  let chips := chipsToAdd s a in
  let newStackP1 := if currentPlayer s =? 1 then stackP1 s - chips else stackP1 s in
  let newStackP2 := if currentPlayer s =? 2 then stackP2 s - chips else stackP2 s in
  let newStreetBetP1 :=
    if currentPlayer s =? 1 then streetBetP1 s + chips else streetBetP1 s in
  let newStreetBetP2 :=
    if currentPlayer s =? 2 then streetBetP2 s + chips else streetBetP2 s in
  let newPot := pot s + chips in
  let newStatus := if actionType a =? ACTION_FOLD then STATUS_FINISHED else status s in
  let betsEqual := newStreetBetP1 =? newStreetBetP2 in
  let bothActed := negb (lastAction s =? ACTION_NULL) in
  let streetComplete :=
    betsEqual && bothActed &&
    ((actionType a =? ACTION_CALL) || (actionType a =? ACTION_CHECK)) in
  if streetComplete && (street s <? STREET_SHOWDOWN) then
    mkGameState newStackP1 newStackP2 newPot (street s + 1)
      (if dealer s =? 1 then 2 else 1) ACTION_NULL 0 0 0 newStatus (dealer s)
  else
    let newLastBet :=
      if actionType a =? ACTION_RAISE then amount a
      else if actionType a =? ACTION_BET then chips
      else lastBetSize s in
    mkGameState newStackP1 newStackP2 newPot (street s)
      (if currentPlayer s =? 1 then 2 else 1) (actionType a) newLastBet
      newStreetBetP1 newStreetBetP2 newStatus (dealer s).

End Sdk.

(** ** Server types ([server/src/types/game.ts], [types/player.ts]) *)

Module Types.

(** [enum Street]; the engine increments it, so it is kept as a number. *)
Definition PREFLOP : Z := 0.
Definition FLOP : Z := 1.
Definition TURN : Z := 2.
Definition RIVER : Z := 3.
Definition SHOWDOWN_STREET : Z := 4.

Inductive ActionType := FOLD | CHECK | CALL | BET | RAISE | ALL_IN.

(** The number a member of the numeric [enum ActionType] is at run time. *)
Definition ActionType_code (a : ActionType) : Z :=
  match a with
  | FOLD => 0 | CHECK => 1 | CALL => 2 | BET => 3 | RAISE => 4 | ALL_IN => 5
  end.

Definition ActionType_eqb (a b : ActionType) : bool :=
  ActionType_code a =? ActionType_code b.

(** [enum GameStatus] is string-valued. *)
Inductive GameStatus :=
  WAITING | SHUFFLE | DEALING | BETTING | SHOWDOWN | FINISHED.

Definition GameStatus_code (g : GameStatus) : string :=
  match g with
  | WAITING => "waiting" | SHUFFLE => "shuffle" | DEALING => "dealing"
  | BETTING => "betting" | SHOWDOWN => "showdown" | FINISHED => "finished"
  end.

(** [PlayerState]; [isConnected] and [publicKey] are never read by the
    engine and are left out. *)
Record PlayerState := mkPlayer {
  id : string;
  seatIndex : Z;
  stack : Z;
  streetBet : Z;
  totalBet : Z;
  folded : bool;
  allIn : bool
}.

Definition createPlayerState (id : string) (seatIndex stack : Z) : PlayerState :=
  mkPlayer id seatIndex stack 0 0 false false.

(** [SidePot]; its field [amount] is called [potAmount] here, next to
    [GameAction.amount]. *)
Record SidePot := mkSidePot {
  potAmount : Z;
  eligiblePlayers : list string
}.

Record GameConfig := mkConfig {
  minPlayers : Z;
  maxPlayers : Z;
  smallBlind : Z;
  bigBlind : Z;
  startingStack : Z;
  turnTimeoutMs : Z
}.

Definition DEFAULT_GAME_CONFIG : GameConfig := mkConfig 2 10 1 2 100 60000.

(** [GameStateN]; the card arrays and [currentShuffler] play no role in
    betting and are left out. *)
Record GameStateN := mkState {
  players : list PlayerState;
  pot : Z;
  street : Z;
  buttonPos : Z;
  actionPos : Z;
  lastAggressor : option Z;
  lastRaiseAmount : Z;
  minRaise : Z;
  status : GameStatus
}.

Definition createInitialGameState (ps : list PlayerState) (cfg : GameConfig)
    (buttonPos : Z) : GameStateN :=
  mkState ps 0 PREFLOP buttonPos (-1) None (bigBlind cfg) (bigBlind cfg) SHUFFLE.

Record GameAction := mkGameAction {
  playerId : string;
  type : ActionType;
  amount : Z
}.

End Types.

(** ** The betting engine ([server/src/game/GameEngine.ts]) *)

Module Engine.
Import Types.

(** Field updates of a [PlayerState] object. *)
Definition setBets (p : PlayerState) (stack' streetBet' totalBet' : Z) (allIn' : bool)
    : PlayerState :=
  mkPlayer (id p) (seatIndex p) stack' streetBet' totalBet' (folded p) allIn'.
Definition setFolded (p : PlayerState) (b : bool) : PlayerState :=
  mkPlayer (id p) (seatIndex p) (stack p) (streetBet p) (totalBet p) b (allIn p).
Definition setStreetBet (p : PlayerState) (b : Z) : PlayerState :=
  mkPlayer (id p) (seatIndex p) (stack p) b (totalBet p) (folded p) (allIn p).

(** Field updates of the [GameStateN] object. *)
Definition setPlayers (s : GameStateN) (ps : list PlayerState) : GameStateN :=
  mkState ps (pot s) (street s) (buttonPos s) (actionPos s) (lastAggressor s)
    (lastRaiseAmount s) (minRaise s) (status s).
Definition setPot (s : GameStateN) (v : Z) : GameStateN :=
  mkState (players s) v (street s) (buttonPos s) (actionPos s) (lastAggressor s)
    (lastRaiseAmount s) (minRaise s) (status s).
Definition setStatus (s : GameStateN) (v : GameStatus) : GameStateN :=
  mkState (players s) (pot s) (street s) (buttonPos s) (actionPos s) (lastAggressor s)
    (lastRaiseAmount s) (minRaise s) v.
Definition setActionPos (s : GameStateN) (v : Z) : GameStateN :=
  mkState (players s) (pot s) (street s) (buttonPos s) v (lastAggressor s)
    (lastRaiseAmount s) (minRaise s) (status s).
Definition setAggressor (s : GameStateN) (seat : option Z) (raise minr : Z) : GameStateN :=
  mkState (players s) (pot s) (street s) (buttonPos s) (actionPos s) seat
    raise minr (status s).

Definition hasSeat (seat : Z) (p : PlayerState) : bool := seatIndex p =? seat.
Definition hasId (pid : string) (p : PlayerState) : bool := String.eqb (id p) pid.

Definition getPlayerByIndex (s : GameStateN) (seat : Z) : option PlayerState :=
  find (hasSeat seat) (players s).

Definition getPlayerById (s : GameStateN) (pid : string) : option PlayerState :=
  find (hasId pid) (players s).

(** The [while (iterations < numPlayers)] loop of [getNextActivePlayer];
    [%] is the JavaScript remainder. *)
Fixpoint nextActiveLoop (s : GameStateN) (numPlayers : Z) (iterations : nat) (seat : Z) : Z :=
  match iterations with
  | O => -1
  | S k =>
      match getPlayerByIndex s seat with
      | Some player =>
          if negb (folded player) && negb (allIn player) then seat
          else nextActiveLoop s numPlayers k (Z.rem (seat + 1) numPlayers)
      | None => nextActiveLoop s numPlayers k (Z.rem (seat + 1) numPlayers)
      end
  end.

Definition getNextActivePlayer (s : GameStateN) (fromSeat : Z) : Z :=
  let numPlayers := Z.of_nat (List.length (players s)) in
  nextActiveLoop s numPlayers (List.length (players s)) (Z.rem (fromSeat + 1) numPlayers).

Definition getSmallBlindPosition (s : GameStateN) : Z :=
  if (List.length (players s) =? 2)%nat then buttonPos s
  else getNextActivePlayer s (buttonPos s).

Definition getBigBlindPosition (s : GameStateN) : Z :=
  getNextActivePlayer s (getSmallBlindPosition s).

Definition getUTGPosition (s : GameStateN) : Z :=
  getNextActivePlayer s (getBigBlindPosition s).

(** One of the two [if (sbPlayer) { ... }] blocks of [postBlinds]. *)
Definition postBlind (blind : Z) (seat : Z) (s : GameStateN) : GameStateN :=
  match getPlayerByIndex s seat with
  | None => s
  | Some player =>
      let amount := Z.min blind (stack player) in
      let stack' := stack player - amount in
      let upd (p : PlayerState) :=
        setBets p stack' amount (totalBet p + amount)
          (if stack' =? 0 then true else allIn p) in
      setPot (setPlayers s (Js.updFirst (hasSeat seat) upd (players s))) (pot s + amount)
  end.

Definition postBlinds (cfg : GameConfig) (s : GameStateN) : GameStateN :=
  let sbPos := getSmallBlindPosition s in
  let bbPos := getBigBlindPosition s in
  let s1 := postBlind (smallBlind cfg) sbPos s in
  let s2 := postBlind (bigBlind cfg) bbPos s1 in
  let s3 := setAggressor s2 (lastAggressor s2) (bigBlind cfg) (bigBlind cfg) in
  setStatus (setActionPos s3 (getUTGPosition s3)) BETTING.

Definition maxStreetBet (s : GameStateN) : Z := Js.maxOf (map streetBet (players s)).

Definition getAmountToCall (s : GameStateN) (player : PlayerState) : Z :=
  Z.min (maxStreetBet s - streetBet player) (stack player).

Definition getValidActions (cfg : GameConfig) (s : GameStateN) : list ActionType :=
  match getPlayerByIndex s (actionPos s) with
  | None => []
  | Some player =>
      if folded player || allIn player then []
      else
        let amountToCall := getAmountToCall s player in
        let maxBet := maxStreetBet s in
        [FOLD]
        ++ (if amountToCall =? 0 then [CHECK] else [CALL])
        ++ (if ((maxBet =? 0) || ((street s =? PREFLOP) && (maxBet =? bigBlind cfg)))
               && (stack player >? amountToCall)
            then [BET] else [])
        ++ (if (maxBet >? 0) && (stack player >? amountToCall) then [RAISE] else [])
        ++ (if stack player >? 0 then [ALL_IN] else [])
  end.

Definition includes (l : list ActionType) (a : ActionType) : bool :=
  existsb (ActionType_eqb a) l.

Definition notFolded (p : PlayerState) : bool := negb (folded p).
Definition canAct (p : PlayerState) : bool := negb (folded p) && negb (allIn p).

Definition areAllBetsEqual (s : GameStateN) : bool :=
  let activePlayers := filter notFolded (players s) in
  let maxBet := Js.maxOf (map streetBet activePlayers) in
  forallb (fun p => (streetBet p =? maxBet) || allIn p) activePlayers.

(** [advanceStreet] calls itself while at most one player can act; [fuel]
    bounds that recursion, [None] standing for a call that has not
    returned within it. *)
Fixpoint advanceStreet (fuel : nat) (cfg : GameConfig) (s : GameStateN) : option GameStateN :=
  match fuel with
  | O => None
  | S fuel' =>
      if street s =? RIVER then
        Some (mkState (players s) (pot s) SHOWDOWN_STREET (buttonPos s) (actionPos s)
                (lastAggressor s) (lastRaiseAmount s) (minRaise s) SHOWDOWN)
      else
        let ps := map (fun p => setStreetBet p 0) (players s) in
        let s1 := mkState ps (pot s) (street s + 1) (buttonPos s) (actionPos s)
                    None 0 (bigBlind cfg) (status s) in
        let s2 := setActionPos s1 (getNextActivePlayer s1 (buttonPos s1)) in
        if (List.length (filter canAct (players s2)) <=? 1)%nat
        then advanceStreet fuel' cfg s2
        else Some s2
  end.

Definition advanceAction (fuel : nat) (cfg : GameConfig) (s : GameStateN) : option GameStateN :=
  if (List.length (filter notFolded (players s)) =? 1)%nat then Some (setStatus s FINISHED)
  else
    let playersWhoCanAct := List.length (filter canAct (players s)) in
    if (playersWhoCanAct <=? 1)%nat && (areAllBetsEqual s || (playersWhoCanAct =? 0)%nat)
    then advanceStreet fuel cfg s
    else
      let nextSeat := getNextActivePlayer s (actionPos s) in
      if nextSeat =? -1 then advanceStreet fuel cfg s
      else
        match lastAggressor s with
        | Some aggressor =>
            if (nextSeat =? aggressor) && areAllBetsEqual s
            then advanceStreet fuel cfg s
            else Some (setActionPos s nextSeat)
        | None =>
            if areAllBetsEqual s then
              if street s =? PREFLOP then
                if nextSeat =? getUTGPosition s then advanceStreet fuel cfg s
                else Some (setActionPos s nextSeat)
              else
                if nextSeat =? getNextActivePlayer s (buttonPos s)
                then advanceStreet fuel cfg s
                else Some (setActionPos s nextSeat)
            else Some (setActionPos s nextSeat)
        end.

(** The result object [{ success, error? }]; the two messages the source
    completes with a number are kept without it. *)
Inductive ActionResult :=
| Success
| Failure (error : string).

Definition success (r : ActionResult) : bool :=
  match r with Success => true | Failure _ => false end.

Definition updPlayer (s : GameStateN) (pid : string) (f : PlayerState -> PlayerState)
    : GameStateN :=
  setPlayers s (Js.updFirst (hasId pid) f (players s)).

(** What a handler returns: the result and the state it leaves. *)
Definition finish (r : ActionResult) (o : option GameStateN) : option (ActionResult * GameStateN) :=
  option_map (fun s => (r, s)) o.

Definition handleFold (fuel : nat) (cfg : GameConfig) (s : GameStateN) (player : PlayerState) :=
  let s1 := updPlayer s (id player) (fun p => setFolded p true) in
  finish Success (advanceAction fuel cfg s1).

Definition handleCheck (fuel : nat) (cfg : GameConfig) (s : GameStateN) (player : PlayerState) :=
  if getAmountToCall s player >? 0
  then Some (Failure "Cannot check - must call or fold", s)
  else finish Success (advanceAction fuel cfg s).

(** The chip movement shared by the paying handlers:
    [stack -= paid; streetBet = newStreetBet; totalBet += paid; pot += paid]. *)
Definition pay (s : GameStateN) (player : PlayerState) (paid newStreetBet : Z)
    (forceAllIn : bool) : GameStateN :=
  let upd (p : PlayerState) :=
    setBets p (stack p - paid) newStreetBet (totalBet p + paid)
      (if forceAllIn || (stack p - paid =? 0) then true else allIn p) in
  setPot (updPlayer s (id player) upd) (pot s + paid).

Definition handleCall (fuel : nat) (cfg : GameConfig) (s : GameStateN) (player : PlayerState) :=
  let amount := getAmountToCall s player in
  let s1 := pay s player amount (streetBet player + amount) false in
  finish Success (advanceAction fuel cfg s1).

Definition handleBet (fuel : nat) (cfg : GameConfig) (s : GameStateN) (player : PlayerState)
    (amount : Z) :=
  if amount <? bigBlind cfg then Some (Failure "Minimum bet", s)
  else if amount >? stack player then Some (Failure "Insufficient chips", s)
  else
    let s1 := pay s player amount (streetBet player + amount) false in
    let s2 := setAggressor s1 (Some (seatIndex player)) amount amount in
    finish Success (advanceAction fuel cfg s2).

Definition handleRaise (fuel : nat) (cfg : GameConfig) (s : GameStateN) (player : PlayerState)
    (totalAmount : Z) :=
  let currentMaxBet := maxStreetBet s in
  let raiseAmount := totalAmount - currentMaxBet in
  let additionalBet := totalAmount - streetBet player in
  if (raiseAmount <? minRaise s) && (additionalBet <? stack player)
  then Some (Failure "Minimum raise", s)
  else if additionalBet >? stack player then Some (Failure "Insufficient chips", s)
  else
    let s1 := pay s player additionalBet totalAmount false in
    let s2 := setAggressor s1 (Some (seatIndex player)) raiseAmount raiseAmount in
    finish Success (advanceAction fuel cfg s2).

Definition handleAllIn (fuel : nat) (cfg : GameConfig) (s : GameStateN) (player : PlayerState) :=
  let amount := stack player in
  let currentMaxBet := maxStreetBet s in
  let newBet := streetBet player + amount in
  let s1 :=
    if (newBet >? currentMaxBet) && (newBet - currentMaxBet >=? minRaise s)
    then setAggressor s (Some (seatIndex player))
           (newBet - currentMaxBet) (newBet - currentMaxBet)
    else s in
  let s2 := pay s1 player amount (streetBet player + amount) true in
  finish Success (advanceAction fuel cfg s2).

Definition applyAction (fuel : nat) (cfg : GameConfig) (s : GameStateN) (action : GameAction)
    : option (ActionResult * GameStateN) :=
  match getPlayerById s (playerId action) with
  | None => Some (Failure "Player not found", s)
  | Some player =>
      if negb (seatIndex player =? actionPos s) then Some (Failure "Not your turn", s)
      else if negb (includes (getValidActions cfg s) (type action))
      then Some (Failure "Invalid action", s)
      else
        match type action with
        | FOLD => handleFold fuel cfg s player
        | CHECK => handleCheck fuel cfg s player
        | CALL => handleCall fuel cfg s player
        | BET => handleBet fuel cfg s player (amount action)
        | RAISE => handleRaise fuel cfg s player (amount action)
        | ALL_IN => handleAllIn fuel cfg s player
        end
  end.

(** [calculateSidePots]: the loop over the sorted contributors;
    [allContributors.length - i] is the length of the part of the array
    from index [i] on. *)
Fixpoint sidePotLoop (activePlayers : list PlayerState) (previousBet : Z)
    (rest : list PlayerState) : list SidePot :=
  match rest with
  | [] => []
  | player :: rest' =>
      let contributionLevel := totalBet player in
      let sliceAmount := contributionLevel - previousBet in
      let numContributors := Z.of_nat (List.length rest) in
      let amount := sliceAmount * numContributors in
      let eligible :=
        map id (filter (fun p => totalBet p >=? contributionLevel) activePlayers) in
      (if (sliceAmount >? 0) && negb (List.length eligible =? 0)%nat && (amount >? 0)
       then [mkSidePot amount eligible] else [])
      ++ sidePotLoop activePlayers contributionLevel rest'
  end.

Definition allContributors (s : GameStateN) : list PlayerState :=
  Js.sortBy (fun a b => totalBet a - totalBet b)
    (filter (fun p => totalBet p >? 0) (players s)).

Definition calculateSidePots (s : GameStateN) : list SidePot :=
  sidePotLoop (filter notFolded (players s)) 0 (allContributors s).


Definition sumStacks (ps : list PlayerState) : Z := Js.sumZ (map stack ps).

End Engine.

(** ** Showdown settlement ([server/src/game/GameRoom.ts], [resolveShowdown]) *)

Module Room.
Import Types.

(** A stored hand reveal; [handDescription] and [verified] are not used
    by the settlement. *)
Record HandReveal := mkReveal {
  handRank : Z;
  cardIndices : list Z
}.

(** An entry of [eligibleHands]: [{ id, ...playerHands.get(id) }]. *)
Record EligibleHand := mkHand {
  handId : string;
  hand : HandReveal
}.

(** [playerHands]: the reveals of the active players. *)
Definition playerHands (handReveals : Js.JsMap HandReveal) (activePlayers : list PlayerState)
    : Js.JsMap HandReveal :=
  fold_left
    (fun m p =>
       match Js.mapGet (id p) handReveals with
       | Some reveal => Js.mapSet (id p) reveal m
       | None => m
       end)
    activePlayers [].

Definition eligibleHands (hands : Js.JsMap HandReveal) (pot : SidePot) : list EligibleHand :=
  Js.sortBy (fun a b => handRank (hand b) - handRank (hand a))
    (flat_map
       (fun pid => match Js.mapGet pid hands with
                   | Some h => [mkHand pid h]
                   | None => []
                   end)
       (eligiblePlayers pot)).

(** [potWinners] of one pot: the hands equal in rank to the first of the
    sorted [eligibleHands]. *)
Definition potWinners (hands : Js.JsMap HandReveal) (pot : SidePot) : list EligibleHand :=
  match eligibleHands hands pot with
  | [] => []
  | (first :: _) as sorted =>
      let bestRank := handRank (hand first) in
      filter (fun h => handRank (hand h) =? bestRank) sorted
  end.

(** The [potWinners.forEach] crediting [winnings]; [idx] is the index of
    the winner at the head of [ws]. *)
Fixpoint creditWinners (potPerWinner remainder : Z) (idx : nat) (ws : list EligibleHand)
    (winnings : Js.JsMap Z) : Js.JsMap Z :=
  match ws with
  | [] => winnings
  | winner :: ws' =>
      let amount := potPerWinner + (if (idx =? 0)%nat then remainder else 0) in
      let current := match Js.mapGet (handId winner) winnings with
                     | Some c => c | None => 0 end in
      creditWinners potPerWinner remainder (S idx) ws'
        (Js.mapSet (handId winner) (current + amount) winnings)
  end.

(** The loop [for (const pot of sidePots)]. *)
Definition distribute (hands : Js.JsMap HandReveal) (sidePots : list SidePot) : Js.JsMap Z :=
  fold_left
    (fun winnings pot =>
       match potWinners hands pot with
       | [] => winnings
       | ws =>
           let n := Z.of_nat (List.length ws) in
           creditWinners (potAmount pot / n) (Z.rem (potAmount pot) n) 0 ws winnings
       end)
    sidePots [].

(** The stacks after [player.stack += amount] for every entry of [winnings]. *)
Definition applyWinnings (winnings : Js.JsMap Z) (ps : list PlayerState) : list PlayerState :=
  fold_left
    (fun ps kv =>
       Js.updFirst (Engine.hasId (fst kv))
         (fun p => Engine.setBets p (stack p + snd kv) (streetBet p) (totalBet p) (allIn p))
         ps)
    winnings ps.

(** [resolveShowdown]: the players after settlement and the winner ids. *)
Definition resolveShowdown (handReveals : Js.JsMap HandReveal) (s : GameStateN)
    : list PlayerState * list string :=
  let activePlayers := filter Engine.notFolded (players s) in
  match activePlayers with
  | [winner] =>
      (Js.updFirst Engine.notFolded
         (fun p => Engine.setBets p (stack p + pot s) (streetBet p) (totalBet p) (allIn p))
         (players s),
       [id winner])
  | _ =>
      let hands := playerHands handReveals activePlayers in
      let winnings := distribute hands (Engine.calculateSidePots s) in
      (applyWinnings winnings (players s), map fst winnings)
  end.

End Room.

(** ** Commitments of the Circom SDK ([circom/sdk/poseidon.js],
       [circom/sdk/elgamal.js]) and of the browser client
       ([client/src/cards.js]) *)

Module Commit.

(** The BN254 scalar field prime ([FIELD_PRIME], [FIELD_ORDER]). *)
Definition FIELD_PRIME : Z :=
  21888242871839275222246405745257275088548364400416034343698204186575808495617.

(** A point of these modules is the array [[x, y]]. *)
Definition Point : Type := Z * Z.

(** [INFINITY = [0n, 1n]], the affine identity of BabyJubJub. *)
Definition INFINITY : Point := (0, 1).

Definition isInfinity (p : Point) : bool := (fst p =? 0) && (snd p =? 1).

Record Card := mkCard {
  epk : Point;
  msg : Point;
  pk : Point
}.

(** [createCard] of [elgamal.js]. *)
Definition createCard (cardPoint : Point) : Card := mkCard INFINITY cardPoint INFINITY.

Definition fieldMul (a b : Z) : Z := Z.rem (a * b) FIELD_PRIME.

Section WithHash.

(** [hash]: the Poseidon hash of circomlibjs, an external library. *)
Variable hash : list Z -> Z.

(** The array [commitCard] of [poseidon.js] passes to [hash]. *)
Definition commitCardInputs (card : Card) : list Z :=
  [fst (epk card); snd (epk card); fst (msg card); snd (msg card);
   fst (pk card); snd (pk card)].

Definition commitCard (card : Card) : Z := hash (commitCardInputs card).

(** [commitDeck] of [poseidon.js]. *)
Definition commitDeck (cards : list Card) : Z :=
  fold_left (fun product card => product * (commitCard card + 1)) cards 1.

(** The array [commitCard] of [client/src/cards.js] passes to [hash]. *)
Definition clientCommitCardInputs (card : Card) : list Z :=
  let epkX := if isInfinity (epk card) then 0 else fst (epk card) in
  let epkY := if isInfinity (epk card) then 0 else snd (epk card) in
  let msgX := if isInfinity (msg card) then 0 else fst (msg card) in
  let msgY := if isInfinity (msg card) then 0 else snd (msg card) in
  let pkX := if isInfinity (pk card) then 0 else fst (pk card) in
  let pkY := if isInfinity (pk card) then 0 else snd (pk card) in
  [epkX; epkY; msgX; msgY; pkX; pkY].

Definition clientCommitCard (card : Card) : Z := hash (clientCommitCardInputs card).

(** The hash computed per card inside [commitDeck] of [client/src/cards.js]
    ([msg] is passed as it is). *)
Definition clientDeckCardHash (card : Card) : Z :=
  let epkX := if isInfinity (epk card) then 0 else fst (epk card) in
  let epkY := if isInfinity (epk card) then 0 else snd (epk card) in
  let pkX := if isInfinity (pk card) then 0 else fst (pk card) in
  let pkY := if isInfinity (pk card) then 0 else snd (pk card) in
  hash [epkX; epkY; fst (msg card); snd (msg card); pkX; pkY].

(** [commitDeck] of [client/src/cards.js]. *)
Definition clientCommitDeck (deck : list Card) : Z :=
  fold_left (fun product card => fieldMul product (clientDeckCardHash card + 1)) deck 1.

(** [mod(a)] of [sdk/src/game-state.ts]: [((a % m) + m) % m]. *)
Definition modField (a : Z) : Z := Z.rem (Z.rem a FIELD_PRIME + FIELD_PRIME) FIELD_PRIME.

(** [commitmentAfter] of [generateShuffleProverToml] in
    [sdk/src/game-state.ts]; there [hash] is [pedersenHash] and only the
    coordinates of the masked cards are read. *)
Definition shuffleCommitmentAfter (maskedCards : list Card) : Z :=
  fold_left
    (fun commitment card => modField (commitment * (hash (commitCardInputs card) + 1)))
    maskedCards 1.

(** The product of the property, before any reduction. *)
Definition deckProduct (cardHash : Card -> Z) (cards : list Card) : Z :=
  fold_right (fun card acc => (cardHash card + 1) * acc) 1 cards.

End WithHash.

End Commit.

(** ** The hand-rank table ([sdk/src/hand-rankings.ts]) *)

Module HandRankings.

Inductive HandCategory :=
| RoyalFlush | StraightFlush | FourOfAKind | FullHouse | Flush
| Straight | ThreeOfAKind | TwoPair | OnePair | HighCard.

(** [HandRanking]; the [description] string is left out. *)
Record HandRanking := mkHandRanking {
  primeProduct : Z;
  rank : Z;
  category : HandCategory;
  isFlush : bool
}.

Definition RANK_PRIMES : list Z := [2; 3; 5; 7; 11; 13; 17; 19; 23; 29; 31; 37; 41].
Definition RANKS : list Z := [0; 1; 2; 3; 4; 5; 6; 7; 8; 9; 10; 11; 12].

(** [a[i]] for an index inside the array. *)
Definition at_ (a : list Z) (i : Z) : Z := nth (Z.to_nat i) a 0.

Definition rankPrime (r : Z) : Z := at_ RANK_PRIMES r.

(** [function* combinations(array, k)], the yielded arrays in order. *)
Fixpoint combinations {A : Type} (k : nat) (array : list A) : list (list A) :=
  match k with
  | O => [[]]
  | S k' =>
      (fix from (l : list A) : list (list A) :=
         match l with
         | [] => []
         | x :: rest =>
             if (S k' <=? List.length l)%nat
             then map (cons x) (combinations k' rest) ++ from rest
             else []
         end) array
  end.

(** [primeProduct(ranks)]. *)
Definition primeProductOf (ranks : list Z) : Z :=
  fold_left (fun acc r => acc * rankPrime r) ranks 1.

(** The loop [for (let i = 1; i < 5; i++)] of [isStraight]. *)
Definition consecutive (sortedRanks : list Z) : bool :=
  forallb (fun i => at_ sortedRanks i =? at_ sortedRanks (i - 1) + 1) [1; 2; 3; 4].

Definition isStraight (sortedRanks : list Z) : bool :=
  if (at_ sortedRanks 0 =? 0) && (at_ sortedRanks 1 =? 1) && (at_ sortedRanks 2 =? 2)
     && (at_ sortedRanks 3 =? 3) && (at_ sortedRanks 4 =? 12)
  then true
  else consecutive sortedRanks.

Definition ascending (l : list Z) : list Z := Js.sortBy (fun a b => a - b) l.
Definition descending (l : list Z) : list Z := Js.sortBy (fun a b => b - a) l.

(** The comparators [for (i ...) if (b[i] !== a[i]) return b[i] - a[i]; return 0],
    [indices] being the values [i] takes. *)
Fixpoint strongerFirst (indices : list Z) (a b : list Z) : Z :=
  match indices with
  | [] => 0
  | i :: rest =>
      if negb (at_ b i =? at_ a i) then at_ b i - at_ a i else strongerFirst rest a b
  end.

(** The values of a loop [for (let r = hi; r >= lo; r--)]. *)
Definition downFrom (hi lo : Z) : list Z :=
  map (fun k => hi - Z.of_nat k) (seq 0 (Z.to_nat (hi - lo + 1))).

(** Consecutive pushes with [rank: currentRank++]: each entry of [entries]
    still waits for its rank. *)
Fixpoint ranked (currentRank : Z) (entries : list (Z -> HandRanking)) : list HandRanking :=
  match entries with
  | [] => []
  | entry :: rest => entry currentRank :: ranked (currentRank + 1) rest
  end.

Definition entry (product : Z) (c : HandCategory) (flush : bool) : Z -> HandRanking :=
  fun currentRank => mkHandRanking product currentRank c flush.

Definition straightRun (high : Z) : list Z := [high; high - 1; high - 2; high - 3; high - 4].

Definition nonStraights : list (list Z) :=
  filter (fun sorted => negb (isStraight sorted)) (map ascending (combinations 5 RANKS)).

Definition flushEntries : list (Z -> HandRanking) :=
  [entry (primeProductOf [12; 11; 10; 9; 8]) RoyalFlush true]
  ++ map (fun high => entry (primeProductOf (straightRun high)) StraightFlush true)
       [11; 10; 9; 8; 7; 6; 5; 4]
  ++ [entry (primeProductOf [3; 2; 1; 0; 12]) StraightFlush true]
  ++ map (fun ranks => entry (primeProductOf ranks) Flush true)
       (Js.sortBy (strongerFirst [4; 3; 2; 1; 0]) nonStraights).

Definition fourOfAKindEntries : list (Z -> HandRanking) :=
  flat_map
    (fun quadRank =>
       flat_map
         (fun kicker =>
            if kicker =? quadRank then []
            else [entry (rankPrime quadRank ^ 4 * rankPrime kicker) FourOfAKind false])
         (downFrom 12 0))
    (downFrom 12 0).

Definition fullHouseEntries : list (Z -> HandRanking) :=
  flat_map
    (fun tripsRank =>
       flat_map
         (fun pairRank =>
            if pairRank =? tripsRank then []
            else [entry (rankPrime tripsRank ^ 3 * rankPrime pairRank ^ 2) FullHouse false])
         (downFrom 12 0))
    (downFrom 12 0).

Definition straightEntries : list (Z -> HandRanking) :=
  map
    (fun high =>
       let ranks := if high =? 3 then [3; 2; 1; 0; 12] else straightRun high in
       entry (primeProductOf ranks) Straight false)
    [12; 11; 10; 9; 8; 7; 6; 5; 4; 3].

Definition otherRanks (excluded : list Z) : list Z :=
  filter (fun r => negb (existsb (Z.eqb r) excluded)) RANKS.

Definition kickerCombos (k : nat) (indices : list Z) (excluded : list Z) : list (list Z) :=
  Js.sortBy (strongerFirst indices) (map descending (combinations k (otherRanks excluded))).

Definition threeOfAKindEntries : list (Z -> HandRanking) :=
  flat_map
    (fun tripsRank =>
       map
         (fun kickers =>
            entry (rankPrime tripsRank ^ 3 * rankPrime (at_ kickers 0)
                   * rankPrime (at_ kickers 1)) ThreeOfAKind false)
         (kickerCombos 2 [0; 1] [tripsRank]))
    (downFrom 12 0).

Definition twoPairEntries : list (Z -> HandRanking) :=
  flat_map
    (fun highPair =>
       flat_map
         (fun lowPair =>
            map
              (fun kicker =>
                 entry (rankPrime highPair ^ 2 * rankPrime lowPair ^ 2 * rankPrime kicker)
                   TwoPair false)
              (descending (otherRanks [highPair; lowPair])))
         (downFrom (highPair - 1) 0))
    (downFrom 12 1).

Definition onePairEntries : list (Z -> HandRanking) :=
  flat_map
    (fun pairRank =>
       map
         (fun kickers =>
            entry (rankPrime pairRank ^ 2 * rankPrime (at_ kickers 0)
                   * rankPrime (at_ kickers 1) * rankPrime (at_ kickers 2)) OnePair false)
         (kickerCombos 3 [0; 1; 2] [pairRank]))
    (downFrom 12 0).

Definition highCardEntries : list (Z -> HandRanking) :=
  map (fun ranks => entry (primeProductOf ranks) HighCard false)
    (Js.sortBy (strongerFirst [0; 1; 2; 3; 4]) (map descending nonStraights)).

Definition flushHands : list HandRanking := ranked 0 flushEntries.

Definition basicHands : list HandRanking :=
  ranked 0
    (fourOfAKindEntries ++ fullHouseEntries ++ straightEntries ++ threeOfAKindEntries
     ++ twoPairEntries ++ onePairEntries ++ highCardEntries).

(** [generateHandRankings()]: [{ basicHands, flushHands }]. *)
Definition generateHandRankings : list HandRanking * list HandRanking :=
  (basicHands, flushHands).

End HandRankings.

(** ** Merkle trees ([circom/sdk/poseidon.js]) *)

Module Merkle.

Section WithHash.

(** [hash]: the Poseidon hash of circomlibjs, an external library. *)
Variable hash : list Z -> Z.

Definition hash2 (a b : Z) : Z := hash [a; b].


(** The padding loop [while ((n & (n - 1)) !== 0) paddedLeaves.push(0n)];
    [fuel] bounds the number of pushes. *)
Fixpoint padLoop (fuel : nat) (paddedLeaves : list Z) : list Z :=
  match fuel with
  | O => paddedLeaves
  | S fuel' =>
      let n := Z.of_nat (List.length paddedLeaves) in
      if negb (Z.land n (n - 1) =? 0) then padLoop fuel' (paddedLeaves ++ [0])
      else paddedLeaves
  end.

(** The length [padLoop] reaches from a list of length [n]. *)
Fixpoint padLength (fuel : nat) (n : nat) : nat :=
  match fuel with
  | O => n
  | S fuel' =>
      if negb (Z.land (Z.of_nat n) (Z.of_nat n - 1) =? 0) then padLength fuel' (S n)
      else n
  end.

(** The same count on binary numbers. *)
Fixpoint padLengthZ (fuel : nat) (n : Z) : Z :=
  match fuel with
  | O => n
  | S fuel' =>
      if negb (Z.land n (n - 1) =? 0) then padLengthZ fuel' (n + 1)
      else n
  end.

(** One pass of [for (i = 0; i < currentLevel.length; i += 2)]; a level of
    odd length has no [currentLevel[i + 1]] for its last element, which
    the hash refuses ([None]). *)
Fixpoint nextLevel (currentLevel : list Z) : option (list Z) :=
  match currentLevel with
  | [] => Some []
  | [_] => None
  | a :: b :: rest => option_map (cons (hash2 a b)) (nextLevel rest)
  end.

(** The loop [while (currentLevel.length > 1)]: the levels pushed after
    [currentLevel]. *)
Fixpoint buildLevels (fuel : nat) (currentLevel : list Z) : option (list (list Z)) :=
  match fuel with
  | O => None
  | S fuel' =>
      if (1 <? List.length currentLevel)%nat then
        match nextLevel currentLevel with
        | Some next => option_map (cons next) (buildLevels fuel' next)
        | None => None
        end
      else Some []
  end.

(** [buildMerkleTree(leaves)]; [None] for the thrown errors. *)
Definition buildMerkleTree (leaves : list Z) : option (list (list Z)) :=
  match leaves with
  | [] => None
  | _ =>
      let paddedLeaves := padLoop (List.length leaves) leaves in
      option_map (cons paddedLeaves)
        (buildLevels (List.length paddedLeaves) paddedLeaves)
  end.






End WithHash.

End Merkle.

(** ** What the theorems are stated with: a property written from the
    words of the specification, and the game states of the scenarios *)

Module HandRankingsSpec.
Import HandRankings.



End HandRankingsSpec.

Module SdkSpec.
Import Sdk.


(** The states the SDK builds: [currentPlayer] is seat 1 or seat 2. *)
Definition seated (s : GameState) : Prop := currentPlayer s = 1 \/ currentPlayer s = 2.

End SdkSpec.

Module RoomScenarios.
Import Types Room.

(** The showdown of scenario S6: both players put 2 in, [p1] declares rank
    0 (royal flush), [p2] declares rank 10 (four of a kind). *)
Definition s6_state : GameStateN :=
  mkState [mkPlayer "p1" 0 98 0 2 false false; mkPlayer "p2" 1 98 0 2 false false]
    4 SHOWDOWN_STREET 0 0 None 0 2 SHOWDOWN.

Definition s6_reveals : Js.JsMap HandReveal :=
  [("p1", mkReveal 0 [12; 11; 10; 9; 8]); ("p2", mkReveal 10 [12; 25; 38; 51; 0])].

End RoomScenarios.

Module EngineScenarios.
Import Types Engine.

Definition headsUp : GameStateN :=
  createInitialGameState
    [createPlayerState "p1" 0 100; createPlayerState "p2" 1 100] DEFAULT_GAME_CONFIG 0.

Definition sixHanded : GameStateN :=
  createInitialGameState
    [createPlayerState "p1" 0 100; createPlayerState "p2" 1 100;
     createPlayerState "p3" 2 100; createPlayerState "p4" 3 100;
     createPlayerState "p5" 4 100; createPlayerState "p6" 5 100] DEFAULT_GAME_CONFIG 0.

(** Applies the actions in turn, stopping at the first that is refused. *)
Fixpoint play (s : GameStateN) (actions : list GameAction) : option (ActionResult * GameStateN) :=
  match actions with
  | [] => Some (Success, s)
  | a :: rest =>
      match applyAction 8 DEFAULT_GAME_CONFIG s a with
      | Some (Success, s') => play s' rest
      | other => other
      end
  end.

Definition stateAfter (s : GameStateN) (actions : list GameAction) : GameStateN :=
  match play s actions with
  | Some (_, s') => s'
  | None => s
  end.



(** The player a blind is taken from, after [postBlind]. *)
Definition blindPosted (blind : Z) (player : PlayerState) : PlayerState :=
  let amount := Z.min blind (stack player) in
  mkPlayer (id player) (seatIndex player) (stack player - amount) amount
    (totalBet player + amount) (folded player)
    (if stack player - amount =? 0 then true else allIn player).

(** Two players seated at 0 and 2 (the player of seat 1 left the room
    before the start), button at seat 0. *)
Definition gappedSeats : GameStateN :=
  createInitialGameState
    [createPlayerState "a" 0 100; createPlayerState "c" 2 100] DEFAULT_GAME_CONFIG 0.

(** The flop after [p1] raised to 99 before the flop and [p2] called:
    each player has one chip left, below the big blind of 2. *)
Definition shortStacked : GameStateN :=
  stateAfter (postBlinds DEFAULT_GAME_CONFIG headsUp)
    [mkGameAction "p1" RAISE 99; mkGameAction "p2" CALL 0].

End EngineScenarios.

(** ** The Grumpkin curve ([sdk/src/grumpkin.ts]) *)

Module Grumpkin.

Definition FIELD_MODULUS : Z :=
  21888242871839275222246405745257275088548364400416034343698204186575808495617.

Definition CURVE_ORDER : Z :=
  21888242871839275222246405745257275088597320940842291287137428166847048758761.

Definition B : Z := FIELD_MODULUS - 17.

Record Scalar := mkScalar { lo : Z; hi : Z }.

Record Point := mkPoint { x : Z; y : Z; isInfinity : bool }.

Definition GENERATOR : Z * Z :=
  (1, 17631683881184975370165255887551781615748388533673675138860).

(** [mod(n, p)]: the remainder [%] of bigints truncates toward zero, and a
    negative remainder is lifted by [p]. *)
Definition mod_ (n p : Z) : Z :=
  let result := Z.rem n p in
  if result >=? 0 then result else result + p.

Definition scalarFromBigint (value : Z) : Scalar :=
  let normalized := mod_ value CURVE_ORDER in
  mkScalar (Z.land normalized (Z.shiftl 1 128 - 1)) (Z.shiftr normalized 128).

Definition scalarToBigint (scalar : Scalar) : Z :=
  lo scalar + Z.shiftl (hi scalar) 128.

(** The [while (r !== 0n)] loop of [modInverse] on the pairs
    [(old_r, r)] and [(old_s, s)]; [fuel] bounds the number of rounds and
    [None] says that it ran out. *)
Fixpoint inverseLoop (fuel : nat) (old_r r old_s s : Z) : option (Z * Z) :=
  if r =? 0 then Some (old_r, old_s)
  else match fuel with
       | O => None
       | S fuel' =>
           let quotient := Z.quot old_r r in
           inverseLoop fuel' r (old_r - quotient * r) s (old_s - quotient * s)
       end.

(** Rounds granted to the loop: it needs fewer than twice the bit length
    of its modulus (see [GroupFacts.inverseFuel_enough]). *)
Definition inverseFuel (p : Z) : nat := 2 * Z.to_nat (Z.log2_up p) + 2.

(** [modInverse(a, p)]; [None] stands for a thrown error. *)
Definition modInverse (a p : Z) : option Z :=
  if a =? 0 then None
  else
    let a := mod_ a p in
    match inverseLoop (inverseFuel p) p a 0 1 with
    | Some (old_r, old_s) => if old_r =? 1 then Some (mod_ old_s p) else None
    | None => None
    end.

Definition pointAtInfinity : Point := mkPoint 0 0 true.

Definition isOnCurve (point : Point) : bool :=
  if isInfinity point then true
  else
    let lhs := mod_ (y point * y point) FIELD_MODULUS in
    let rhs := mod_ (x point * x point * x point + B) FIELD_MODULUS in
    lhs =? rhs.


Definition negatePoint (p : Point) : Point :=
  if isInfinity p then p
  else mkPoint (x p) (mod_ (- y p) FIELD_MODULUS) false.

Definition addPoints (p1 p2 : Point) : option Point :=
  if isInfinity p1 then Some p2
  else if isInfinity p2 then Some p1
  else if (x p1 =? x p2) && (mod_ (y p1 + y p2) FIELD_MODULUS =? 0)
  then Some pointAtInfinity
  else
    let slope :=
      if (x p1 =? x p2) && (y p1 =? y p2) then
        let numerator := mod_ (3 * x p1 * x p1) FIELD_MODULUS in
        let denominator := mod_ (2 * y p1) FIELD_MODULUS in
        option_map (fun i => mod_ (numerator * i) FIELD_MODULUS)
                   (modInverse denominator FIELD_MODULUS)
      else
        let numerator := mod_ (y p2 - y p1) FIELD_MODULUS in
        let denominator := mod_ (x p2 - x p1) FIELD_MODULUS in
        option_map (fun i => mod_ (numerator * i) FIELD_MODULUS)
                   (modInverse denominator FIELD_MODULUS) in
    match slope with
    | None => None
    | Some lambda =>
        let x3 := mod_ (lambda * lambda - x p1 - x p2) FIELD_MODULUS in
        let y3 := mod_ (lambda * (x p1 - x3) - y p1) FIELD_MODULUS in
        Some (mkPoint x3 y3 false)
    end.

Definition subtractPoints (p1 p2 : Point) : option Point :=
  addPoints p1 (negatePoint p2).

(** The double-and-add loop of [scalarMul] for a positive [n]: the lowest
    bit of [n] decides the addition, [current] is doubled in every round
    (also in the last one), and [n >>= 1n] drops the bit. *)
Fixpoint mulLoop (n : positive) (result current : Point) : option Point :=
  match n with
  | xH =>
      match addPoints result current, addPoints current current with
      | Some result', Some _ => Some result'
      | _, _ => None
      end
  | xO n' =>
      match addPoints current current with
      | Some current' => mulLoop n' result current'
      | None => None
      end
  | xI n' =>
      match addPoints result current, addPoints current current with
      | Some result', Some current' => mulLoop n' result' current'
      | _, _ => None
      end
  end.

(** [scalarMul(point, scalar)]; for a negative [k] the loop
    [while (n > 0n)] is not entered. *)
Definition scalarMul (point : Point) (scalar : Scalar) : option Point :=
  let k := scalarToBigint scalar in
  if (k =? 0) || isInfinity point then Some pointAtInfinity
  else match k with
       | Zpos n => mulLoop n pointAtInfinity point
       | _ => Some pointAtInfinity
       end.

Definition fixedBaseScalarMul (scalar : Scalar) : option Point :=
  let generator := mkPoint (fst GENERATOR) (snd GENERATOR) false in
  scalarMul generator scalar.

Definition pointsEqual (p1 p2 : Point) : bool :=
  if isInfinity p1 && isInfinity p2 then true
  else if isInfinity p1 || isInfinity p2 then false
  else (x p1 =? x p2) && (y p1 =? y p2).

End Grumpkin.

(** ** The Pedersen hash ([sdk/src/pedersen.ts]) *)

Module Pedersen.
Import Grumpkin.

Definition PEDERSEN_GENERATORS : list Point :=
  [ mkPoint 0x083e7911d835097629f0067531fc15cafd79a89beecb39903f69572c636f4a5a
            0x1a7f5efaad7f315c25a918f30cc8d7333fccab7ad7c90f14de81bcc528f9935d false;
    mkPoint 0x054aa86a73cb8a34525e5bbed6e43ba1198e860f5f3950268f71df4591bde402
            0x209dcfbf2cfb57f9f6046f44d71ac6faf87254afc7407c04eb621a6287cac126 false;
    mkPoint 0x1c44f2a5207c81c28a8321a5815ce8b1311024bbed131819bbdaf5a2ada84748
            0x03aaee36e6422a1d0191632ac6599ae9eba5ac2c17a8c920aa3caf8b89c5f8a8 false;
    mkPoint 0x26d8b1160c6821a30c65f6cb47124afe01c29f4338f44d4a12c9fccf22fb6fb2
            0x05c70c3b9c0d25a4c100e3a27bf3cc375f8af8cdd9498ec4089a823d7464caff false;
    mkPoint 0x20ed9c6a1d27271c4498bfce0578d59db1adbeaa8734f7facc097b9b994fcf6e
            0x29cd7d370938b358c62c4a00f73a0d10aba7e5aaa04704a0713f891ebeb92371 false;
    mkPoint 0x0224a8abc6c8b8d50373d64cd2a1ab1567bf372b3b1f7b861d7f01257052d383
            0x2358629b90eafb299d6650a311e79914b0215eb0a790810b26da5a826726d711 false;
    mkPoint 0x0f106f6d46bc904a5290542490b2f238775ff3c445b2f8f704c466655f460a2a
            0x29ab84d472f1d33f42fe09c47b8f7710f01920d6155250126731e486877bcf27 false;
    mkPoint 0x0298f2e42249f0519c8a8abd91567ebe016e480f219b8c19461d6a595cc33696
            0x035bec4b8520a4ece27bd5aafabee3dfe1390d7439c419a8c55aceb207aac83b false;
    mkPoint 0x2c9628479de4181ea77e7b0913ccf41d2a74155b1d9c82eaa220c218781f6f3b
            0x278f86b8fd95520b5da23bee1a5e354dc5dcb0cb43d6b76e628ddbffb101d776 false;
    mkPoint 0x0be1916f382e3532aa53a766fe74b1a983784caab90290aea7bf616bc371fb41
            0x0f65545005e896f14249956344faf9addd762b7573a487b58f805a361d920a20 false;
    mkPoint 0x29ff8437ae5bec89981441b23036a22b7fd5bee9eff0e83c0dd5b87bfb5bd60e
            0x1fd247352b77e2676b22db23cf7cd482474f543e3480b5a39c42f839a306be10 false;
    mkPoint 0x2f3bd4e98f8c8458cd58888749f0f5e582a43565767398e08e50e94b9b19a4d9
            0x1f534906d1aa8b4ba74ad9e3f85ae3f8295e51eaafd15b5d116801b96360205b false ].

Definition PEDERSEN_LENGTH_GENERATOR : Point :=
  mkPoint 0x2df8b940e5890e4e1377e05373fae69a1d754f6935e6a780b666947431f2cdcd
          0x2ecd88d15967bc53b885912e0d16866154acb6aac2d3f85e27ca7eefb2c19083 false.

(** The [for] loop of [pedersenHash] over the inputs that are left and the
    generators from the current index on. *)
Fixpoint hashLoop (generators : list Point) (inputs : list Z) (result : Point)
  : option Point :=
  match inputs, generators with
  | [], _ => Some result
  | input :: inputs', g :: generators' =>
      match scalarMul g (scalarFromBigint (mod_ input FIELD_MODULUS)) with
      | Some term =>
          match addPoints result term with
          | Some result' => hashLoop generators' inputs' result'
          | None => None
          end
      | None => None
      end
  | _ :: _, [] => None
  end.

Definition pedersenHash (inputs : list Z) : option Z :=
  if (List.length PEDERSEN_GENERATORS <? List.length inputs)%nat then None
  else
    match hashLoop PEDERSEN_GENERATORS inputs pointAtInfinity with
    | Some result =>
        let lengthScalar := scalarFromBigint (Z.of_nat (List.length inputs)) in
        match scalarMul PEDERSEN_LENGTH_GENERATOR lengthScalar with
        | Some lengthTerm =>
            match addPoints result lengthTerm with
            | Some result' =>
                Some (if isInfinity result' then 0 else x result')
            | None => None
            end
        | None => None
        end
    | None => None
    end.

End Pedersen.

(** ** Cards as ElGamal ciphertexts ([sdk/src/card.ts]) *)

Module CardTs.
Import Grumpkin Pedersen.

Record Card := mkCard { epk : Point; msg : Point; pk : Point }.

Definition DECK_SIZE : Z := 52.

Definition CARD_PRIMES : list Z :=
  [ 2; 3; 5; 7; 11; 13; 17; 19; 23; 29; 31; 37; 41;
    43; 47; 53; 59; 61; 67; 71; 73; 79; 83; 89; 97; 101;
    103; 107; 109; 113; 127; 131; 137; 139; 149; 151; 157; 163; 167;
    173; 179; 181; 191; 193; 197; 199; 211; 223; 227; 229; 233; 239 ].

Definition createCardFromPoint (cardPoint : Point) : Card :=
  mkCard pointAtInfinity cardPoint pointAtInfinity.

Definition cardIndexToPoint (cardIndex : Z) : option Point :=
  if (cardIndex <? 0) || (cardIndex >=? DECK_SIZE) then None
  else
    let cardPrime := nth (Z.to_nat cardIndex) CARD_PRIMES 0 in
    match pedersenHash [cardPrime] with
    | Some scalarField => fixedBaseScalarMul (scalarFromBigint scalarField)
    | None => None
    end.

Definition createCard (cardIndex : Z) : option Card :=
  option_map createCardFromPoint (cardIndexToPoint cardIndex).

End CardTs.

(** ** Masking and unmasking ([sdk/src/elgamal.ts]) *)

Module ElGamal.
Import Grumpkin CardTs.

Definition addPlayerToCardMask (card : Card) (playerSecret : Scalar)
  : option Card :=
  match fixedBaseScalarMul playerSecret with
  | None => None
  | Some playerPub =>
      let isFirstPlayer := isInfinity (pk card) in
      match (if isFirstPlayer then Some playerPub
             else addPoints (pk card) playerPub) with
      | None => None
      | Some newPk =>
          let newMsg :=
            if isFirstPlayer || isInfinity (epk card) then Some (msg card)
            else match scalarMul (epk card) playerSecret with
                 | Some epkScaled => addPoints (msg card) epkScaled
                 | None => None
                 end in
          option_map (fun m => mkCard (epk card) m newPk) newMsg
      end
  end.

Definition mask (card : Card) (nonce : Scalar) : option Card :=
  if isInfinity (pk card) then None
  else
    match fixedBaseScalarMul nonce with
    | None => None
    | Some ephemeralPub =>
        match (if isInfinity (epk card) then Some ephemeralPub
               else addPoints (epk card) ephemeralPub) with
        | None => None
        | Some newEpk =>
            match scalarMul (pk card) nonce with
            | None => None
            | Some sharedSecret =>
                option_map (fun m => mkCard newEpk m (pk card))
                           (addPoints (msg card) sharedSecret)
            end
        end
    end.

Definition partialUnmask (card : Card) (playerSecret : Scalar) : option Card :=
  if isInfinity (pk card) then None
  else if isInfinity (epk card) then None
  else
    match scalarMul (epk card) playerSecret with
    | None => None
    | Some decryptionShare =>
        match (if pointsEqual (msg card) decryptionShare
               then Some pointAtInfinity
               else subtractPoints (msg card) decryptionShare) with
        | None => None
        | Some newMsg =>
            match fixedBaseScalarMul playerSecret with
            | None => None
            | Some playerPub =>
                option_map (fun k => mkCard (epk card) newMsg k)
                  (if pointsEqual (pk card) playerPub
                   then Some pointAtInfinity
                   else subtractPoints (pk card) playerPub)
            end
        end
    end.

Definition addPlayerAndMask (card : Card) (playerSecret nonce : Scalar)
  : option Card :=
  match addPlayerToCardMask card playerSecret with
  | Some cardWithPlayer => mask cardWithPlayer nonce
  | None => None
  end.

(** The protocol of the shuffle phase: the players join and mask in turn,
    each with a secret and a nonce. *)
Fixpoint maskAll (card : Card) (players : list (Scalar * Scalar)) : option Card :=
  match players with
  | [] => Some card
  | (playerSecret, nonce) :: rest =>
      match addPlayerAndMask card playerSecret nonce with
      | Some card' => maskAll card' rest
      | None => None
      end
  end.

(** The reveal: one [partialUnmask] per secret, in the order of the list. *)
Fixpoint unmaskAll (card : Card) (secrets : list Scalar) : option Card :=
  match secrets with
  | [] => Some card
  | playerSecret :: rest =>
      match partialUnmask card playerSecret with
      | Some card' => unmaskAll card' rest
      | None => None
      end
  end.

End ElGamal.

(** ** Short Weierstrass curves [y^2 = x^3 + b] over a field

    The affine group law that [addPoints] of [sdk/src/grumpkin.ts]
    computes, over any type [K] with field operations: the same case
    distinction and the same chord and tangent formulas. *)

Module Curve.

Inductive point (K : Type) : Type :=
| Inf : point K
| Aff : K -> K -> point K.

Arguments Inf {K}.
Arguments Aff {K} _ _.

Section Defs.
Variable K : Type.
Variables (kO kI : K) (kadd kmul ksub : K -> K -> K) (kopp : K -> K).
Variables (kdiv : K -> K -> K) (keqb : K -> K -> bool).

Local Notation "0" := kO.
Local Notation "1" := kI.
Local Notation "x + y" := (kadd x y).
Local Notation "x * y" := (kmul x y).
Local Notation "x - y" := (ksub x y).
Local Notation "x / y" := (kdiv x y).
Local Notation "- x" := (kopp x).

(** Slope of the chord through two points, and of the tangent. *)
Definition slopeC (x1 y1 x2 y2 : K) : K := (y2 - y1) / (x2 - x1).

Definition slopeT (x1 y1 : K) : K := ((1 + 1 + 1) * x1 * x1) / ((1 + 1) * y1).

(** Coordinates of the sum from the slope. *)
Definition sumx (l x1 x2 : K) : K := l * l - x1 - x2.

Definition sumy (l x1 y1 x3 : K) : K := l * (x1 - x3) - y1.

Definition onCurve (b : K) (P : point K) : Prop :=
  match P with
  | Inf => True
  | Aff x y => y * y = x * x * x + b
  end.

Definition neg (P : point K) : point K :=
  match P with
  | Inf => Inf
  | Aff x y => Aff x (- y)
  end.

Definition add (P Q : point K) : point K :=
  match P, Q with
  | Inf, _ => Q
  | _, Inf => P
  | Aff x1 y1, Aff x2 y2 =>
      if keqb x1 x2 then
        if keqb (y1 + y2) 0 then Inf
        else
          let l := slopeT x1 y1 in
          let x3 := sumx l x1 x2 in
          Aff x3 (sumy l x1 y1 x3)
      else
        let l := slopeC x1 y1 x2 y2 in
        let x3 := sumx l x1 x2 in
        Aff x3 (sumy l x1 y1 x3)
  end.

(** [n] times a point. *)
Fixpoint mul (n : nat) (P : point K) : point K :=
  match n with
  | O => Inf
  | S n' => add P (mul n' P)
  end.

End Defs.

Arguments slopeC {K} ksub kdiv x1 y1 x2 y2.
Arguments slopeT {K} kI kadd kmul kdiv x1 y1.
Arguments sumx {K} kmul ksub l x1 x2.
Arguments sumy {K} kmul ksub l x1 y1 x3.
Arguments onCurve {K} kadd kmul b P.
Arguments neg {K} kopp P.
Arguments add {K} kO kI kadd kmul ksub kdiv keqb P Q.
Arguments mul {K} kO kI kadd kmul ksub kdiv keqb n P.

End Curve.

(** ** Primality certificates

    The arithmetic of [sdk/src/grumpkin.ts] is that of a field only because
    [FIELD_MODULUS] is prime.  Small primes are certified by trial
    division, large ones by a Pocklington certificate: a base [c] and
    prime powers [q ^ e] whose product [F] exceeds the square root of the
    number. *)

Module Primality.

(** None of [d], [d + 1], ..., [d + fuel - 1] divides [n]. *)
Fixpoint noDivisors (n d : Z) (fuel : nat) : bool :=
  match fuel with
  | O => true
  | S fuel' => negb (n mod d =? 0) && noDivisors n (d + 1) fuel'
  end.

Definition trialPrime (n : Z) : bool :=
  (1 <? n) && noDivisors n 2 (Z.to_nat (Z.sqrt n - 1)).

Definition factorProduct (qs : list (Z * Z)) : Z :=
  fold_right (fun qe acc => fst qe ^ snd qe * acc) 1 qs.

Fixpoint coprimeFactors (qs : list (Z * Z)) : bool :=
  match qs with
  | [] => true
  | qe :: qs' =>
      (Z.gcd (fst qe ^ snd qe) (factorProduct qs') =? 1) && coprimeFactors qs'
  end.

Definition pocklington (n c : Z) (qs : list (Z * Z)) : bool :=
  let F := factorProduct qs in
  (1 <? n) && (n <? F * F) && (Zpow_mod c F n =? 1) && coprimeFactors qs
  && forallb (fun qe => (0 <? snd qe)
                        && (Z.gcd (Zpow_mod c (F / fst qe) n - 1) n =? 1)) qs.

End Primality.

(** ** The points of [grumpkin.ts] as elements of the curve group

    Coordinates are read modulo [FIELD_MODULUS]; a point record is valid
    when it is the canonical point at infinity or has reduced coordinates
    that satisfy the curve equation. *)

Module Group.
Import Grumpkin.

Abbreviation Fp := (Zmod FIELD_MODULUS).

Definition toFp (z : Z) : Fp := Zmod.of_Z FIELD_MODULUS z.

Definition curveB : Fp := toFp B.

Definition onCurve (P : Curve.point Fp) : Prop :=
  Curve.onCurve Zmod.add Zmod.mul curveB P.

Definition neg (P : Curve.point Fp) : Curve.point Fp :=
  Curve.neg Zmod.opp P.

Definition add (P Q : Curve.point Fp) : Curve.point Fp :=
  Curve.add Zmod.zero Zmod.one Zmod.add Zmod.mul Zmod.sub Zmod.mdiv Zmod.eqb P Q.

Definition mul (n : nat) (P : Curve.point Fp) : Curve.point Fp :=
  Curve.mul Zmod.zero Zmod.one Zmod.add Zmod.mul Zmod.sub Zmod.mdiv Zmod.eqb n P.

Definition embed (P : Point) : Curve.point Fp :=
  if isInfinity P then Curve.Inf else Curve.Aff (toFp (x P)) (toFp (y P)).

Definition reduced (z : Z) : Prop := 0 <= z < FIELD_MODULUS.

Definition valid (P : Point) : Prop :=
  if isInfinity P then P = pointAtInfinity
  else reduced (x P) /\ reduced (y P) /\ isOnCurve P = true.

Definition generator : Point := mkPoint (fst GENERATOR) (snd GENERATOR) false.

(** How often a scalar adds a point: [scalarMul] treats a negative
    scalar as zero. *)
Definition multiplier (scalar : Scalar) : nat := Z.to_nat (scalarToBigint scalar).

End Group.

(** ** The mask and unmask protocol as a whole *)

Module Protocol.
Import Grumpkin CardTs ElGamal Group.



(** Twice the generator, as [addPoints] computes it. *)
Definition doubleGenerator : Point :=
  mkPoint 3078034153852398078128400807926804309327113743808504829582559963737223069694
          12696890884641142049456609402511852099066095483298083855939691685001536962732
          false.



End Protocol.

(** ** Another order of the protocol: every player joins, then the card is
       masked, then the players unmask ([sdk/src/elgamal.ts]) *)

Module Flows.
Import Grumpkin CardTs ElGamal.




End Flows.

(** ** The rules of the two-player state machine ([sdk/src/game-state.ts]) *)

Module SdkRules.
Import Sdk.

Definition MIN_BET : Z := 1.
Definition MIN_RAISE_MULTIPLIER : Z := 2.

Definition postBlinds (s : GameState) (smallBlind bigBlind : Z) : GameState :=
  let sbPlayer := if dealer s =? 1 then 1 else 2 in
  if sbPlayer =? 1 then
    mkGameState (stackP1 s - smallBlind) (stackP2 s - bigBlind) (smallBlind + bigBlind)
      STREET_PREFLOP sbPlayer ACTION_BET bigBlind smallBlind bigBlind
      STATUS_ACTIVE (dealer s)
  else
    mkGameState (stackP1 s - bigBlind) (stackP2 s - smallBlind) (smallBlind + bigBlind)
      STREET_PREFLOP sbPlayer ACTION_BET bigBlind bigBlind smallBlind
      STATUS_ACTIVE (dealer s).

(** The action constructors. *)
Definition fold : Action := mkAction ACTION_FOLD 0.
Definition check : Action := mkAction ACTION_CHECK 0.
Definition bet (amount : Z) : Action := mkAction ACTION_BET amount.
Definition raiseTo (amount : Z) : Action := mkAction ACTION_RAISE amount.
Definition allIn : Action := mkAction ACTION_ALL_IN 0.

(** [isValidAction]: the [switch] on the action type, read case by case. *)
Definition isValidAction (s : GameState) (a : Action) : bool :=
  if negb (status s =? STATUS_ACTIVE) then false
  else
    let toCall := amountToCall s in
    let stack := currentStack s in
    if actionType a =? ACTION_FOLD then true
    else if actionType a =? ACTION_CHECK then toCall =? 0
    else if actionType a =? ACTION_CALL then (toCall >? 0) && (stack >=? toCall)
    else if actionType a =? ACTION_BET then
      let canBet := (lastAction s =? ACTION_NULL) || (lastAction s =? ACTION_CHECK) in
      let validBetAmount := (amount a >=? MIN_BET) && (amount a <=? stack) in
      canBet && validBetAmount
    else if actionType a =? ACTION_RAISE then
      let canRaise :=
        (lastAction s =? ACTION_BET) || (lastAction s =? ACTION_RAISE)
        || (lastAction s =? ACTION_ALL_IN) in
      let minRaise := lastBetSize s * MIN_RAISE_MULTIPLIER in
      let validRaiseAmount := (amount a >=? minRaise) && (amount a <=? stack) in
      canRaise && validRaiseAmount
    else if actionType a =? ACTION_ALL_IN then stack >? 0
    else false.

End SdkRules.

(** ** Settlement of a showdown, in the words used to state what it pays *)

Module RoomSpec.
Import Types Room.



End RoomSpec.

(** ** Card names ([sdk/src/cards.ts], class [CardEncoding]) *)

Module CardEncoding.
Import Ascii.

(** The rank and suit names are one-character strings. *)
Definition RANKS : list ascii :=
  ["2"; "3"; "4"; "5"; "6"; "7"; "8"; "9"; "T"; "J"; "Q"; "K"; "A"]%char.

Definition SUITS : list ascii := ["h"; "d"; "c"; "s"]%char.

(** [Array.prototype.indexOf]: the index of the first element equal to
    [c], counted from [i] for the head, and -1 when there is none. *)
Fixpoint indexOf (l : list ascii) (c : ascii) (i : Z) : Z :=
  match l with
  | [] => -1
  | a :: r => if Ascii.eqb a c then i else indexOf r c (i + 1)
  end.

(** [toUpperCase] and [toLowerCase] of a one-character string: the
    letters of ASCII change case and the other ASCII characters stay.  (A
    character outside ASCII is mapped by JavaScript to a character or a
    string that is again no rank and no suit name; it is left as it is
    here.) *)
Definition toUpperCase (c : ascii) : ascii :=
  let n := N_of_ascii c in
  if ((97 <=? n) && (n <=? 122))%N then ascii_of_N (n - 32) else c.

Definition toLowerCase (c : ascii) : ascii :=
  let n := N_of_ascii c in
  if ((65 <=? n) && (n <=? 90))%N then ascii_of_N (n + 32) else c.

(** [indexToString(index)]; [None] for the thrown error. *)
Definition indexToString (index : Z) : option string :=
  if (index <? 0) || (index >=? 52) then None
  else
    let rank := Z.rem index 13 in
    let suit := index / 13 in
    Some (String (nth (Z.to_nat rank) RANKS " "%char)
            (String (nth (Z.to_nat suit) SUITS " "%char) EmptyString)).

(** [stringToIndex(card)]; the test [rankChar === '10'] compares a
    one-character string with a two-character string and never holds. *)
Definition stringToIndex (card : string) : option Z :=
  match card with
  | String c0 (String c1 EmptyString) =>
      let rankChar := toUpperCase c0 in
      let suitChar := toLowerCase c1 in
      let rank := indexOf RANKS rankChar 0 in
      let suit := indexOf SUITS suitChar 0 in
      if (rank =? -1) || (suit =? -1) then None else Some (suit * 13 + rank)
  | _ => None
  end.

End CardEncoding.

(** ** Sorting numbers, to tell that a table has no key twice *)

Module ZLeb := Orders.OTF_to_TTLB BinInt.Z.
Module ZSort := Mergesort.Sort ZLeb.

Module LookupSpec.

(** Each number of the list is below the next one. *)
Fixpoint increasing (l : list Z) : bool :=
  match l with
  | a :: (b :: _) as rest => (a <? b) && increasing rest
  | _ => true
  end.

End LookupSpec.

(* ================================================================== *)
(** * Part II: theorems                                                *)
(* ================================================================== *)

(** ** Facts on the JavaScript helpers *)

Module JsFacts.
Import Js.

Lemma insertBy_perm {A} (cmp : A -> A -> Z) x l : Permutation (insertBy cmp x l) (x :: l).
Proof.
  induction l as [|y l IH]; cbn; [reflexivity|].
  destruct (cmp x y <=? 0); [reflexivity|].
  rewrite IH. apply perm_swap.
Qed.



Section KeySort.
Context {A : Type} (cmp : A -> A -> Z) (key : A -> Z).
Hypothesis cmp_key : forall a b, cmp a b <= 0 <-> key a <= key b.

Lemma insertBy_sorted x l :
  StronglySorted (fun a b => key a <= key b) l ->
  StronglySorted (fun a b => key a <= key b) (insertBy cmp x l).
Proof.
  induction 1 as [|y l Hs IH Hy]; cbn.
  - repeat constructor.
  - destruct (Z.leb_spec (cmp x y) 0) as [Hle|Hgt].
    + apply cmp_key in Hle. constructor; [now constructor|].
      constructor; [exact Hle|].
      rewrite Forall_forall in *. intros z Hz. specialize (Hy z Hz). lia.
    + assert (key y <= key x).
      { destruct (Z.le_gt_cases (key x) (key y)) as [Hc|Hc]; [|lia].
        apply cmp_key in Hc. lia. }
      constructor; [exact IH|].
      rewrite Forall_forall in *. intros z Hz.
      apply (Permutation_in _ (insertBy_perm cmp x l)) in Hz.
      destruct Hz as [<-|Hz]; [assumption|now apply Hy].
Qed.

Lemma sortBy_sorted l : StronglySorted (fun a b => key a <= key b) (sortBy cmp l).
Proof.
  induction l; cbn; [constructor|now apply insertBy_sorted].
Qed.
End KeySort.



End JsFacts.

(** ** Enumerations *)

Module EnumFacts.
Import Types.

(** The server's numeric [ActionType] does not carry the SDK codepoints:
    [FOLD] is 0 there, while the claimed codepoint of Fold is 3. *)
Lemma server_fold_is_not_sdk_fold :
  ~ (ActionType_code FOLD = Sdk.ACTION_FOLD /\
     ActionType_code CALL = Sdk.ACTION_CALL /\
     ActionType_code BET = Sdk.ACTION_BET /\
     ActionType_code RAISE = Sdk.ACTION_RAISE /\
     ActionType_code CHECK = Sdk.ACTION_CHECK /\
     ActionType_code ALL_IN = Sdk.ACTION_ALL_IN).
Proof.
  intros [Hfold _]. discriminate Hfold.
Qed.

(** C9 (amended).  The SDK constants have the codepoints Null=0, Bet=1,
    Call=2, Fold=3, Raise=4, Check=5, AllIn=6; Preflop=0 .. Showdown=4;
    Waiting=0, Active=1, Finished=2.  The server's [Street] agrees with
    them, its [ActionType] is FOLD=0, CHECK=1, CALL=2, BET=3, RAISE=4,
    ALL_IN=5, and its [GameStatus] is string-valued. *)
Theorem enum_codepoints :
  (Sdk.ACTION_NULL, Sdk.ACTION_BET, Sdk.ACTION_CALL, Sdk.ACTION_FOLD,
   Sdk.ACTION_RAISE, Sdk.ACTION_CHECK, Sdk.ACTION_ALL_IN) = (0, 1, 2, 3, 4, 5, 6) /\
  (Sdk.STREET_PREFLOP, Sdk.STREET_FLOP, Sdk.STREET_TURN, Sdk.STREET_RIVER,
   Sdk.STREET_SHOWDOWN) = (0, 1, 2, 3, 4) /\
  (Sdk.STATUS_WAITING, Sdk.STATUS_ACTIVE, Sdk.STATUS_FINISHED) = (0, 1, 2) /\
  (PREFLOP, FLOP, TURN, RIVER, SHOWDOWN_STREET) = (0, 1, 2, 3, 4) /\
  map ActionType_code [FOLD; CHECK; CALL; BET; RAISE; ALL_IN] = [0; 1; 2; 3; 4; 5] /\
  map GameStatus_code [WAITING; SHUFFLE; DEALING; BETTING; SHOWDOWN; FINISHED]
  = ["waiting"; "shuffle"; "dealing"; "betting"; "showdown"; "finished"]%string.
Proof.
  repeat split; reflexivity.
Qed.

End EnumFacts.

(** ** The two-player state machine of the SDK *)

Module SdkFacts.
Import Sdk SdkSpec.


Lemma createGameState_seated a b d : seated (createGameState a b d).
Proof. unfold seated, createGameState; cbn. destruct (d =? 1); auto. Qed.

Lemma applyAction_seated s a : seated (applyAction s a).
Proof.
  unfold seated, applyAction.
  destruct (_ && _); cbn.
  - destruct (dealer s =? 1); auto.
  - destruct (currentPlayer s =? 1); auto.
Qed.



End SdkFacts.

(** ** Showdown settlement *)

Module RoomFacts.
Import Types Room RoomScenarios.

(** The hands of [eligibleHands] come in descending order of [handRank]. *)
Lemma eligibleHands_descending hands pot :
  StronglySorted (fun a b => handRank (hand b) <= handRank (hand a))
    (eligibleHands hands pot).
Proof.
  unfold eligibleHands.
  pose proof (JsFacts.sortBy_sorted
                (fun a b => handRank (hand b) - handRank (hand a))
                (fun h => - handRank (hand h))) as Hs.
  cbn beta in Hs.
  match goal with |- StronglySorted _ (Js.sortBy _ ?l) =>
    specialize (Hs (fun a b => ltac:(lia)) l) end.
  eapply StronglySorted_ind with (P := StronglySorted _) in Hs; [exact Hs|constructor|].
  intros a l _ IH Hall. constructor; [exact IH|].
  rewrite Forall_forall in *. intros x Hx. specialize (Hall x Hx). lia.
Qed.

(** What [resolveShowdown] does for every pot: a winner's declared rank is
    at least the rank of every eligible player who revealed, so the pot
    goes to the numerically largest [handRank]. *)
Lemma potWinners_largest_rank hands pot w h :
  In w (potWinners hands pot) -> In h (eligibleHands hands pot) ->
  handRank (hand h) <= handRank (hand w).
Proof.
  unfold potWinners. pose proof (eligibleHands_descending hands pot) as Hs.
  destruct (eligibleHands hands pot) as [|first rest]; [contradiction|].
  intros Hw Hh. apply filter_In in Hw as [_ Hw]. apply Z.eqb_eq in Hw. rewrite Hw.
  inversion Hs as [|? ? _ Hall]; subst. rewrite Forall_forall in Hall.
  destruct Hh as [<-|Hh]; [lia|now apply Hall].
Qed.

(** C3.  At that showdown [resolveShowdown] gives the whole pot of 4 to
    [p2], the player with the numerically larger rank; [p1], who holds
    rank 0, gets nothing. *)
Theorem resolveShowdown_awards_largest_rank :
  Engine.calculateSidePots s6_state = [mkSidePot 4 ["p1"; "p2"]] /\
  resolveShowdown s6_reveals s6_state
  = ([mkPlayer "p1" 0 98 0 2 false false; mkPlayer "p2" 1 102 0 2 false false],
     ["p2"]).
Proof.
  split; reflexivity.
Qed.

End RoomFacts.

(** ** The betting engine *)

Module EngineFacts.
Import Types Engine EngineScenarios.

(** *** The scenarios of [server/tests/GameEngine.test.ts], replayed *)

Example test_blinds_heads_up :
  let s := postBlinds DEFAULT_GAME_CONFIG headsUp in
  map streetBet (players s) = [1; 2] /\ pot s = 3 /\ actionPos s = 0.
Proof. repeat split. Qed.

Example test_fold :
  let s := stateAfter (postBlinds DEFAULT_GAME_CONFIG headsUp) [mkGameAction "p1" FOLD 0] in
  map folded (players s) = [true; false] /\ status s = FINISHED.
Proof. repeat split. Qed.

Example test_call :
  let s := stateAfter (postBlinds DEFAULT_GAME_CONFIG headsUp) [mkGameAction "p1" CALL 1] in
  map streetBet (players s) = [2; 2] /\ map stack (players s) = [98; 98] /\ pot s = 4.
Proof. repeat split. Qed.

Example test_bet_on_flop :
  let s1 := stateAfter (postBlinds DEFAULT_GAME_CONFIG headsUp)
              [mkGameAction "p1" CALL 1; mkGameAction "p2" CHECK 0] in
  let s2 := stateAfter s1 [mkGameAction "p2" BET 4] in
  street s1 = FLOP /\ actionPos s1 = 1 /\ pot s2 = 8.
Proof. repeat split. Qed.

Example test_raise :
  let s := stateAfter (postBlinds DEFAULT_GAME_CONFIG headsUp) [mkGameAction "p1" RAISE 6] in
  map streetBet (players s) = [6; 2] /\ pot s = 8.
Proof. repeat split. Qed.

Example test_all_in :
  let s := stateAfter (postBlinds DEFAULT_GAME_CONFIG headsUp) [mkGameAction "p1" ALL_IN 0] in
  map stack (players s) = [0; 98] /\ map allIn (players s) = [true; false]
  /\ map streetBet (players s) = [100; 2].
Proof. repeat split. Qed.

Example test_not_your_turn :
  play (postBlinds DEFAULT_GAME_CONFIG headsUp) [mkGameAction "p2" FOLD 0]
  = Some (Failure "Not your turn", postBlinds DEFAULT_GAME_CONFIG headsUp).
Proof. reflexivity. Qed.

Example test_all_streets :
  let s := stateAfter (postBlinds DEFAULT_GAME_CONFIG headsUp)
             [mkGameAction "p1" CALL 1; mkGameAction "p2" CHECK 0;
              mkGameAction "p2" CHECK 0; mkGameAction "p1" CHECK 0;
              mkGameAction "p2" CHECK 0; mkGameAction "p1" CHECK 0;
              mkGameAction "p2" CHECK 0; mkGameAction "p1" CHECK 0] in
  street s = SHOWDOWN_STREET /\ status s = SHOWDOWN.
Proof. repeat split. Qed.

Example test_blinds_six_handed :
  let s := postBlinds DEFAULT_GAME_CONFIG sixHanded in
  map streetBet (players s) = [0; 1; 2; 0; 0; 0] /\ pot s = 3 /\ actionPos s = 3.
Proof. repeat split. Qed.

Example test_multiple_folds :
  let s0 := postBlinds DEFAULT_GAME_CONFIG sixHanded in
  let s4 := stateAfter s0 [mkGameAction "p4" FOLD 0; mkGameAction "p5" FOLD 0;
                           mkGameAction "p6" FOLD 0; mkGameAction "p1" FOLD 0] in
  actionPos s4 = 1 /\ status (stateAfter s4 [mkGameAction "p2" FOLD 0]) = FINISHED.
Proof. repeat split. Qed.

Example test_valid_actions :
  let s := postBlinds DEFAULT_GAME_CONFIG headsUp in
  getValidActions DEFAULT_GAME_CONFIG s = [FOLD; CALL; BET; RAISE; ALL_IN] /\
  getValidActions DEFAULT_GAME_CONFIG (stateAfter s [mkGameAction "p1" CALL 1])
  = [FOLD; CHECK; BET; RAISE; ALL_IN].
Proof. repeat split. Qed.

(** *** Side pots *)















(** *** Posting the blinds *)

Lemma updFirst_In {A} (pred : A -> bool) f l y :
  In y (Js.updFirst pred f l) -> In y l \/ exists x, In x l /\ y = f x.
Proof.
  induction l as [|x l IH]; cbn; [tauto|].
  destruct (pred x); cbn.
  - intros [<-|H]; [right; exists x; auto|left; auto].
  - intros [<-|H]; [left; auto|].
    destruct (IH H) as [H'|(z & Hz & E)]; [left; auto|right; exists z; auto].
Qed.

Lemma find_updFirst_same {A} (pred : A -> bool) f l x :
  find pred l = Some x -> pred (f x) = true ->
  find pred (Js.updFirst pred f l) = Some (f x).
Proof.
  induction l as [|y l IH]; cbn; [discriminate|].
  destruct (pred y) eqn:E; cbn.
  - intros [= ->] ->. reflexivity.
  - rewrite E. exact IH.
Qed.

Lemma find_updFirst_other {A} (pred q : A -> bool) f l :
  (forall x, pred x = true -> q x = false /\ q (f x) = false) ->
  find q (Js.updFirst pred f l) = find q l.
Proof.
  intros H. induction l as [|y l IH]; cbn; [reflexivity|].
  destruct (pred y) eqn:E; cbn.
  - destruct (H y E) as [-> ->]. reflexivity.
  - now rewrite IH.
Qed.

Lemma sumStacks_updFirst pred f l x d :
  find pred l = Some x -> stack (f x) = stack x - d ->
  sumStacks (Js.updFirst pred f l) = sumStacks l - d.
Proof.
  unfold sumStacks, Js.sumZ. induction l as [|y l IH]; cbn; [discriminate|].
  destruct (pred y); cbn.
  - intros [= ->] ->. lia.
  - intros Hf Hs. rewrite (IH Hf Hs). lia.
Qed.

Lemma postBlind_at blind seat s player :
  getPlayerByIndex s seat = Some player ->
  getPlayerByIndex (postBlind blind seat s) seat = Some (blindPosted blind player) /\
  pot (postBlind blind seat s) = pot s + Z.min blind (stack player) /\
  sumStacks (players (postBlind blind seat s))
  = sumStacks (players s) - Z.min blind (stack player).
Proof.
  intros Hf. unfold postBlind. rewrite Hf. unfold getPlayerByIndex in *. cbn.
  assert (Hseat : hasSeat seat player = true) by (eapply find_some; eauto).
  split; [|split].
  - erewrite find_updFirst_same by (eauto; exact Hseat). reflexivity.
  - reflexivity.
  - eapply sumStacks_updFirst; eauto.
Qed.

Lemma postBlind_elsewhere blind seat s seat' :
  seat' <> seat ->
  getPlayerByIndex (postBlind blind seat s) seat' = getPlayerByIndex s seat'.
Proof.
  intros Hne. unfold postBlind, getPlayerByIndex.
  destruct (find (hasSeat seat) (players s)) as [player|]; [|reflexivity].
  cbn. apply find_updFirst_other. intros x Hx. unfold hasSeat in *. cbn.
  apply Z.eqb_eq in Hx. rewrite Hx. split; apply Z.eqb_neq; congruence.
Qed.

Lemma postBlind_stacks_nonneg blind seat s :
  (forall p, In p (players s) -> 0 <= stack p) ->
  forall p, In p (players (postBlind blind seat s)) -> 0 <= stack p.
Proof.
  intros Hnn p. unfold postBlind.
  destruct (getPlayerByIndex s seat) as [player|] eqn:Hf; [|apply Hnn].
  cbn. intros Hin. apply updFirst_In in Hin as [Hin|(x & Hx & ->)]; [now apply Hnn|].
  cbn. lia.
Qed.

(** No stack is overdrawn by [postBlinds], whoever posts. *)
Lemma postBlinds_stacks_nonneg cfg s :
  (forall p, In p (players s) -> 0 <= stack p) ->
  forall p, In p (players (postBlinds cfg s)) -> 0 <= stack p.
Proof.
  intros Hnn p. unfold postBlinds. cbn.
  apply postBlind_stacks_nonneg, postBlind_stacks_nonneg, Hnn.
Qed.

(** When the two blinds fall on different seats, [postBlinds] takes
    [min(blind, stack)] from each, records it as street bet, adds it to
    the total bet and to the pot, and marks an emptied stack all-in. *)
Lemma postBlinds_distinct_seats cfg s sb bb :
  getPlayerByIndex s (getSmallBlindPosition s) = Some sb ->
  getPlayerByIndex s (getBigBlindPosition s) = Some bb ->
  getSmallBlindPosition s <> getBigBlindPosition s ->
  let s' := postBlinds cfg s in
  getPlayerByIndex s' (getSmallBlindPosition s) = Some (blindPosted (smallBlind cfg) sb) /\
  getPlayerByIndex s' (getBigBlindPosition s) = Some (blindPosted (bigBlind cfg) bb) /\
  pot s' = pot s + Z.min (smallBlind cfg) (stack sb) + Z.min (bigBlind cfg) (stack bb) /\
  sumStacks (players s') + pot s' = sumStacks (players s) + pot s /\
  0 <= stack (blindPosted (smallBlind cfg) sb) /\
  0 <= stack (blindPosted (bigBlind cfg) bb).
Proof.
  intros Hsb Hbb Hne s'.
  destruct (postBlind_at (smallBlind cfg) _ s sb Hsb) as (Hsb1 & Hpot1 & Hsum1).
  assert (Hbb1 : getPlayerByIndex (postBlind (smallBlind cfg) (getSmallBlindPosition s) s)
                   (getBigBlindPosition s) = Some bb)
    by (rewrite postBlind_elsewhere by congruence; exact Hbb).
  destruct (postBlind_at (bigBlind cfg) _ _ bb Hbb1) as (Hbb2 & Hpot2 & Hsum2).
  assert (Hsb2 : getPlayerByIndex
                   (postBlind (bigBlind cfg) (getBigBlindPosition s)
                      (postBlind (smallBlind cfg) (getSmallBlindPosition s) s))
                   (getSmallBlindPosition s) = Some (blindPosted (smallBlind cfg) sb))
    by (rewrite postBlind_elsewhere by congruence; exact Hsb1).
  set (s2 := postBlind (bigBlind cfg) (getBigBlindPosition s)
               (postBlind (smallBlind cfg) (getSmallBlindPosition s) s)) in *.
  assert (Hplayers : players s' = players s2) by reflexivity.
  assert (Hpot : pot s' = pot s2) by reflexivity.
  unfold getPlayerByIndex in *. rewrite Hplayers, Hpot.
  repeat split; try assumption; cbn [blindPosted stack]; lia.
Qed.

(** C10.  At [gappedSeats] both blind positions are seat 0: that player
    is charged 1 and then 2 (stack 97, total bet 3, pot 3), the street
    bet is left at 2, and the player of seat 2 posts nothing. *)
Theorem postBlinds_charges_one_player_twice :
  getSmallBlindPosition gappedSeats = 0 /\
  getBigBlindPosition gappedSeats = 0 /\
  players (postBlinds DEFAULT_GAME_CONFIG gappedSeats)
  = [mkPlayer "a" 0 97 2 3 false false; mkPlayer "c" 2 100 0 0 false false] /\
  pot (postBlinds DEFAULT_GAME_CONFIG gappedSeats) = 3.
Proof.
  repeat split.
Qed.

(** *** Valid actions against [applyAction] *)

(** An action type that [getValidActions] does not list is refused. *)
Lemma applyAction_refuses_unlisted fuel cfg s action :
  includes (getValidActions cfg s) (type action) = false ->
  exists error, applyAction fuel cfg s action = Some (Failure error, s).
Proof.
  intros Hno. unfold applyAction.
  destruct (getPlayerById s (playerId action)) as [player|]; [|eauto].
  destruct (negb (seatIndex player =? actionPos s)); [eauto|].
  rewrite Hno. cbn. eauto.
Qed.

(** No bet of a player whose stack is below the big blind is accepted. *)
Lemma applyAction_refuses_short_bet fuel cfg s pid amount player :
  getPlayerById s pid = Some player ->
  stack player < bigBlind cfg ->
  exists error, applyAction fuel cfg s (mkGameAction pid BET amount) = Some (Failure error, s).
Proof.
  intros Hf Hshort. unfold applyAction. cbn [playerId type Types.amount]. rewrite Hf.
  destruct (negb (seatIndex player =? actionPos s)); [eauto|].
  destruct (negb (includes (getValidActions cfg s) BET)); [eauto|].
  unfold handleBet.
  destruct (Z.ltb_spec amount (bigBlind cfg)); [eauto|].
  destruct (Z.gtb_spec amount (stack player)); [eauto|lia].
Qed.

(** C6.  [shortStacked] is reached from the start of a hand by two
    accepted actions; there [getValidActions] offers [BET] to the player
    to act, and [applyAction] refuses the bet whatever its amount. *)
Theorem bet_offered_but_never_accepted :
  play (postBlinds DEFAULT_GAME_CONFIG headsUp)
    [mkGameAction "p1" RAISE 99; mkGameAction "p2" CALL 0]
  = Some (Success, shortStacked) /\
  (street shortStacked = FLOP /\ actionPos shortStacked = 1 /\
   map stack (players shortStacked) = [1; 1]) /\
  getValidActions DEFAULT_GAME_CONFIG shortStacked = [FOLD; CHECK; BET; ALL_IN] /\
  forall fuel amount,
    exists error,
      applyAction fuel DEFAULT_GAME_CONFIG shortStacked (mkGameAction "p2" BET amount)
      = Some (Failure error, shortStacked).
Proof.
  split; [vm_compute; reflexivity|].
  split; [repeat split; vm_compute; reflexivity|].
  split; [vm_compute; reflexivity|].
  intros fuel amount.
  apply applyAction_refuses_short_bet with (player := mkPlayer "p2" 1 1 0 99 false false);
    [vm_compute; reflexivity|cbn; lia].
Qed.

End EngineFacts.

(** ** Card and deck commitments *)

Module CommitFacts.
Import Commit.

Lemma isInfinity_INFINITY : isInfinity INFINITY = true.
Proof. reflexivity. Qed.

(** C7.  [commitCard] of [circom/sdk/poseidon.js] hashes the coordinates
    as they are: for a never-masked card the four [epk]/[pk] inputs are
    0, 1, 0, 1 (the affine identity), not 0, 0, 0, 0. *)
Theorem commitCard_hashes_affine_identity (hash : list Z -> Z) (cardPoint : Point) :
  commitCardInputs (createCard cardPoint)
  = [0; 1; fst cardPoint; snd cardPoint; 0; 1] /\
  commitCard hash (createCard cardPoint)
  = hash [0; 1; fst cardPoint; snd cardPoint; 0; 1] /\
  commitCardInputs (createCard cardPoint)
  <> [0; 0; fst cardPoint; snd cardPoint; 0; 0].
Proof.
  repeat split. discriminate.
Qed.

(** The sibling [commitCard] of [client/src/cards.js] does canonicalise:
    every identity component goes into the hash as (0, 0). *)
Lemma clientCommitCard_canonical (hash : list Z -> Z) (card : Card) :
  let coords (p : Point) := if isInfinity p then (0, 0) else p in
  clientCommitCard hash card
  = hash [fst (coords (epk card)); snd (coords (epk card));
          fst (coords (msg card)); snd (coords (msg card));
          fst (coords (pk card)); snd (coords (pk card))].
Proof.
  unfold clientCommitCard, clientCommitCardInputs. cbn.
  destruct (isInfinity (epk card)), (isInfinity (msg card)), (isInfinity (pk card));
    reflexivity.
Qed.

Lemma clientCommitCard_never_masked (hash : list Z -> Z) (cardPoint : Point) :
  isInfinity cardPoint = false ->
  clientCommitCard hash (createCard cardPoint)
  = hash [0; 0; fst cardPoint; snd cardPoint; 0; 0].
Proof.
  intros H. unfold clientCommitCard, clientCommitCardInputs. cbn. now rewrite H.
Qed.

(** [commitDeck] of [poseidon.js] is the product itself. *)
Lemma commitDeck_deckProduct hash cards :
  commitDeck hash cards = deckProduct (commitCard hash) cards.
Proof.
  unfold commitDeck, deckProduct.
  assert (G : forall acc,
             fold_left (fun product card => product * (commitCard hash card + 1)) cards acc
             = acc * fold_right (fun card a => (commitCard hash card + 1) * a) 1 cards).
  { induction cards as [|c cards IH]; intros acc; cbn; [lia|]. rewrite IH. ring. }
  rewrite G. lia.
Qed.

Lemma deckProduct_perm cardHash cards cards' :
  Permutation cards cards' -> deckProduct cardHash cards = deckProduct cardHash cards'.
Proof.
  unfold deckProduct. induction 1; cbn; try congruence; ring.
Qed.

(** Every variant of the deck commitment is invariant under permutation
    of the deck. *)
Lemma commitDeck_perm hash cards cards' :
  Permutation cards cards' -> commitDeck hash cards = commitDeck hash cards'.
Proof.
  intros H. rewrite !commitDeck_deckProduct. now apply deckProduct_perm.
Qed.

Lemma FIELD_PRIME_pos : 0 < FIELD_PRIME.
Proof. reflexivity. Qed.

Lemma modField_mod a : modField a = a mod FIELD_PRIME.
Proof.
  unfold modField. pose proof FIELD_PRIME_pos as Hp.
  assert (Hr : Z.abs (Z.rem a FIELD_PRIME) < Z.abs FIELD_PRIME)
    by (apply Z.rem_bound_abs; lia).
  rewrite Z.rem_mod_nonneg by lia.
  rewrite (Z.rem_eq a FIELD_PRIME) by lia.
  replace (a - FIELD_PRIME * Z.quot a FIELD_PRIME + FIELD_PRIME)
    with (a + (1 - Z.quot a FIELD_PRIME) * FIELD_PRIME) by ring.
  apply Z_mod_plus_full.
Qed.

(** The sibling loop of [generateShuffleProverToml] gives the product
    reduced modulo the field prime. *)
Lemma shuffleCommitmentAfter_reduced hash cards :
  shuffleCommitmentAfter hash cards
  = deckProduct (commitCard hash) cards mod FIELD_PRIME.
Proof.
  unfold shuffleCommitmentAfter, deckProduct. fold (commitCard hash).
  assert (G : forall acc,
             fold_left (fun c card => modField (c * (hash (commitCardInputs card) + 1)))
               cards (acc mod FIELD_PRIME)
             = (acc * fold_right (fun card a => (commitCard hash card + 1) * a) 1 cards)
               mod FIELD_PRIME).
  { induction cards as [|c cards IH]; intros acc; cbn [fold_left fold_right].
    - now rewrite Z.mul_1_r.
    - rewrite modField_mod, Zmult_mod_idemp_l, IH. f_equal. unfold commitCard. ring. }
  specialize (G 1). rewrite Z.mod_1_l in G by reflexivity.
  rewrite G. f_equal. lia.
Qed.

Lemma shuffleCommitmentAfter_perm hash cards cards' :
  Permutation cards cards' ->
  shuffleCommitmentAfter hash cards = shuffleCommitmentAfter hash cards'.
Proof.
  intros H. rewrite !shuffleCommitmentAfter_reduced. f_equal. now apply deckProduct_perm.
Qed.

(** [commitDeck] of [client/src/cards.js] also reduces, for a hash with
    values in the field. *)
Lemma clientCommitDeck_reduced hash deck :
  (forall inputs, 0 <= hash inputs) ->
  clientCommitDeck hash deck
  = deckProduct (clientDeckCardHash hash) deck mod FIELD_PRIME.
Proof.
  intros Hh. unfold clientCommitDeck, deckProduct. pose proof FIELD_PRIME_pos as Hp.
  assert (Hc : forall c, 0 <= clientDeckCardHash hash c) by (intros; apply Hh).
  assert (G : forall acc, 
             fold_left (fun product card => fieldMul product (clientDeckCardHash hash card + 1))
               deck (acc mod FIELD_PRIME)
             = (acc * fold_right (fun card a => (clientDeckCardHash hash card + 1) * a) 1 deck)
               mod FIELD_PRIME).
  { induction deck as [|c deck IH]; intros acc; cbn [fold_left fold_right].
    - now rewrite Z.mul_1_r.
    - unfold fieldMul at 2. specialize (Hc c).
      pose proof (Z.mod_pos_bound acc FIELD_PRIME Hp).
      rewrite Z.rem_mod_nonneg by nia.
      rewrite Zmult_mod_idemp_l, IH. f_equal. ring. }
  specialize (G 1). rewrite Z.mod_1_l in G by reflexivity.
  rewrite G. f_equal. lia.
Qed.

(** C5.  [commitDeck] of [circom/sdk/poseidon.js] returns the product
    without reducing it: whenever the product reaches the field prime the
    result differs from the product modulo the prime. *)
Theorem commitDeck_is_not_reduced (hash : list Z -> Z) (cards : list Card) :
  FIELD_PRIME <= deckProduct (commitCard hash) cards ->
  commitDeck hash cards = deckProduct (commitCard hash) cards /\
  commitDeck hash cards <> deckProduct (commitCard hash) cards mod FIELD_PRIME.
Proof.
  intros Hbig. rewrite commitDeck_deckProduct. split; [reflexivity|].
  pose proof (Z.mod_pos_bound (deckProduct (commitCard hash) cards) FIELD_PRIME
                FIELD_PRIME_pos).
  lia.
Qed.

Lemma commitDeck_is_not_reduced_witness :
  let hash (inputs : list Z) := 2 ^ 200 + Js.sumZ inputs in
  let deck := [createCard (5, 7); createCard (11, 13)] in
  commitDeck hash deck <> deckProduct (commitCard hash) deck mod FIELD_PRIME.
Proof.
  intros hash deck.
  refine (proj2 (commitDeck_is_not_reduced hash deck _)).
  vm_compute. discriminate.
Defined.

End CommitFacts.

(** ** The hand-rank table and its Merkle tree *)

Module MerkleFacts.
Import HandRankings HandRankingsSpec Merkle.

Section WithHash.

Variable hash : list Z -> Z.

Lemma padLoop_length fuel l :
  List.length (padLoop fuel l) = padLength fuel (List.length l).
Proof.
  revert l. induction fuel as [|fuel IH]; intros l; cbn [padLoop padLength]; [reflexivity|].
  destruct (negb _); [|reflexivity].
  rewrite IH, length_app. cbn. f_equal. lia.
Qed.


Lemma nextLevel_even n :
  forall l, List.length l = (2 * n)%nat ->
            exists next, nextLevel hash l = Some next /\ List.length next = n.
Proof.
  induction n as [|n IH]; intros l Hlen.
  - destruct l; [|discriminate]. exists []. split; reflexivity.
  - destruct l as [|a [|b rest]]; try (cbn in Hlen; lia).
    destruct (IH rest) as (next & E & Hn); [cbn in Hlen; lia|].
    exists (hash2 hash a b :: next). cbn [nextLevel]. rewrite E. cbn. split; [reflexivity|lia].
Qed.

Lemma nextLevel_length l next :
  nextLevel hash l = Some next -> List.length l = (2 * List.length next)%nat.
Proof.
  revert l. induction next as [|h next IH]; intros l.
  - destruct l as [|a [|b rest]]; cbn; try discriminate; [reflexivity|].
    destruct (nextLevel hash rest); discriminate.
  - destruct l as [|a [|b rest]]; cbn [nextLevel]; try discriminate.
    destruct (nextLevel hash rest) as [next'|] eqn:E; [|discriminate].
    cbn. intros [= _ ->]. rewrite (IH rest E). cbn. lia.
Qed.


Lemma buildLevels_power d :
  forall fuel l,
    List.length l = (2 ^ d)%nat -> (d < fuel)%nat ->
    exists above, buildLevels hash fuel l = Some above.
Proof.
  induction d as [|d IH]; intros fuel l Hlen Hfuel.
  - destruct fuel as [|fuel]; [lia|]. cbn [buildLevels]. rewrite Hlen. cbn. eauto.
  - destruct fuel as [|fuel]; [lia|]. cbn [buildLevels].
    assert (Hbig : (1 <? List.length l)%nat = true).
    { apply Nat.ltb_lt. rewrite Hlen. cbn [Nat.pow].
      pose proof (Nat.pow_nonzero 2 d ltac:(lia)). lia. }
    rewrite Hbig.
    destruct (nextLevel_even (2 ^ d) l) as (next & E & Hn);
      [rewrite Hlen; cbn [Nat.pow]; lia|].
    rewrite E. destruct (IH fuel next Hn ltac:(lia)) as [above Ea].
    rewrite Ea. cbn. eauto.
Qed.




End WithHash.





Lemma padLength_Z fuel : forall n,
  Z.of_nat (padLength fuel n) = padLengthZ fuel (Z.of_nat n).
Proof.
  induction fuel as [|fuel IH]; intros n; cbn [padLength padLengthZ]; [reflexivity|].
  destruct (negb (Z.land (Z.of_nat n) (Z.of_nat n - 1) =? 0)); [|reflexivity].
  rewrite IH. f_equal. lia.
Qed.




End MerkleFacts.

(** ** The group law of the curve *)

Module CurveFacts.
Import Curve.

Section Law.
Variable K : Type.
Variables (kO kI : K) (kadd kmul ksub : K -> K -> K) (kopp : K -> K).
Variables (kdiv : K -> K -> K) (kinv : K -> K) (keqb : K -> K -> bool).
Hypothesis Kfth :
  field_theory kO kI kadd kmul ksub kopp kdiv kinv (@eq K).
Hypothesis keqb_spec : forall u v : K, BoolSpec (u = v) (u <> v) (keqb u v).
Variable b : K.

Local Abbreviation slopeC := (Curve.slopeC ksub kdiv).
Local Abbreviation slopeT := (Curve.slopeT kI kadd kmul kdiv).
Local Abbreviation sumx := (Curve.sumx kmul ksub).
Local Abbreviation sumy := (Curve.sumy kmul ksub).
Local Abbreviation onCurve := (Curve.onCurve kadd kmul).
Local Abbreviation neg := (Curve.neg kopp).
Local Abbreviation add := (Curve.add kO kI kadd kmul ksub kdiv keqb).
Local Abbreviation mul := (Curve.mul kO kI kadd kmul ksub kdiv keqb).

Local Notation "0" := kO.
Local Notation "1" := kI.
Local Notation "x + y" := (kadd x y).
Local Notation "x * y" := (kmul x y).
Local Notation "x - y" := (ksub x y).
Local Notation "x / y" := (kdiv x y).
Local Notation "- x" := (kopp x).

Hypothesis two_nz : 1 + 1 <> 0.
Hypothesis no_root : forall u : K, u * u * u + b <> 0.

Add Field Kfield : Kfth.

#[local] Set Default Proof Using "All".

Ltac unf := cbv [Curve.slopeC Curve.slopeT Curve.sumx Curve.sumy].
Ltac nz := repeat split; assumption.
Ltac stage := field_simplify_eq; [ | nz ].

(** *** The field *)

Lemma sub_zero (u v : K) : u - v = 0 -> u = v.
Proof.
  intros E. transitivity (u - v + v); [ring | rewrite E; ring].
Qed.

Lemma zero_sub (u v : K) : u <> v -> v - u <> 0.
Proof.
  intros N E. apply N. symmetry. apply sub_zero. exact E.
Qed.

Lemma mul_zero (u v : K) : u * v = 0 -> u = 0 \/ v = 0.
Proof.
  intros E. destruct (keqb_spec u 0) as [Hu | Hu]; [left; exact Hu | right].
  transitivity (u * v / u); [field; exact Hu | rewrite E; field; exact Hu].
Qed.

Lemma square_roots (u v : K) : u * u = v * v -> u = v \/ u + v = 0.
Proof.
  intros E. destruct (mul_zero (u - v) (u + v)) as [H | H].
  - transitivity (u * u - v * v); [ring | rewrite E; ring].
  - left. apply sub_zero. exact H.
  - right. exact H.
Qed.

Lemma opp_eq (u v : K) : u + v = 0 -> v = - u.
Proof.
  intros E. transitivity (u + v - u); [ring | rewrite E; ring].
Qed.

Lemma double_nz (u : K) : u <> 0 -> u + u <> 0.
Proof.
  intros N E. destruct (mul_zero (1 + 1) u) as [H | H].
  - rewrite <- E. ring.
  - exact (two_nz H).
  - exact (N H).
Qed.

(** A point of the curve has no zero ordinate: the curve has no point of
    order two. *)
Lemma ordinate_nz (x y : K) : y * y = x * x * x + b -> y <> 0.
Proof.
  intros H E. apply (no_root x). rewrite <- H, E. ring.
Qed.

Lemma same_abscissa (x y1 y2 : K) :
  y1 * y1 = x * x * x + b -> y2 * y2 = x * x * x + b ->
  y1 = y2 \/ y1 + y2 = 0.
Proof.
  intros H1 H2. apply square_roots. rewrite H1, H2. reflexivity.
Qed.

(** *** The three cases of an addition *)

Lemma add_opp (x y1 y2 : K) : y1 + y2 = 0 -> add (Aff x y1) (Aff x y2) = Inf.
Proof.
  intros E. cbn. destruct (keqb_spec x x) as [_ | N]; [ | now elim N].
  destruct (keqb_spec (y1 + y2) 0) as [_ | N]; [reflexivity | now elim N].
Qed.

Lemma add_tangent (x y : K) :
  y <> 0 ->
  add (Aff x y) (Aff x y) =
  Aff (sumx (slopeT x y) x x) (sumy (slopeT x y) x y (sumx (slopeT x y) x x)).
Proof.
  intros N. cbn. destruct (keqb_spec x x) as [_ | N']; [ | now elim N'].
  destruct (keqb_spec (y + y) 0) as [E | _]; [ | reflexivity].
  now elim (double_nz y N).
Qed.

Lemma add_chord (x1 y1 x2 y2 : K) :
  x1 <> x2 ->
  add (Aff x1 y1) (Aff x2 y2) =
  Aff (sumx (slopeC x1 y1 x2 y2) x1 x2)
      (sumy (slopeC x1 y1 x2 y2) x1 y1 (sumx (slopeC x1 y1 x2 y2) x1 x2)).
Proof.
  intros N. cbn. destruct (keqb_spec x1 x2) as [E | _]; [now elim N | reflexivity].
Qed.

(** Two points of the curve are opposite, equal, or have distinct
    abscissas. *)
Lemma positions (x1 y1 x2 y2 : K) :
  onCurve b (Aff x1 y1) -> onCurve b (Aff x2 y2) ->
  (x2 = x1 /\ y2 = - y1) \/ (x2 = x1 /\ y2 = y1) \/ x1 <> x2.
Proof.
  cbn. intros H1 H2. destruct (keqb_spec x1 x2) as [E | N].
  - subst x2. destruct (same_abscissa x1 y1 y2 H1 H2) as [E | E].
    + right; left. now split.
    + left. split; [reflexivity | exact (opp_eq _ _ E)].
  - right; right. exact N.
Qed.

Lemma add_Inf_r (P : point K) : add P Inf = P.
Proof. destruct P; reflexivity. Qed.

Lemma add_neg (P : point K) : add P (neg P) = Inf.
Proof.
  destruct P as [ | x y]; [reflexivity | ]. apply add_opp. ring.
Qed.

Lemma neg_neg (P : point K) : neg (neg P) = P.
Proof.
  destruct P as [ | x y]; [reflexivity | ]. cbn. f_equal. ring.
Qed.

Lemma add_neg_l (P : point K) : add (neg P) P = Inf.
Proof.
  rewrite <- (neg_neg P) at 2. apply add_neg.
Qed.

Lemma onCurve_neg (P : point K) : onCurve b P -> onCurve b (neg P).
Proof.
  destruct P as [ | x y]; cbn; [trivial | ]. intros H. rewrite <- H. ring.
Qed.

(** *** Closure *)

Lemma chord_on (x1 y1 x2 y2 : K) :
  y1 * y1 = x1 * x1 * x1 + b -> y2 * y2 = x2 * x2 * x2 + b -> x2 - x1 <> 0 ->
  let l := slopeC x1 y1 x2 y2 in
  let x3 := sumx l x1 x2 in
  let y3 := sumy l x1 y1 x3 in
  y3 * y3 = x3 * x3 * x3 + b.
Proof.
  intros H1 H2 D l x3 y3. subst y3 x3 l. unf. field [H1 H2]. assumption.
Qed.

Lemma tangent_on (x1 y1 : K) :
  y1 * y1 = x1 * x1 * x1 + b -> y1 <> 0 ->
  let l := slopeT x1 y1 in
  let x3 := sumx l x1 x1 in
  let y3 := sumy l x1 y1 x3 in
  y3 * y3 = x3 * x3 * x3 + b.
Proof.
  intros H1 D l x3 y3. subst y3 x3 l. unf. field [H1]. split; assumption.
Qed.

Lemma onCurve_add (P Q : point K) :
  onCurve b P -> onCurve b Q -> onCurve b (add P Q).
Proof.
  destruct P as [ | x1 y1]; [trivial | ].
  destruct Q as [ | x2 y2]; [trivial | ].
  intros H1 H2. destruct (positions x1 y1 x2 y2 H1 H2) as [[-> ->] | [[-> ->] | N]].
  - rewrite add_opp by ring. exact I.
  - rewrite add_tangent by exact (ordinate_nz x1 y1 H1).
    apply tangent_on; [exact H1 | exact (ordinate_nz x1 y1 H1)].
  - rewrite add_chord by exact N.
    apply chord_on; [exact H1 | exact H2 | exact (zero_sub _ _ N)].
Qed.

Lemma onCurve_mul (n : nat) (P : point K) : onCurve b P -> onCurve b (mul n P).
Proof.
  intros H. induction n as [ | n IH]; cbn; [exact I | ].
  apply onCurve_add; assumption.
Qed.

(** *** Commutativity and opposites *)

Lemma add_comm (P Q : point K) :
  onCurve b P -> onCurve b Q -> add P Q = add Q P.
Proof.
  destruct P as [ | x1 y1]; [intros; now rewrite add_Inf_r | ].
  destruct Q as [ | x2 y2]; [reflexivity | ].
  intros H1 H2. destruct (positions x1 y1 x2 y2 H1 H2) as [[-> ->] | [[-> ->] | N]].
  - rewrite !add_opp by ring. reflexivity.
  - reflexivity.
  - rewrite (add_chord x1 y1 x2 y2) by exact N.
    rewrite (add_chord x2 y2 x1 y1) by (intro E; now elim N).
    pose proof (zero_sub _ _ N) as D.
    assert (D' : x1 - x2 <> 0) by (apply zero_sub; intro E; now elim N).
    assert (El : slopeC x2 y2 x1 y1 = slopeC x1 y1 x2 y2) by (unf; field; nz).
    rewrite El. f_equal; unf; field; nz.
Qed.

Lemma neg_add (P Q : point K) :
  onCurve b P -> onCurve b Q -> neg (add P Q) = add (neg P) (neg Q).
Proof.
  destruct P as [ | x1 y1]; [reflexivity | ].
  destruct Q as [ | x2 y2]; [reflexivity | ].
  intros H1 H2. destruct (positions x1 y1 x2 y2 H1 H2) as [[-> ->] | [[-> ->] | N]].
  - cbn [neg]. rewrite !add_opp by ring. reflexivity.
  - pose proof (ordinate_nz x1 y1 H1) as Y.
    assert (Y' : - y1 <> 0)
      by (intro E; apply Y; transitivity (- - y1); [ring | rewrite E; ring]).
    cbn [neg]. rewrite (add_tangent x1 y1 Y), (add_tangent x1 (- y1) Y'). cbn [neg].
    f_equal; unf; field; nz.
  - pose proof (zero_sub _ _ N) as D.
    cbn [neg]. rewrite !add_chord by exact N. cbn [neg].
    f_equal; unf; field; nz.
Qed.

(** *** Subtracting what was added *)

Lemma opp_inj (u v : K) : - u = - v -> u = v.
Proof.
  intros E. transitivity (- - u); [ring | rewrite E; ring].
Qed.

Lemma self_opposite (u : K) : u <> 0 -> u <> - u.
Proof.
  intros N E. apply (double_nz u N). rewrite E at 2. ring.
Qed.

(** The chord through [P] and [Q], read from the opposite of their sum. *)
Lemma chord_back (x1 y1 x2 y2 : K) :
  y1 * y1 = x1 * x1 * x1 + b -> y2 * y2 = x2 * x2 * x2 + b -> x1 <> x2 ->
  let l := slopeC x1 y1 x2 y2 in
  let x4 := sumx l x1 x2 in
  let y4 := sumy l x1 y1 x4 in
  add (Aff x4 y4) (Aff x2 (- y2)) = Aff x1 y1.
Proof.
  intros H1 H2 N l x4 y4.
  pose proof (zero_sub _ _ N) as D.
  assert (H4 : onCurve b (Aff x4 y4)) by (apply chord_on; assumption).
  pose proof (onCurve_neg (Aff x2 y2) H2) as H2'.
  pose proof (ordinate_nz x2 y2 H2) as Y2.
  assert (Ey : x4 = x2 -> y4 = - y2).
  { intros E. subst y4. rewrite E. subst l. unf. field. exact D. }
  assert (Et : (1 + 1 + 1) * x2 * x2 - (1 + 1) * l * y2 = (x2 - x1) * (x2 - x4)).
  { subst x4 l. unf. field [H1 H2]. exact D. }
  destruct (positions x4 y4 x2 (- y2) H4 H2') as [[E1 E2] | [[E1 E2] | N']].
  - exfalso. apply (self_opposite y2 Y2).
    transitivity y4; [apply opp_inj; exact E2 | exact (Ey (eq_sym E1))].
  - assert (Y2' : - y2 <> 0)
      by (intro E; apply Y2; transitivity (- - y2); [ring | rewrite E; ring]).
    rewrite <- E1, <- E2. rewrite add_tangent by exact Y2'.
    assert (El : slopeT x2 (- y2) = - l).
    { unfold Curve.slopeT. replace ((1 + 1 + 1) * x2 * x2) with ((1 + 1) * l * y2).
      - field. split; assumption.
      - apply sub_zero. transitivity (- ((x2 - x1) * (x2 - x4))).
        + rewrite <- Et. ring.
        + rewrite <- E1. ring. }
    rewrite El. f_equal.
    + transitivity (x1 + (x4 - x2)); [subst x4; unf; ring | rewrite <- E1; ring].
    + transitivity (y1 + l * (x4 - x2)).
      * subst x4 l. unf. field. exact D.
      * rewrite <- E1. ring.
  - pose proof (zero_sub _ _ N') as D'.
    rewrite add_chord by exact N'.
    assert (El : slopeC x4 y4 x2 (- y2) = - l).
    { subst y4. unfold Curve.slopeC at 1, Curve.sumy. subst l. unfold Curve.slopeC. field. nz. }
    rewrite El. f_equal.
    + subst x4. unf. ring.
    + subst y4 x4. unf. ring.
Qed.

(** The tangent at [P], read from the opposite of the double. *)
Lemma tangent_back (x1 y1 : K) :
  y1 * y1 = x1 * x1 * x1 + b ->
  let l := slopeT x1 y1 in
  let x4 := sumx l x1 x1 in
  let y4 := sumy l x1 y1 x4 in
  add (Aff x4 y4) (Aff x1 (- y1)) = Aff x1 y1.
Proof.
  intros H1 l x4 y4.
  pose proof (ordinate_nz x1 y1 H1) as Y1.
  assert (H4 : onCurve b (Aff x4 y4)) by (apply tangent_on; assumption).
  pose proof (onCurve_neg (Aff x1 y1) H1) as H1'.
  assert (Ey : x4 = x1 -> y4 = - y1).
  { intros E. subst y4. rewrite E. unf. ring. }
  destruct (positions x4 y4 x1 (- y1) H4 H1') as [[E1 E2] | [[E1 E2] | N']].
  - exfalso. apply (self_opposite y1 Y1).
    transitivity y4; [apply opp_inj; exact E2 | exact (Ey (eq_sym E1))].
  - assert (Y1' : - y1 <> 0)
      by (intro E; apply Y1; transitivity (- - y1); [ring | rewrite E; ring]).
    rewrite <- E1, <- E2. rewrite add_tangent by exact Y1'.
    assert (El : slopeT x1 (- y1) = - l) by (subst l; unf; field; nz).
    rewrite El. f_equal.
    + transitivity x4; [subst x4; unf; ring | symmetry; exact E1].
    + transitivity (y1 + l * (x4 - x1)); [subst x4; unf; ring | rewrite <- E1; ring].
  - pose proof (zero_sub _ _ N') as D'.
    rewrite add_chord by exact N'.
    assert (El : slopeC x4 y4 x1 (- y1) = - l).
    { subst y4. unfold Curve.slopeC, Curve.sumy. field. exact D'. }
    rewrite El. f_equal.
    + subst x4. unf. ring.
    + subst y4 x4. unf. ring.
Qed.

Lemma add_sub (P Q : point K) :
  onCurve b P -> onCurve b Q -> add (add P Q) (neg Q) = P.
Proof.
  destruct P as [ | x1 y1]; [intros; apply add_neg | ].
  destruct Q as [ | x2 y2]; [reflexivity | ].
  intros H1 H2. destruct (positions x1 y1 x2 y2 H1 H2) as [[-> ->] | [[-> ->] | N]].
  - rewrite add_opp by ring. cbn. f_equal. ring.
  - rewrite add_tangent by exact (ordinate_nz x1 y1 H1).
    apply tangent_back. exact H1.
  - rewrite add_chord by exact N. apply chord_back; assumption.
Qed.

Lemma add_cancel_l (P Q R : point K) :
  onCurve b P -> onCurve b Q -> onCurve b R ->
  add P Q = add P R -> Q = R.
Proof.
  intros HP HQ HR E.
  rewrite <- (add_sub Q P HQ HP), <- (add_sub R P HR HP).
  rewrite (add_comm Q P HQ HP), (add_comm R P HR HP), E. reflexivity.
Qed.

Lemma add_sub_l (P R : point K) :
  onCurve b P -> onCurve b R -> add P (add (neg P) R) = R.
Proof.
  intros HP HR. pose proof (onCurve_neg P HP) as HN.
  rewrite (add_comm P) by (try apply onCurve_add; assumption).
  rewrite (add_comm (neg P) R) by assumption.
  rewrite <- (neg_neg P) at 2. apply add_sub; assumption.
Qed.

(** What cancels a sum. *)
Lemma add_Inf_inv (P Q : point K) :
  onCurve b P -> onCurve b Q -> add P Q = Inf -> Q = neg P.
Proof.
  intros HP HQ E. apply (add_cancel_l P); try assumption.
  - apply onCurve_neg; exact HP.
  - rewrite add_neg. exact E.
Qed.

Lemma assoc_cancelled (P Q : point K) :
  onCurve b P -> onCurve b Q -> add P (add Q (neg (add P Q))) = Inf.
Proof.
  intros HP HQ.
  pose proof (onCurve_neg P HP) as HP'. pose proof (onCurve_neg Q HQ) as HQ'.
  rewrite (neg_add P Q HP HQ).
  rewrite (add_comm Q) by (try apply onCurve_add; assumption).
  rewrite <- (neg_neg Q) at 2. rewrite (add_sub (neg P) (neg Q) HP' HQ').
  apply add_neg.
Qed.

Lemma assoc_cancelling (P Q R : point K) :
  onCurve b P -> onCurve b Q -> onCurve b R ->
  add Q R = neg P -> add (add P Q) R = Inf.
Proof.
  intros HP HQ HR E.
  pose proof (onCurve_neg Q HQ) as HQ'. pose proof (onCurve_neg R HR) as HR'.
  assert (EP : P = add (neg R) (neg Q)).
  { rewrite <- (neg_neg P), <- E, (neg_add Q R HQ HR).
    apply add_comm; assumption. }
  rewrite EP. rewrite <- (neg_neg Q) at 2.
  rewrite (add_sub (neg R) (neg Q) HR' HQ'). apply add_neg_l.
Qed.

(** *** Associativity: the four identities between coordinates

    Each one compares [(P + Q) + R] with [P + (Q + R)] where every sum is
    taken along a chord or a tangent.  The denominators are cleared sum by
    sum, from the outermost inwards, and the equations of the intermediate
    points keep the polynomials small. *)


Ltac by_zero E :=
  match type of E with
  | ?e = _ => first [ transitivity e; [ring | exact E]
                    | transitivity (- e); [ring | rewrite E; ring] ]
  end.

Ltac side D :=
  let E := fresh "E" in
  intro E; apply D; unf; field_simplify_eq; [ by_zero E | nz ].

Ltac sides :=
  repeat split; try assumption;
  match goal with D : _ <> 0 |- _ <> 0 => solve [side D] end.

(** Chord, chord, chord, chord. *)
Lemma assoc_cccc (x1 y1 x2 y2 x3 y3 : K) :
  y1 * y1 = x1 * x1 * x1 + b -> y2 * y2 = x2 * x2 * x2 + b ->
  y3 * y3 = x3 * x3 * x3 + b ->
  x2 - x1 <> 0 -> x3 - x2 <> 0 ->
  let l1 := slopeC x1 y1 x2 y2 in
  let x4 := sumx l1 x1 x2 in
  let y4 := sumy l1 x1 y1 x4 in
  let l3 := slopeC x2 y2 x3 y3 in
  let x6 := sumx l3 x2 x3 in
  let y6 := sumy l3 x2 y2 x6 in
  x3 - x4 <> 0 -> x6 - x1 <> 0 ->
  let l2 := slopeC x4 y4 x3 y3 in
  let x5 := sumx l2 x4 x3 in
  let y5 := sumy l2 x4 y4 x5 in
  let l4 := slopeC x1 y1 x6 y6 in
  let x7 := sumx l4 x1 x6 in
  let y7 := sumy l4 x1 y1 x7 in
  Aff x5 y5 = Aff x7 y7.
Proof.
  intros H1 H2 H3 D1 D2 l1 x4 y4 l3 x6 y6 D3 D4 l2 x5 y5 l4 x7 y7.
  subst y7 x7 l4 y5 x5 l2 y6 x6 l3 y4 x4 l1. unf.
  f_equal; field [H1 H2 H3]; sides.
Qed.

(** Tangent, chord, chord, chord: [2P + R = P + (P + R)]. *)
Lemma assoc_tccc (x1 y1 x3 y3 : K) :
  y1 * y1 = x1 * x1 * x1 + b -> y3 * y3 = x3 * x3 * x3 + b ->
  y1 <> 0 -> x3 - x1 <> 0 ->
  let l1 := slopeT x1 y1 in
  let x4 := sumx l1 x1 x1 in
  let y4 := sumy l1 x1 y1 x4 in
  let l3 := slopeC x1 y1 x3 y3 in
  let x6 := sumx l3 x1 x3 in
  let y6 := sumy l3 x1 y1 x6 in
  x3 - x4 <> 0 -> x6 - x1 <> 0 ->
  let l2 := slopeC x4 y4 x3 y3 in
  let x5 := sumx l2 x4 x3 in
  let y5 := sumy l2 x4 y4 x5 in
  let l4 := slopeC x1 y1 x6 y6 in
  let x7 := sumx l4 x1 x6 in
  let y7 := sumy l4 x1 y1 x7 in
  Aff x5 y5 = Aff x7 y7.
Proof.
  intros H1 H3 Y1 D2 l1 x4 y4 l3 x6 y6 D3 D4 l2 x5 y5 l4 x7 y7.
  subst y7 x7 l4 y5 x5 l2 y6 x6 l3 y4 x4 l1. unf.
  f_equal; field [H1 H3]; sides.
Qed.

(** Tangent, chord, tangent, chord: [2(2P) = P + (P + 2P)]. *)
Lemma assoc_tctc (x1 y1 : K) :
  y1 * y1 = x1 * x1 * x1 + b ->
  y1 <> 0 ->
  let l1 := slopeT x1 y1 in
  let x4 := sumx l1 x1 x1 in
  let y4 := sumy l1 x1 y1 x4 in
  x4 - x1 <> 0 -> y4 <> 0 ->
  let l3 := slopeC x1 y1 x4 y4 in
  let x6 := sumx l3 x1 x4 in
  let y6 := sumy l3 x1 y1 x6 in
  x6 - x1 <> 0 ->
  let l2 := slopeT x4 y4 in
  let x5 := sumx l2 x4 x4 in
  let y5 := sumy l2 x4 y4 x5 in
  let l4 := slopeC x1 y1 x6 y6 in
  let x7 := sumx l4 x1 x6 in
  let y7 := sumy l4 x1 y1 x7 in
  Aff x5 y5 = Aff x7 y7.
Proof.
  intros H1 Y1 l1 x4 y4 D2 Y4 l3 x6 y6 D4 l2 x5 y5 l4 x7 y7.
  assert (H4 : y4 * y4 = x4 * x4 * x4 + b) by (apply tangent_on; assumption).
  assert (H6 : y6 * y6 = x6 * x6 * x6 + b) by (apply chord_on; assumption).
  assert (Hx : x5 = x7).
  { subst y7 x7 l4 y5 x5 l2. unf.
    field_simplify_eq [H1 H4 H6]; [ | nz ].
    clear H6. subst y6 x6 l3. unf.
    field_simplify_eq [H1 H4]; [ | nz ].
    clear H4. subst y4 x4 l1. unf.
    field [H1]. nz. }
  f_equal; [exact Hx | ].
  subst y7 y5. rewrite <- Hx. subst x7 x5 l4 l2. unf.
  field_simplify_eq [H1 H4 H6]; [ | nz ].
  clear H6. subst y6 x6 l3. unf.
  field_simplify_eq [H1 H4]; [ | nz ].
  clear H4. subst y4 x4 l1. unf.
  field [H1]. nz.
Qed.

(** Chord, chord, tangent, chord: [2(P + Q) = P + (Q + (P + Q))]. *)
Lemma assoc_cctc (x1 y1 x2 y2 : K) :
  y1 * y1 = x1 * x1 * x1 + b -> y2 * y2 = x2 * x2 * x2 + b ->
  x2 - x1 <> 0 ->
  let l1 := slopeC x1 y1 x2 y2 in
  let x4 := sumx l1 x1 x2 in
  let y4 := sumy l1 x1 y1 x4 in
  x4 - x2 <> 0 -> y4 <> 0 ->
  let l3 := slopeC x2 y2 x4 y4 in
  let x6 := sumx l3 x2 x4 in
  let y6 := sumy l3 x2 y2 x6 in
  x6 - x1 <> 0 ->
  let l2 := slopeT x4 y4 in
  let x5 := sumx l2 x4 x4 in
  let y5 := sumy l2 x4 y4 x5 in
  let l4 := slopeC x1 y1 x6 y6 in
  let x7 := sumx l4 x1 x6 in
  let y7 := sumy l4 x1 y1 x7 in
  Aff x5 y5 = Aff x7 y7.
Proof.
  intros H1 H2 D1 l1 x4 y4 D2 Y4 l3 x6 y6 D4 l2 x5 y5 l4 x7 y7.
  assert (H4 : y4 * y4 = x4 * x4 * x4 + b) by (apply chord_on; assumption).
  assert (H6 : y6 * y6 = x6 * x6 * x6 + b) by (apply chord_on; assumption).
  assert (Hx : x5 = x7).
  { subst y7 x7 l4 y5 x5 l2. unf.
    field_simplify_eq [H1 H4 H6]; [ | nz ].
    clear H6. subst y6 x6 l3. unf.
    field_simplify_eq [H1 H2 H4]; [ | nz ].
    clear H4. subst y4 x4 l1. unf.
    field [H1 H2]. nz. }
  f_equal; [exact Hx | ].
  subst y7 y5. rewrite <- Hx. subst x7 x5 l4 l2. unf.
  field_simplify_eq [H1 H4 H6]; [ | nz ].
  clear H6. subst y6 x6 l3. unf.
  field_simplify_eq [H1 H2 H4]; [ | nz ].
  clear H4. subst y4 x4 l1. unf.
  field [H1 H2]. nz.
Qed.

(** *** Associativity: the sums as points *)

Lemma ordinate_opp_nz (x y : K) : y * y = x * x * x + b -> - y <> 0.
Proof.
  intros H E. apply (ordinate_nz x y H).
  transitivity (- - y); [ring | rewrite E; ring].
Qed.

Lemma sum_cccc (x1 y1 x2 y2 x3 y3 x4 y4 x6 y6 : K) :
  onCurve b (Aff x1 y1) -> onCurve b (Aff x2 y2) -> onCurve b (Aff x3 y3) ->
  x1 <> x2 -> x2 <> x3 ->
  add (Aff x1 y1) (Aff x2 y2) = Aff x4 y4 ->
  add (Aff x2 y2) (Aff x3 y3) = Aff x6 y6 ->
  x4 <> x3 -> x1 <> x6 ->
  add (Aff x4 y4) (Aff x3 y3) = add (Aff x1 y1) (Aff x6 y6).
Proof.
  intros H1 H2 H3 N12 N23 ES ET N43 N16.
  rewrite add_chord in ES, ET by assumption.
  injection ES as <- <-. injection ET as <- <-.
  rewrite !add_chord by assumption.
  apply assoc_cccc; auto using zero_sub.
Qed.

Lemma sum_tccc (x1 y1 x3 y3 x4 y4 x6 y6 : K) :
  onCurve b (Aff x1 y1) -> onCurve b (Aff x3 y3) ->
  x1 <> x3 ->
  add (Aff x1 y1) (Aff x1 y1) = Aff x4 y4 ->
  add (Aff x1 y1) (Aff x3 y3) = Aff x6 y6 ->
  x4 <> x3 -> x1 <> x6 ->
  add (Aff x4 y4) (Aff x3 y3) = add (Aff x1 y1) (Aff x6 y6).
Proof.
  intros H1 H3 N13 ES ET N43 N16.
  pose proof (ordinate_nz x1 y1 H1) as Y1.
  rewrite add_tangent in ES by assumption. rewrite add_chord in ET by assumption.
  injection ES as <- <-. injection ET as <- <-.
  rewrite !add_chord by assumption.
  apply assoc_tccc; auto using zero_sub.
Qed.

Lemma sum_tctc (x1 y1 x4 y4 x6 y6 : K) :
  onCurve b (Aff x1 y1) ->
  add (Aff x1 y1) (Aff x1 y1) = Aff x4 y4 ->
  x1 <> x4 ->
  add (Aff x1 y1) (Aff x4 y4) = Aff x6 y6 ->
  x1 <> x6 ->
  add (Aff x4 y4) (Aff x4 y4) = add (Aff x1 y1) (Aff x6 y6).
Proof.
  intros H1 ES N14 ET N16.
  pose proof (ordinate_nz x1 y1 H1) as Y1.
  assert (H4 : onCurve b (Aff x4 y4)) by (rewrite <- ES; now apply onCurve_add).
  pose proof (ordinate_nz x4 y4 H4) as Y4.
  rewrite add_tangent by assumption. clear H4.
  rewrite add_tangent in ES by assumption. rewrite add_chord in ET by assumption.
  injection ES as E4x E4y. subst x4 y4. injection ET as <- <-.
  rewrite add_chord by assumption.
  apply assoc_tctc; auto using zero_sub.
Qed.

Lemma sum_cctc (x1 y1 x2 y2 x4 y4 x6 y6 : K) :
  onCurve b (Aff x1 y1) -> onCurve b (Aff x2 y2) ->
  x1 <> x2 ->
  add (Aff x1 y1) (Aff x2 y2) = Aff x4 y4 ->
  x2 <> x4 ->
  add (Aff x2 y2) (Aff x4 y4) = Aff x6 y6 ->
  x1 <> x6 ->
  add (Aff x4 y4) (Aff x4 y4) = add (Aff x1 y1) (Aff x6 y6).
Proof.
  intros H1 H2 N12 ES N24 ET N16.
  assert (H4 : onCurve b (Aff x4 y4)) by (rewrite <- ES; now apply onCurve_add).
  pose proof (ordinate_nz x4 y4 H4) as Y4.
  rewrite add_tangent by assumption. clear H4.
  rewrite add_chord in ES by assumption. rewrite add_chord in ET by assumption.
  injection ES as E4x E4y. subst x4 y4. injection ET as <- <-.
  rewrite add_chord by assumption.
  apply assoc_cctc; auto using zero_sub.
Qed.

(** A sum that is a point of the curve is not the sum of opposites. *)
Lemma not_opposite (x y x' y' : K) :
  add (Aff x y) (Aff x (- y)) = Aff x' y' -> False.
Proof.
  rewrite add_opp by ring. discriminate.
Qed.

Lemma add_fixed (P : point K) (x y : K) :
  onCurve b P -> onCurve b (Aff x y) -> add P (Aff x y) = P -> False.
Proof.
  intros HP HQ E.
  assert (E' : Aff x y = Inf).
  { apply (add_cancel_l P); try assumption; [exact I | ].
    rewrite add_Inf_r. exact E. }
  discriminate E'.
Qed.

(** *** Associativity *)

Lemma add_assoc_eq_double (P R S T U V : point K) :
  onCurve b P -> onCurve b R ->
  add P P = S -> add P R = T -> add S R = U -> add P T = V -> U = V.
Proof.
  intros HP HR ES ET EU EV.
  assert (HS : onCurve b S) by (rewrite <- ES; now apply onCurve_add).
  assert (HT : onCurve b T) by (rewrite <- ET; now apply onCurve_add).
  destruct P as [ | x1 y1].
  { cbn in ES, ET, EV. subst S T. cbn in EU. congruence. }
  destruct R as [ | x3 y3].
  { rewrite add_Inf_r in ET, EU. congruence. }
  destruct T as [ | x6 y6].
  { apply add_Inf_inv in ET; try assumption. rewrite add_Inf_r in EV.
    rewrite <- EU, <- EV, <- ES, ET. apply add_sub; assumption. }
  destruct U as [ | x5 y5].
  { apply add_Inf_inv in EU; try assumption.
    rewrite <- EV, <- ET, EU, <- ES. symmetry. apply assoc_cancelled; assumption. }
  destruct V as [ | x7 y7].
  { apply add_Inf_inv in EV; try assumption.
    rewrite <- EU, <- ES. apply assoc_cancelling; try assumption.
    rewrite ET. exact EV. }
  destruct S as [ | x4 y4].
  { rewrite add_tangent in ES by exact (ordinate_nz x1 y1 HP). discriminate ES. }
  rewrite <- EU, <- EV.
  destruct (positions x1 y1 x3 y3 HP HR) as [[-> ->] | [[-> ->] | N13]].
  - elim (not_opposite _ _ _ _ ET).
  - rewrite ES in ET. injection ET as <- <-. apply add_comm; assumption.
  - destruct (positions x4 y4 x3 y3 HS HR) as [[-> ->] | [[-> ->] | N43]].
    + elim (not_opposite _ _ _ _ EU).
    + destruct (positions x1 y1 x6 y6 HP HT) as [[-> ->] | [[-> ->] | N16]].
      * elim (not_opposite _ _ _ _ EV).
      * elim (add_fixed (Aff x1 y1) x4 y4 HP HS ET).
      * exact (sum_tctc x1 y1 x4 y4 x6 y6 HP ES N13 ET N16).
    + destruct (positions x1 y1 x6 y6 HP HT) as [[-> ->] | [[-> ->] | N16]].
      * elim (not_opposite _ _ _ _ EV).
      * elim (add_fixed (Aff x1 y1) x3 y3 HP HR ET).
      * exact (sum_tccc x1 y1 x3 y3 x4 y4 x6 y6 HP HR N13 ES ET N43 N16).
Qed.

Lemma add_assoc_double (P R : point K) :
  onCurve b P -> onCurve b R -> add (add P P) R = add P (add P R).
Proof.
  intros HP HR. now apply (add_assoc_eq_double P R (add P P) (add P R)).
Qed.

Lemma add_assoc_eq (P Q R S T U V : point K) :
  onCurve b P -> onCurve b Q -> onCurve b R ->
  add P Q = S -> add Q R = T -> add S R = U -> add P T = V -> U = V.
Proof.
  intros HP HQ HR ES ET EU EV.
  assert (HS : onCurve b S) by (rewrite <- ES; now apply onCurve_add).
  assert (HT : onCurve b T) by (rewrite <- ET; now apply onCurve_add).
  destruct P as [ | x1 y1].
  { cbn in ES, EV. congruence. }
  destruct Q as [ | x2 y2].
  { rewrite add_Inf_r in ES. cbn in ET. congruence. }
  destruct R as [ | x3 y3].
  { rewrite add_Inf_r in ET, EU. congruence. }
  destruct S as [ | x4 y4].
  { apply add_Inf_inv in ES; try assumption. cbn in EU.
    rewrite <- EV, <- ET, <- EU, ES. symmetry. apply add_sub_l; assumption. }
  destruct T as [ | x6 y6].
  { apply add_Inf_inv in ET; try assumption. rewrite add_Inf_r in EV.
    rewrite <- EU, <- EV, <- ES, ET. apply add_sub; assumption. }
  destruct U as [ | x5 y5].
  { apply add_Inf_inv in EU; try assumption.
    rewrite <- EV, <- ET, EU, <- ES. symmetry. apply assoc_cancelled; assumption. }
  destruct V as [ | x7 y7].
  { apply add_Inf_inv in EV; try assumption.
    rewrite <- EU, <- ES. apply assoc_cancelling; try assumption.
    rewrite ET. exact EV. }
  rewrite <- EU, <- EV.
  destruct (positions x1 y1 x2 y2 HP HQ) as [[-> ->] | [[-> ->] | N12]].
  - elim (not_opposite _ _ _ _ ES).
  - rewrite <- ES, <- ET. apply add_assoc_double; assumption.
  - destruct (positions x2 y2 x3 y3 HQ HR) as [[-> ->] | [[-> ->] | N23]].
    + elim (not_opposite _ _ _ _ ET).
    + rewrite <- ES, <- ET.
      rewrite (add_comm (Aff x1 y1) (add (Aff x2 y2) (Aff x2 y2)))
        by (try apply onCurve_add; assumption).
      rewrite (add_assoc_double (Aff x2 y2) (Aff x1 y1) HQ HP).
      rewrite (add_comm (Aff x2 y2) (Aff x1 y1) HQ HP).
      apply add_comm; try apply onCurve_add; assumption.
    + destruct (positions x4 y4 x3 y3 HS HR) as [[-> ->] | [[-> ->] | N43]].
      * elim (not_opposite _ _ _ _ EU).
      * destruct (positions x1 y1 x6 y6 HP HT) as [[-> ->] | [[-> ->] | N16]].
        -- elim (not_opposite _ _ _ _ EV).
        -- exfalso. apply (self_opposite y2 (ordinate_nz x2 y2 HQ)).
           assert (E : Aff x2 (- y2) = Aff x2 y2).
           { apply (add_cancel_l (Aff x1 y1)); try assumption.
             - apply (onCurve_neg (Aff x2 y2) HQ).
             - rewrite <- ET at 1. rewrite (add_comm (Aff x2 y2) (Aff x4 y4) HQ HS).
               change (Aff x2 (- y2)) with (neg (Aff x2 y2)).
               rewrite (add_sub _ _ HS HQ). symmetry. exact ES. }
           injection E as E. symmetry. exact E.
        -- exact (sum_cctc x1 y1 x2 y2 x4 y4 x6 y6 HP HQ N12 ES N23 ET N16).
      * destruct (positions x1 y1 x6 y6 HP HT) as [[-> ->] | [[-> ->] | N16]].
        -- elim (not_opposite _ _ _ _ EV).
        -- assert (ET' : add (Aff x3 y3) (Aff x2 y2) = Aff x1 y1)
             by (rewrite (add_comm _ _ HR HQ); exact ET).
           assert (ES' : add (Aff x2 y2) (Aff x1 y1) = Aff x4 y4)
             by (rewrite (add_comm _ _ HQ HP); exact ES).
           assert (N32 : x3 <> x2) by (intro E; now elim N23).
           assert (N21 : x2 <> x1) by (intro E; now elim N12).
           assert (N34 : x3 <> x4) by (intro E; now elim N43).
           rewrite (add_comm (Aff x4 y4) (Aff x3 y3) HS HR). symmetry.
           exact (sum_cctc x3 y3 x2 y2 x1 y1 x4 y4 HR HQ N32 ET' N21 ES' N34).
        -- exact (sum_cccc x1 y1 x2 y2 x3 y3 x4 y4 x6 y6 HP HQ HR N12 N23 ES ET N43 N16).
Qed.

Theorem add_assoc (P Q R : point K) :
  onCurve b P -> onCurve b Q -> onCurve b R ->
  add (add P Q) R = add P (add Q R).
Proof.
  intros HP HQ HR. now apply (add_assoc_eq P Q R (add P Q) (add Q R)).
Qed.

(** *** Multiples *)

Lemma mul_Inf (n : nat) : mul n Inf = Inf.
Proof.
  induction n as [ | n IH]; [reflexivity | ]. cbn [Curve.mul]. rewrite IH. reflexivity.
Qed.

Lemma mul_plus (n m : nat) (P : point K) :
  onCurve b P -> mul (n + m) P = add (mul n P) (mul m P).
Proof.
  intros HP. induction n as [ | n IH]; [reflexivity | ].
  cbn [Nat.add Curve.mul]. rewrite IH.
  symmetry. apply add_assoc; try apply onCurve_mul; assumption.
Qed.

Lemma mul_times (n m : nat) (P : point K) :
  onCurve b P -> mul n (mul m P) = mul (n * m) P.
Proof.
  intros HP. induction n as [ | n IH]; [reflexivity | ].
  cbn [Nat.mul Curve.mul]. rewrite IH. symmetry. apply mul_plus. exact HP.
Qed.

Lemma mul_double (n : nat) (P : point K) :
  onCurve b P -> mul n (add P P) = mul (2 * n) P.
Proof.
  intros HP. replace (add P P) with (mul 2 P).
  - rewrite mul_times by exact HP. f_equal. apply Nat.mul_comm.
  - cbn [Curve.mul]. rewrite add_Inf_r. reflexivity.
Qed.

(** *** Rearrangements used by the ElGamal operations *)



End Law.

End CurveFacts.

(** ** Primality certificates are sound *)

Module PrimalityFacts.
Import Primality.

Lemma noDivisors_spec (n d : Z) (fuel : nat) :
  noDivisors n d fuel = true ->
  forall k, d <= k < d + Z.of_nat fuel -> n mod k <> 0.
Proof.
  revert d. induction fuel as [ | fuel IH]; intros d H k Hk; [lia | ].
  cbn [noDivisors] in H. apply andb_prop in H. destruct H as [H1 H2].
  destruct (Z.eq_dec k d) as [-> | N].
  - apply negb_true_iff in H1. apply Z.eqb_neq in H1. exact H1.
  - apply (IH (d + 1) H2). lia.
Qed.

Lemma trialPrime_sound (n : Z) : trialPrime n = true -> Z.prime n.
Proof.
  unfold trialPrime. intros H. apply andb_prop in H. destruct H as [H1 H2].
  apply Z.ltb_lt in H1. split; [exact H1 | ].
  intros m Hm [k Hk].
  pose proof (Z.sqrt_spec n ltac:(lia)) as Hs. cbv zeta in Hs.
  pose proof (Z.sqrt_nonneg n) as Hs0.
  assert (Hk1 : 1 < k) by nia.
  assert (Hdiv : forall j, 2 <= j <= Z.sqrt n -> n mod j <> 0).
  { intros j Hj. apply (noDivisors_spec n 2 _ H2). lia. }
  destruct (Z_le_gt_dec m (Z.sqrt n)) as [L | G].
  - apply (Hdiv m); [lia | ]. subst n. apply Z.mod_mul. lia.
  - assert (k <= Z.sqrt n) by nia.
    apply (Hdiv k); [lia | ]. subst n. rewrite Z.mul_comm. apply Z.mod_mul. lia.
Qed.

(** Every number above one has a prime divisor. *)
Lemma prime_divisor (n : Z) : 1 < n -> exists r, Z.prime r /\ (r | n).
Proof.
  intros Hn. assert (H0 : 0 <= n) by lia. revert Hn.
  pattern n. apply (Zlt_0_ind); [ | exact H0]. clear n H0.
  intros n IH _ Hn.
  destruct (prime_dec n) as [P | NP].
  - exists n. split; [apply prime_alt; exact P | apply Z.divide_refl].
  - destruct (not_prime_divide n Hn NP) as [m [Hm Hd]].
    destruct (IH m ltac:(lia) ltac:(lia)) as [r [Hr Hrm]].
    exists r. split; [exact Hr | ]. apply (Z.divide_trans _ m); assumption.
Qed.

Lemma factor_divides (qs : list (Z * Z)) (qe : Z * Z) :
  In qe qs -> (fst qe ^ snd qe | factorProduct qs).
Proof.
  induction qs as [ | qe' qs IH]; cbn; [tauto | ].
  intros [-> | H].
  - apply Z.divide_factor_l.
  - apply Z.divide_mul_r. exact (IH H).
Qed.

Lemma factorProduct_divides (qs : list (Z * Z)) (m : Z) :
  coprimeFactors qs = true ->
  (forall qe, In qe qs -> (fst qe ^ snd qe | m)) ->
  (factorProduct qs | m).
Proof.
  induction qs as [ | qe qs IH]; cbn [coprimeFactors factorProduct fold_right].
  - intros _ _. apply Z.divide_1_l.
  - intros H Hall. apply andb_prop in H. destruct H as [Hc Hrest].
    apply Z.eqb_eq in Hc.
    assert (H1 : (fst qe ^ snd qe | m)) by (apply Hall; now left).
    assert (H2 : (factorProduct qs | m)).
    { apply IH; [exact Hrest | ]. intros qe' Hin. apply Hall. now right. }
    destruct H1 as [k ->].
    rewrite (Z.mul_comm k). apply Z.mul_divide_mono_l.
    rewrite Z.mul_comm in H2.
    apply (Z.gauss _ (fst qe ^ snd qe)); [exact H2 | ].
    rewrite Z.gcd_comm. exact Hc.
Qed.

Lemma factorProduct_pos (qs : list (Z * Z)) :
  (forall qe, In qe qs -> 0 < fst qe /\ 0 < snd qe) -> 0 < factorProduct qs.
Proof.
  induction qs as [ | qe qs IH]; cbn [factorProduct fold_right]; [lia | ].
  intros H. destruct (H qe (or_introl eq_refl)) as [Hq He].
  assert (0 < fst qe ^ snd qe) by (apply Z.pow_pos_nonneg; lia).
  assert (0 < factorProduct qs) by (apply IH; intros; apply H; now right).
  unfold factorProduct in *. nia.
Qed.

Section Order.
Variables (n c F r : Z).
Hypothesis HF : 0 < F.
Hypothesis Hc : c ^ F mod n = 1.
Hypothesis Hr : Z.prime r.
Hypothesis Hrn : (r | n).

Local Abbreviation x := (Zmod.of_Z r c).

Lemma residue (z : Z) : z mod r = (z mod n) mod r.
Proof.
  symmetry. apply Z.mod_mod_divide. exact Hrn.
Qed.

Lemma power_one : Zmod.pow x F = Zmod.one.
Proof.
  pose proof (Z.prime_ge_2 r Hr) as Hr2.
  rewrite <- Zmod.of_Z_pow by lia. rewrite <- Zmod.of_Z_1.
  apply Zmod.of_Z_inj. rewrite (residue (c ^ F)), Hc. reflexivity.
Qed.

Lemma base_unit : Z.gcd (Zmod.to_Z x) r = 1.
Proof.
  pose proof (Z.prime_ge_2 r Hr) as Hr2.
  assert (Hx : x <> Zmod.zero).
  { intros E. pose proof power_one as P. rewrite E in P.
    rewrite Zmod.pow_0_l in P by lia.
    symmetry in P. exact (Zmod.one_neq_zero (m := r) ltac:(lia) P). }
  rewrite Z.gcd_comm. apply Z.coprime_prime_small; [exact Hr | ].
  pose proof (Zmod.unsigned_pos_bound x ltac:(lia)).
  pose proof (Zmod.unsigned_nz x Hx). lia.
Qed.

Lemma power_gcd : Zmod.pow x (Z.gcd F (r - 1)) = Zmod.one.
Proof.
  assert (Hx : x <> Zmod.zero).
  { intros E. pose proof base_unit as U. rewrite E, Zmod.unsigned_0 in U.
    pose proof (Z.prime_ge_2 r Hr). rewrite Z.gcd_0_l in U. lia. }
  destruct (Z.gcd_bezout F (r - 1) _ eq_refl) as [u [v E]].
  rewrite <- E.
  rewrite (Zmod.pow_add_r_coprime x _ _ base_unit).
  rewrite (Z.mul_comm u F), (Z.mul_comm v (r - 1)).
  rewrite !(Zmod.pow_mul_r_coprime x _ _ base_unit).
  rewrite power_one. replace (r - 1) with (Z.pred r) by lia.
  rewrite (Zmod.fermat_nz x Hx Hr). rewrite !Zmod.pow_1_l.
  apply Zmod.mul_1_l.
Qed.

(** Pocklington's step: a prime power [q ^ e] of [F] for which
    [c ^ (F / q) - 1] is prime to [n] divides [r - 1]. *)
Lemma prime_power_divides (q e : Z) :
  Z.prime q -> 0 < e -> (q ^ e | F) ->
  Z.gcd (c ^ (F / q) mod n - 1) n = 1 ->
  (q ^ e | r - 1).
Proof.
  intros Hq He HqF Hg.
  pose proof (Z.prime_ge_2 r Hr) as Hr2. pose proof (Z.prime_ge_2 q Hq) as Hq2.
  set (g := Z.gcd F (r - 1)).
  assert (Hg0 : 0 < g).
  { pose proof (Z.gcd_nonneg F (r - 1)).
    assert (g <> 0) by (unfold g; intros E; apply Z.gcd_eq_0_l in E; lia).
    unfold g in *. lia. }
  destruct (Z.gcd_divide_l F (r - 1)) as [t Ht]. fold g in Ht.
  assert (Ht0 : 0 < t) by nia.
  apply (Z.divide_trans _ g); [ | apply Z.gcd_divide_r].
  destruct (Z.BoolSpec_divide q t) as [[t' Ht'] | Hnd].
  - exfalso.
    assert (EF : F / q = g * t').
    { rewrite Ht, Ht'. replace (t' * q * g) with (g * t' * q) by ring.
      apply Z.div_mul. lia. }
    assert (Ht'0 : 0 <= t') by nia.
    assert (P : Zmod.pow x (F / q) = Zmod.one).
    { rewrite EF. rewrite Zmod.pow_mul_r_nonneg by lia.
      unfold g. rewrite power_gcd. apply Zmod.pow_1_l. }
    assert (Hdiv : (r | c ^ (F / q) mod n - 1)).
    { apply Z.mod_divide; [lia | ].
      assert (E0 : 0 <= F / q) by (rewrite EF; nia).
      rewrite <- Zmod.of_Z_pow in P by exact E0.
      rewrite <- Zmod.of_Z_1 in P. apply Zmod.of_Z_inj in P.
      rewrite Zminus_mod, <- residue, P, <- Zminus_mod. reflexivity. }
    pose proof (Z.gcd_greatest _ _ _ Hdiv Hrn) as D. rewrite Hg in D.
    apply Z.divide_1_r_nonneg in D; lia.
  - apply (Z.gauss _ t).
    + rewrite <- Ht. exact HqF.
    + apply Z.coprime_pow_l; [lia | ]. apply Z.coprime_prime_l; assumption.
Qed.

End Order.

Theorem pocklington_sound (n c : Z) (qs : list (Z * Z)) :
  pocklington n c qs = true ->
  (forall qe, In qe qs -> Z.prime (fst qe)) ->
  Z.prime n.
Proof.
  unfold pocklington. set (F := factorProduct qs). intros H Hprimes.
  repeat (apply andb_prop in H; let H' := fresh "C" in destruct H as [H H']).
  apply Z.ltb_lt in H. apply Z.ltb_lt in C2. apply Z.eqb_eq in C1.
  assert (Hn0 : n <> 0) by lia.
  rewrite Zpow_mod_correct in C1 by exact Hn0.
  assert (HF : 0 < F).
  { apply factorProduct_pos. intros qe Hin. split.
    - pose proof (Z.prime_ge_2 _ (Hprimes qe Hin)). lia.
    - rewrite forallb_forall in C. specialize (C qe Hin).
      apply andb_prop in C. destruct C as [Ce _]. apply Z.ltb_lt in Ce. exact Ce. }
  assert (Key : forall r, Z.prime r -> (r | n) -> F < r).
  { intros r Hr Hrn. pose proof (Z.prime_ge_2 r Hr) as Hr2.
    assert (D : (F | r - 1)).
    { apply factorProduct_divides; [exact C0 | ].
      intros qe Hin. rewrite forallb_forall in C. specialize (C qe Hin).
      apply andb_prop in C. destruct C as [Ce Cg].
      apply Z.ltb_lt in Ce. apply Z.eqb_eq in Cg.
      rewrite Zpow_mod_correct in Cg by exact Hn0.
      apply (prime_power_divides n c F r HF C1 Hr Hrn);
        [apply Hprimes; exact Hin | exact Ce | | exact Cg].
      apply factor_divides. exact Hin. }
    apply Z.divide_pos_le in D; lia. }
  split; [exact H | ].
  intros m Hm [k Hk].
  assert (Hk1 : 1 < k) by nia.
  destruct (prime_divisor m ltac:(lia)) as [r1 [P1 D1]].
  destruct (prime_divisor k Hk1) as [r2 [P2 D2]].
  assert (L1 : F < r1).
  { apply Key; [exact P1 | ]. apply (Z.divide_trans _ m); [exact D1 | ].
    exists k. exact Hk. }
  assert (L2 : F < r2).
  { apply Key; [exact P2 | ]. apply (Z.divide_trans _ k); [exact D2 | ].
    exists m. rewrite Z.mul_comm. exact Hk. }
  apply Z.divide_pos_le in D1; [ | lia]. apply Z.divide_pos_le in D2; [ | lia].
  nia.
Qed.

End PrimalityFacts.

(** ** [FIELD_MODULUS] is prime *)

Module FieldModulusFacts.
Import Primality PrimalityFacts.

Ltac by_trial := apply trialPrime_sound; vm_cast_no_check (eq_refl true).

Ltac by_pocklington c qs :=
  apply (pocklington_sound _ c qs); [vm_cast_no_check (eq_refl true) | ];
  let qe := fresh "qe" in
  let Hin := fresh "Hin" in
  cbn [In fst]; intros qe Hin;
  repeat (destruct Hin as [<- | Hin]; [cbn [fst]; assumption | ]);
  contradiction.

Lemma prime_1637 : Z.prime 1637.
Proof. by_trial. Qed.

Lemma prime_853 : Z.prime 853.
Proof. by_trial. Qed.

Lemma prime_639533339 : Z.prime 639533339.
Proof.
  pose proof prime_1637. pose proof prime_853.
  by_pocklington 569936353 [(1637, 1); (853, 1)].
Qed.

Lemma prime_65865678001877903 : Z.prime 65865678001877903.
Proof.
  pose proof prime_639533339.
  by_pocklington 8595199928015311 [(639533339, 1)].
Qed.

Lemma prime_13818364434197438864469338081 : Z.prime 13818364434197438864469338081.
Proof.
  pose proof prime_65865678001877903.
  by_pocklington 7935281130018080704632618576 [(65865678001877903, 1)].
Qed.

Lemma prime_31 : Z.prime 31.
Proof. by_trial. Qed.

Lemma prime_5 : Z.prime 5.
Proof. by_trial. Qed.

Lemma prime_93001 : Z.prime 93001.
Proof.
  pose proof prime_31. pose proof prime_5.
  by_pocklington 37036 [(31, 1); (5, 3)].
Qed.

Lemma prime_661 : Z.prime 661.
Proof. by_trial. Qed.

Lemma prime_12048837557 : Z.prime 12048837557.
Proof.
  pose proof prime_93001. pose proof prime_661.
  by_pocklington 9314271357 [(93001, 1); (661, 1)].
Qed.

Lemma prime_5156902474397 : Z.prime 5156902474397.
Proof.
  pose proof prime_12048837557.
  by_pocklington 4746712836098 [(12048837557, 1)].
Qed.

Lemma prime_1670836401704629 : Z.prime 1670836401704629.
Proof.
  pose proof prime_5156902474397.
  by_pocklington 11046204280772 [(5156902474397, 1)].
Qed.

Theorem FIELD_MODULUS_prime : Z.prime Grumpkin.FIELD_MODULUS.
Proof.
  pose proof prime_13818364434197438864469338081.
  pose proof prime_1670836401704629.
  by_pocklington
    4067217240286848671452265983065331897323918408910809300406102239489012348584
    [(13818364434197438864469338081, 1); (1670836401704629, 1)].
Qed.

End FieldModulusFacts.

(** ** The field and the group of Grumpkin *)

Module GroupFacts.
Import Grumpkin Group.
Import Curve (Inf, Aff).

Lemma modulus_prime : Z.prime FIELD_MODULUS.
Proof. exact FieldModulusFacts.FIELD_MODULUS_prime. Qed.

Lemma modulus_large : 17 < FIELD_MODULUS.
Proof. reflexivity. Qed.

Lemma reduced_check (z : Z) :
  (0 <=? z) && (z <? FIELD_MODULUS) = true -> reduced z.
Proof.
  intros H. apply andb_prop in H. destruct H as [H1 H2].
  apply Z.leb_le in H1. apply Z.ltb_lt in H2. split; assumption.
Qed.

Local Opaque FIELD_MODULUS.

Lemma Fp_field :
  field_theory (Zmod.zero : Fp) Zmod.one Zmod.add Zmod.mul Zmod.sub Zmod.opp
               Zmod.mdiv Zmod.inv eq.
Proof. exact (Zmod.field_theory FIELD_MODULUS modulus_prime). Qed.

Lemma Fp_eqb (u v : Fp) : BoolSpec (u = v) (u <> v) (Zmod.eqb u v).
Proof. apply Zmod.eqb_spec. Qed.

(** *** Reading integers as field elements *)

Lemma mod__spec (n p : Z) : 0 < p -> mod_ n p = n mod p.
Proof.
  intros Hp. unfold mod_. cbv zeta.
  pose proof (Z.rem_bound_abs n p ltac:(lia)) as Hb.
  destruct (Z.geb_spec (Z.rem n p) 0) as [G | L].
  - destruct (Z.eq_dec (Z.rem n p) 0) as [E | N].
    + rewrite E. symmetry. apply Z.rem_divide in E; [ | lia].
      apply Z.mod_divide; [lia | exact E].
    + assert (Hn : 0 <= n).
      { destruct (Z.le_gt_cases 0 n) as [L | L]; [exact L | ].
        pose proof (Z.rem_nonpos n p ltac:(lia)). lia. }
      apply Z.rem_mod_nonneg; lia.
  - pose proof (Z.rem_eq n p ltac:(lia)) as E.
    apply (Z.mod_unique_pos _ _ (Z.quot n p - 1)); lia.
Qed.

Lemma mod__reduced (n : Z) : reduced (mod_ n FIELD_MODULUS).
Proof.
  pose proof modulus_large. rewrite mod__spec by lia.
  apply Z.mod_pos_bound. lia.
Qed.

Lemma toFp_mod_ (n : Z) : toFp (mod_ n FIELD_MODULUS) = toFp n.
Proof.
  pose proof modulus_large. rewrite mod__spec by lia. apply Zmod.of_Z_mod.
Qed.

Lemma toFp_add (u v : Z) : toFp (u + v) = Zmod.add (toFp u) (toFp v).
Proof. apply Zmod.of_Z_add. Qed.

Lemma toFp_sub (u v : Z) : toFp (u - v) = Zmod.sub (toFp u) (toFp v).
Proof. apply Zmod.of_Z_sub. Qed.

Lemma toFp_mul (u v : Z) : toFp (u * v) = Zmod.mul (toFp u) (toFp v).
Proof. apply Zmod.of_Z_mul. Qed.

Lemma toFp_opp (u : Z) : toFp (- u) = Zmod.opp (toFp u).
Proof. apply Zmod.of_Z_opp. Qed.

Lemma toFp_0 : toFp 0 = Zmod.zero.
Proof. apply Zmod.of_Z_0. Qed.

Lemma toFp_1 : toFp 1 = Zmod.one.
Proof. apply Zmod.of_Z_1. Qed.

Lemma toFp_2 : toFp 2 = Zmod.add Zmod.one Zmod.one.
Proof. rewrite <- toFp_1, <- toFp_add. reflexivity. Qed.

Lemma toFp_3 : toFp 3 = Zmod.add (Zmod.add Zmod.one Zmod.one) Zmod.one.
Proof. rewrite <- toFp_1, <- !toFp_add. reflexivity. Qed.

Lemma toFp_inj (u v : Z) : reduced u -> reduced v -> toFp u = toFp v -> u = v.
Proof.
  unfold reduced. intros Hu Hv E. apply Zmod.of_Z_inj in E.
  rewrite !Z.mod_small in E by assumption. exact E.
Qed.

Lemma toFp_zero (u : Z) : reduced u -> toFp u = Zmod.zero -> u = 0.
Proof.
  intros Hu E. apply (toFp_inj u 0); [exact Hu | | rewrite toFp_0; exact E].
  pose proof modulus_large. unfold reduced. lia.
Qed.

Lemma grumpkin_two_nz : Zmod.add Zmod.one Zmod.one <> (Zmod.zero : Fp).
Proof.
  rewrite <- toFp_2. intros E. apply toFp_zero in E; [lia | ].
  pose proof modulus_large. unfold reduced. lia.
Qed.

Add Field FpField : Fp_field.

Lemma toFp_modulus : toFp FIELD_MODULUS = Zmod.zero.
Proof.
  rewrite <- toFp_0. apply Zmod.of_Z_inj.
  pose proof modulus_large. rewrite Z.mod_same, Z.mod_0_l by lia. reflexivity.
Qed.

Lemma curveB_17 : curveB = Zmod.opp (toFp 17).
Proof.
  unfold curveB, B. rewrite toFp_sub, toFp_modulus. ring.
Qed.

(** [17] is not a cube modulo [FIELD_MODULUS]: the curve has no point with
    a zero ordinate. *)
Lemma grumpkin_no_root (u : Fp) : Zmod.add (Zmod.mul (Zmod.mul u u) u) curveB <> Zmod.zero.
Proof.
  intros E. pose proof modulus_large as Hl.
  pose (k := 7296080957279758407415468581752425029516121466805344781232734728858602831872).
  assert (Hk : 3 * k = Z.pred FIELD_MODULUS).
  { vm_compute. reflexivity. }
  assert (Hc : Zpow_mod 17 k FIELD_MODULUS <> 1).
  { vm_compute. discriminate. }
  assert (E17 : Zmod.pow u 3 = toFp 17).
  { change 3 with (Z.succ 2). rewrite Zmod.pow_succ_nonneg_r by lia.
    rewrite Zmod.pow_2_r. rewrite curveB_17 in E.
    transitivity (Zmod.add (Zmod.add (Zmod.mul (Zmod.mul u u) u)
                                     (Zmod.opp (toFp 17))) (toFp 17)); [ring | ].
    rewrite E. ring. }
  assert (Hu : u <> Zmod.zero).
  { intros ->. rewrite Zmod.pow_0_l in E17 by lia. symmetry in E17.
    apply toFp_zero in E17; [lia | unfold reduced; lia]. }
  apply Hc. rewrite Zpow_mod_correct by lia.
  pose proof (Zmod.fermat_nz u Hu modulus_prime) as Fm.
  rewrite <- Hk in Fm. rewrite Zmod.pow_mul_r_nonneg in Fm by (unfold k; lia).
  rewrite E17 in Fm. unfold toFp in Fm.
  rewrite <- Zmod.of_Z_pow in Fm by (unfold k; lia).
  rewrite <- Zmod.of_Z_1 in Fm. apply Zmod.of_Z_inj in Fm.
  rewrite Fm. apply Z.mod_small. lia.
Qed.

(** *** The group law, for this curve *)

Local Notation "'instance' L" :=
  (L (Zmod FIELD_MODULUS) Zmod.zero Zmod.one Zmod.add Zmod.mul Zmod.sub Zmod.opp
     Zmod.mdiv Zmod.inv Zmod.eqb Fp_field Fp_eqb curveB grumpkin_two_nz grumpkin_no_root)
  (at level 10, L at level 9, only parsing).

Lemma grumpkin_onCurve_add (P Q : Curve.point Fp) :
  onCurve P -> onCurve Q -> onCurve (add P Q).
Proof. exact (instance CurveFacts.onCurve_add P Q). Qed.

Lemma grumpkin_onCurve_neg (P : Curve.point Fp) : onCurve P -> onCurve (neg P).
Proof. exact (instance CurveFacts.onCurve_neg P). Qed.

Lemma grumpkin_onCurve_mul (n : nat) (P : Curve.point Fp) : onCurve P -> onCurve (mul n P).
Proof. exact (instance CurveFacts.onCurve_mul n P). Qed.

Lemma grumpkin_add_comm (P Q : Curve.point Fp) :
  onCurve P -> onCurve Q -> add P Q = add Q P.
Proof. exact (instance CurveFacts.add_comm P Q). Qed.

Lemma grumpkin_add_assoc (P Q R : Curve.point Fp) :
  onCurve P -> onCurve Q -> onCurve R -> add (add P Q) R = add P (add Q R).
Proof. exact (instance CurveFacts.add_assoc P Q R). Qed.

Lemma grumpkin_add_Inf_r (P : Curve.point Fp) : add P Inf = P.
Proof. exact (instance CurveFacts.add_Inf_r P). Qed.

Lemma grumpkin_add_Inf_l (P : Curve.point Fp) : add Inf P = P.
Proof. reflexivity. Qed.

Lemma grumpkin_add_neg (P : Curve.point Fp) : add P (neg P) = Inf.
Proof. exact (instance CurveFacts.add_neg P). Qed.

Lemma grumpkin_add_sub (P Q : Curve.point Fp) :
  onCurve P -> onCurve Q -> add (add P Q) (neg Q) = P.
Proof. exact (instance CurveFacts.add_sub P Q). Qed.



Lemma grumpkin_mul_Inf (n : nat) : mul n Inf = Inf.
Proof. exact (instance CurveFacts.mul_Inf n). Qed.

Lemma grumpkin_mul_plus (n m : nat) (P : Curve.point Fp) :
  onCurve P -> mul (n + m) P = add (mul n P) (mul m P).
Proof. exact (instance CurveFacts.mul_plus n m P). Qed.

Lemma grumpkin_mul_times (n m : nat) (P : Curve.point Fp) :
  onCurve P -> mul n (mul m P) = mul (n * m) P.
Proof. exact (instance CurveFacts.mul_times n m P). Qed.

Lemma grumpkin_mul_double (n : nat) (P : Curve.point Fp) :
  onCurve P -> mul n (add P P) = mul (2 * n) P.
Proof. exact (instance CurveFacts.mul_double n P). Qed.

Lemma grumpkin_same_abscissa (u v1 v2 : Fp) :
  onCurve (Aff u v1) -> onCurve (Aff u v2) -> v1 = v2 \/ Zmod.add v1 v2 = Zmod.zero.
Proof. exact (instance CurveFacts.same_abscissa u v1 v2). Qed.

Lemma grumpkin_ordinate_nz (u v : Fp) : onCurve (Aff u v) -> v <> Zmod.zero.
Proof. exact (instance CurveFacts.ordinate_nz u v). Qed.

(** *** [modInverse] returns the inverse *)

Lemma inverseLoop_returns (a p : Z) (fuel : nat) :
  forall old_r r old_s s : Z,
    0 < old_r -> 0 <= r <= old_r -> old_r * r < 2 ^ Z.of_nat fuel ->
    (exists k, old_s * a = old_r + k * p) -> (exists k, s * a = r + k * p) ->
    exists g u, inverseLoop fuel old_r r old_s s = Some (g, u)
                /\ g = Z.gcd old_r r /\ exists k, u * a = g + k * p.
Proof.
  induction fuel as [ | fuel IH]; intros old_r r old_s s Ho Hr Hm Eo Es.
  - assert (r = 0) by (cbn in Hm; nia). subst r. cbn.
    exists old_r, old_s. rewrite Z.gcd_0_r, Z.abs_eq by lia. auto.
  - cbn [inverseLoop]. destruct (Z.eqb_spec r 0) as [-> | N].
    + exists old_r, old_s. rewrite Z.gcd_0_r, Z.abs_eq by lia. auto.
    + assert (Hr0 : 0 < r) by lia.
      rewrite (Z.quot_div_nonneg old_r r) by lia.
      pose proof (Z.mod_pos_bound old_r r Hr0) as Hb.
      pose proof (Z.div_mod old_r r ltac:(lia)) as Hd.
      assert (Hq : 1 <= old_r / r) by (apply Z.div_le_lower_bound; lia).
      assert (Er : old_r - old_r / r * r = old_r mod r) by lia.
      rewrite Er.
      destruct (IH r (old_r mod r) s (old_s - old_r / r * s)) as [g [u [E [Eg Eu]]]].
      * exact Hr0.
      * lia.
      * rewrite Nat2Z.inj_succ, Z.pow_succ_r in Hm by lia. nia.
      * exact Es.
      * destruct Eo as [k1 E1], Es as [k2 E2].
        exists (k1 - old_r / r * k2). nia.
      * exists g, u. split; [exact E | ]. split; [ | exact Eu].
        rewrite Eg, (Z.gcd_comm r (old_r mod r)), Z.gcd_mod by lia.
        apply Z.gcd_comm.
Qed.

Lemma inverseFuel_enough (p a : Z) :
  1 < p -> 0 <= a <= p -> p * a < 2 ^ Z.of_nat (inverseFuel p).
Proof.
  intros Hp Ha. unfold inverseFuel.
  pose proof (Z.log2_up_spec p Hp) as [_ Hl].
  pose proof (Z.log2_up_nonneg p) as Hn.
  replace (Z.of_nat (2 * Z.to_nat (Z.log2_up p) + 2))
    with (Z.log2_up p + Z.log2_up p + 2) by lia.
  rewrite !Z.pow_add_r by lia.
  assert (0 < 2 ^ Z.log2_up p) by (apply Z.pow_pos_nonneg; lia).
  change (2 ^ 2) with 4. nia.
Qed.

Lemma modInverse_returns (a : Z) :
  0 < a < FIELD_MODULUS ->
  exists i, modInverse a FIELD_MODULUS = Some i /\ reduced i
            /\ toFp i = Zmod.inv (toFp a).
Proof.
  intros Ha. pose proof modulus_large as Hl. unfold modInverse.
  destruct (Z.eqb_spec a 0) as [E | _]; [lia | ].
  rewrite mod__spec by lia. rewrite (Z.mod_small a) by lia.
  destruct (inverseLoop_returns a FIELD_MODULUS (inverseFuel FIELD_MODULUS)
              FIELD_MODULUS a 0 1) as [g [u [E [Eg [k Eu]]]]].
  - lia.
  - lia.
  - apply inverseFuel_enough; lia.
  - exists (-1). lia.
  - exists 0. lia.
  - assert (Hg : g = 1).
    { rewrite Eg. apply Z.coprime_prime_small; [exact modulus_prime | lia]. }
    rewrite E, Hg. rewrite Hg in Eu. cbv beta iota. rewrite Z.eqb_refl.
    exists (mod_ u FIELD_MODULUS). split; [reflexivity | ].
    split; [apply mod__reduced | ].
    rewrite toFp_mod_.
    assert (Ha0 : toFp a <> Zmod.zero).
    { intros E0. apply toFp_zero in E0; [lia | unfold reduced; lia]. }
    assert (E1 : Zmod.mul (toFp u) (toFp a) = Zmod.one).
    { rewrite <- toFp_mul, Eu, toFp_add, toFp_mul, toFp_modulus, toFp_1. ring. }
    transitivity (Zmod.mul (Zmod.mul (toFp u) (toFp a)) (Zmod.inv (toFp a))).
    + field. exact Ha0.
    + rewrite E1. ring.
Qed.

(** The slope that [addPoints] computes from a numerator and a non-zero
    denominator. *)
Lemma slope_returns (n d : Z) :
  toFp d <> Zmod.zero ->
  exists l,
    option_map (fun i => mod_ (mod_ n FIELD_MODULUS * i) FIELD_MODULUS)
               (modInverse (mod_ d FIELD_MODULUS) FIELD_MODULUS) = Some l
    /\ toFp l = Zmod.mdiv (toFp n) (toFp d).
Proof.
  intros Hd. pose proof (mod__reduced d) as Hr.
  assert (Hpos : 0 < mod_ d FIELD_MODULUS < FIELD_MODULUS).
  { unfold reduced in Hr.
    assert (mod_ d FIELD_MODULUS <> 0); [ | lia].
    intros E. apply Hd. rewrite <- toFp_mod_, E. apply toFp_0. }
  destruct (modInverse_returns _ Hpos) as [i [E [_ Ei]]].
  rewrite E. cbn [option_map]. eexists. split; [reflexivity | ].
  rewrite toFp_mod_, toFp_mul, toFp_mod_, Ei, toFp_mod_.
  apply Zmod.mul_inv_r.
Qed.

(** *** Valid points *)

Lemma isOnCurve_spec (px py : Z) :
  isOnCurve (mkPoint px py false) = true <-> onCurve (Aff (toFp px) (toFp py)).
Proof.
  pose proof modulus_large as Hl.
  unfold isOnCurve, onCurve, Curve.onCurve, curveB. cbn [isInfinity x y].
  rewrite !mod__spec by lia. rewrite Z.eqb_eq.
  rewrite <- !toFp_mul, <- toFp_add. unfold toFp. rewrite Zmod.of_Z_inj.
  reflexivity.
Qed.

Lemma valid_onCurve (P : Point) : valid P -> onCurve (embed P).
Proof.
  destruct P as [px py [ | ]]; unfold valid, embed; cbn [isInfinity x y].
  - intros _. exact I.
  - intros [_ [_ H]]. apply isOnCurve_spec. exact H.
Qed.

Lemma valid_infinity : valid pointAtInfinity.
Proof. reflexivity. Qed.

Lemma valid_affine (px py : Z) :
  reduced px -> reduced py -> onCurve (Aff (toFp px) (toFp py)) ->
  valid (mkPoint px py false).
Proof.
  intros Hx Hy H. unfold valid. cbn [isInfinity x y].
  repeat split; try apply Hx; try apply Hy. apply isOnCurve_spec. exact H.
Qed.

Lemma Aff_inj (u v u' v' : Fp) : Aff u v = Aff u' v' -> u = u' /\ v = v'.
Proof.
  intros E. split.
  - exact (f_equal (fun P => match P with Aff a _ => a | Inf => u end) E).
  - exact (f_equal (fun P => match P with Aff _ a => a | Inf => v end) E).
Qed.

Lemma embed_inj (P Q : Point) : valid P -> valid Q -> embed P = embed Q -> P = Q.
Proof.
  destruct P as [x1 y1 [ | ]], Q as [x2 y2 [ | ]];
    unfold valid, embed; cbn [isInfinity x y]; intros HP HQ E.
  - congruence.
  - discriminate E.
  - discriminate E.
  - destruct HP as [Hx1 [Hy1 _]], HQ as [Hx2 [Hy2 _]].
    apply Aff_inj in E. destruct E as [Ex Ey].
    apply toFp_inj in Ex; [ | assumption | assumption].
    apply toFp_inj in Ey; [ | assumption | assumption].
    congruence.
Qed.

Lemma embed_infinity (P : Point) : embed P = Inf <-> isInfinity P = true.
Proof.
  unfold embed. destruct (isInfinity P); split; congruence.
Qed.

(** *** [addPoints] adds *)

Lemma toFp_zero_iff (z : Z) : toFp z = Zmod.zero <-> z mod FIELD_MODULUS = 0.
Proof.
  pose proof modulus_large. rewrite <- toFp_0. unfold toFp.
  rewrite Zmod.of_Z_inj, Z.mod_0_l by lia. reflexivity.
Qed.

Lemma grumpkin_double_nz (v : Fp) : v <> Zmod.zero -> Zmod.mul (Zmod.add Zmod.one Zmod.one) v <> Zmod.zero.
Proof.
  intros Hv E. apply (instance CurveFacts.double_nz v Hv). rewrite <- E. ring.
Qed.

Lemma grumpkin_sub_nz (u v : Fp) : u <> v -> Zmod.sub v u <> Zmod.zero.
Proof. exact (instance CurveFacts.zero_sub u v). Qed.

Lemma addPoints_returns (P Q : Point) :
  valid P -> valid Q ->
  exists R, addPoints P Q = Some R /\ valid R /\ embed R = add (embed P) (embed Q).
Proof.
  intros HP HQ. pose proof modulus_large as Hl.
  pose proof (valid_onCurve P HP) as CP. pose proof (valid_onCurve Q HQ) as CQ.
  destruct P as [x1 y1 [ | ]], Q as [x2 y2 [ | ]]; unfold addPoints;
    cbn [isInfinity x y].
  - eexists. split; [reflexivity | ]. split; [exact HQ | reflexivity].
  - eexists. split; [reflexivity | ]. split; [exact HQ | reflexivity].
  - eexists. split; [reflexivity | ]. split; [exact HP | ].
    symmetry. apply grumpkin_add_Inf_r.
  - unfold valid in HP, HQ. cbn [isInfinity x y] in HP, HQ.
    destruct HP as [Rx1 [Ry1 _]], HQ as [Rx2 [Ry2 _]].
    unfold embed in *. cbn [isInfinity x y] in *.
    assert (Fin : forall l,
      toFp l = Curve.slopeT Zmod.one Zmod.add Zmod.mul Zmod.mdiv (toFp x1) (toFp y1)
               /\ x2 = x1 /\ y2 = y1
      \/ toFp l = Curve.slopeC Zmod.sub Zmod.mdiv (toFp x1) (toFp y1) (toFp x2) (toFp y2)
               /\ toFp x1 <> toFp x2 ->
      let x3 := mod_ (l * l - x1 - x2) FIELD_MODULUS in
      let y3 := mod_ (l * (x1 - x3) - y1) FIELD_MODULUS in
      exists R, Some (mkPoint x3 y3 false) = Some R /\ valid R
                /\ (if isInfinity R then Inf else Aff (toFp (x R)) (toFp (y R)))
                   = add (Aff (toFp x1) (toFp y1)) (Aff (toFp x2) (toFp y2))).
    { intros l Hcase x3 y3. eexists. split; [reflexivity | ]. cbn [isInfinity x y].
      assert (E : Aff (toFp x3) (toFp y3)
                  = add (Aff (toFp x1) (toFp y1)) (Aff (toFp x2) (toFp y2))).
      { destruct Hcase as [[El [-> ->]] | [El Nx]].
        - unfold add. rewrite (instance CurveFacts.add_tangent)
            by exact (grumpkin_ordinate_nz _ _ CP).
          rewrite <- El. subst y3 x3. unfold Curve.sumx, Curve.sumy.
          rewrite !toFp_mod_, !toFp_sub, !toFp_mul, !toFp_sub, !toFp_mod_,
            !toFp_sub, !toFp_mul. reflexivity.
        - unfold add. rewrite (instance CurveFacts.add_chord) by exact Nx.
          rewrite <- El. subst y3 x3. unfold Curve.sumx, Curve.sumy.
          rewrite !toFp_mod_, !toFp_sub, !toFp_mul, !toFp_sub, !toFp_mod_,
            !toFp_sub, !toFp_mul. reflexivity. }
      split; [ | exact E].
      apply valid_affine; try apply mod__reduced.
      rewrite E. apply grumpkin_onCurve_add; assumption. }
    destruct (Z.eqb_spec x1 x2) as [Ex | Nx]; cbn [andb].
    + subst x2. rewrite mod__spec by lia.
      destruct (Z.eqb_spec ((y1 + y2) mod FIELD_MODULUS) 0) as [E0 | N0].
      * exists pointAtInfinity. split; [reflexivity | ].
        split; [exact valid_infinity | ]. cbn [isInfinity pointAtInfinity].
        symmetry. apply (instance CurveFacts.add_opp).
        rewrite <- toFp_add. apply toFp_zero_iff. exact E0.
      * assert (Ey : y2 = y1).
        { destruct (grumpkin_same_abscissa _ _ _ CP CQ) as [E | E].
          - symmetry. apply toFp_inj; assumption.
          - exfalso. apply N0. apply toFp_zero_iff. rewrite toFp_add. exact E. }
        subst y2. rewrite Z.eqb_refl.
        destruct (slope_returns (3 * x1 * x1) (2 * y1)) as [l [El Hl']].
        { rewrite toFp_mul, toFp_2. apply grumpkin_double_nz. exact (grumpkin_ordinate_nz _ _ CP). }
        cbv zeta. rewrite El. apply Fin. left. split; [ | split; reflexivity].
        rewrite Hl'. unfold Curve.slopeT.
        rewrite !toFp_mul, toFp_3, toFp_2. reflexivity.
    + assert (Nx' : toFp x1 <> toFp x2).
      { intros E. apply Nx. apply toFp_inj; assumption. }
      destruct (slope_returns (y2 - y1) (x2 - x1)) as [l [El Hl']].
      { rewrite toFp_sub. apply grumpkin_sub_nz. exact Nx'. }
      cbv zeta. rewrite El. apply Fin. right. split; [ | exact Nx'].
      rewrite Hl'. unfold Curve.slopeC. rewrite !toFp_sub. reflexivity.
Qed.

Lemma negatePoint_valid (P : Point) :
  valid P -> valid (negatePoint P) /\ embed (negatePoint P) = neg (embed P).
Proof.
  intros HP. pose proof (valid_onCurve P HP) as CP.
  destruct P as [px py [ | ]]; unfold negatePoint; cbn [isInfinity x y].
  - split; [exact HP | reflexivity].
  - unfold valid in HP. cbn [isInfinity x y] in HP. destruct HP as [Rx [Ry _]].
    assert (E : embed (mkPoint px (mod_ (- py) FIELD_MODULUS) false)
                = neg (embed (mkPoint px py false))).
    { unfold embed. cbn [isInfinity x y]. unfold neg, Curve.neg.
      rewrite toFp_mod_, toFp_opp. reflexivity. }
    split; [ | exact E].
    apply valid_affine; [exact Rx | apply mod__reduced | ].
    change (onCurve (embed (mkPoint px (mod_ (- py) FIELD_MODULUS) false))).
    rewrite E. apply grumpkin_onCurve_neg. exact CP.
Qed.

Lemma subtractPoints_returns (P Q : Point) :
  valid P -> valid Q ->
  exists R, subtractPoints P Q = Some R /\ valid R
            /\ embed R = add (embed P) (neg (embed Q)).
Proof.
  intros HP HQ. destruct (negatePoint_valid Q HQ) as [HN EN].
  unfold subtractPoints. rewrite <- EN. apply addPoints_returns; assumption.
Qed.

Lemma pointsEqual_spec (P Q : Point) :
  valid P -> valid Q -> (pointsEqual P Q = true <-> embed P = embed Q).
Proof.
  intros HP HQ. split.
  - destruct P as [x1 y1 [ | ]], Q as [x2 y2 [ | ]]; unfold pointsEqual, embed;
      cbn [isInfinity x y andb orb]; try discriminate; [reflexivity | ].
    intros E. apply andb_prop in E. destruct E as [E1 E2].
    apply Z.eqb_eq in E1, E2. subst. reflexivity.
  - intros E. apply embed_inj in E; [ | assumption | assumption]. subst Q.
    destruct P as [x1 y1 [ | ]]; unfold pointsEqual; cbn [isInfinity x y andb orb];
      [reflexivity | ]. rewrite !Z.eqb_refl. reflexivity.
Qed.

(** *** [scalarMul] multiplies *)

Lemma mulLoop_returns (n : positive) :
  forall result current : Point,
    valid result -> valid current ->
    exists R, mulLoop n result current = Some R /\ valid R
              /\ embed R = add (embed result) (mul (Pos.to_nat n) (embed current)).
Proof.
  induction n as [n IH | n IH | ]; intros result current Hr Hc;
    pose proof (valid_onCurve _ Hr) as Cr; pose proof (valid_onCurve _ Hc) as Cc;
    cbn [mulLoop].
  - destruct (addPoints_returns result current Hr Hc) as [r' [E1 [V1 M1]]].
    destruct (addPoints_returns current current Hc Hc) as [c' [E2 [V2 M2]]].
    rewrite E1, E2. destruct (IH r' c' V1 V2) as [R [E [V M]]].
    exists R. split; [exact E | ]. split; [exact V | ].
    rewrite M, M1, M2, grumpkin_mul_double by exact Cc.
    rewrite grumpkin_add_assoc by (try apply grumpkin_onCurve_mul; assumption).
    f_equal. rewrite Pos2Nat.inj_xI. symmetry.
    change (S (2 * Pos.to_nat n)) with (1 + 2 * Pos.to_nat n)%nat.
    rewrite grumpkin_mul_plus by exact Cc. f_equal.
    unfold mul. cbn [Curve.mul]. apply grumpkin_add_Inf_r.
  - destruct (addPoints_returns current current Hc Hc) as [c' [E2 [V2 M2]]].
    rewrite E2. destruct (IH result c' Hr V2) as [R [E [V M]]].
    exists R. split; [exact E | ]. split; [exact V | ].
    rewrite M, M2, grumpkin_mul_double by exact Cc. rewrite Pos2Nat.inj_xO. reflexivity.
  - destruct (addPoints_returns result current Hr Hc) as [r' [E1 [V1 M1]]].
    destruct (addPoints_returns current current Hc Hc) as [c' [E2 [V2 M2]]].
    rewrite E1, E2. exists r'. split; [reflexivity | ]. split; [exact V1 | ].
    rewrite M1. f_equal. unfold mul. cbn. symmetry. apply grumpkin_add_Inf_r.
Qed.

Lemma scalarMul_returns (P : Point) (scalar : Scalar) :
  valid P ->
  exists R, scalarMul P scalar = Some R /\ valid R
            /\ embed R = mul (multiplier scalar) (embed P).
Proof.
  intros HP. unfold scalarMul, multiplier. cbv zeta.
  destruct (Z.eqb_spec (scalarToBigint scalar) 0) as [E0 | N0]; cbn [orb].
  - rewrite E0. exists pointAtInfinity. split; [reflexivity | ].
    split; [exact valid_infinity | reflexivity].
  - destruct (isInfinity P) eqn:EP.
    + exists pointAtInfinity. split; [reflexivity | ].
      split; [exact valid_infinity | ].
      apply embed_infinity in EP. rewrite EP, grumpkin_mul_Inf. reflexivity.
    + destruct (scalarToBigint scalar) as [ | n | n].
      * contradiction.
      * destruct (mulLoop_returns n pointAtInfinity P valid_infinity HP)
          as [R [E [V M]]].
        exists R. split; [exact E | ]. split; [exact V | ].
        rewrite M. cbn [Z.to_nat]. reflexivity.
      * exists pointAtInfinity. split; [reflexivity | ].
        split; [exact valid_infinity | reflexivity].
Qed.

Lemma generator_valid : valid generator.
Proof.
  unfold valid, generator. cbn [isInfinity x y fst snd GENERATOR].
  split; [apply reduced_check; vm_compute; reflexivity | ].
  split; [apply reduced_check; vm_compute; reflexivity | ].
  vm_compute. reflexivity.
Qed.

Lemma fixedBaseScalarMul_returns (scalar : Scalar) :
  exists R, fixedBaseScalarMul scalar = Some R /\ valid R
            /\ embed R = mul (multiplier scalar) (embed generator).
Proof. exact (scalarMul_returns generator scalar generator_valid). Qed.

End GroupFacts.

(** ** Masking and unmasking *)

Module ProtocolFacts.
Import Grumpkin Pedersen CardTs ElGamal Group Protocol GroupFacts.
Import Curve (Inf, Aff).

Local Opaque FIELD_MODULUS.

(** *** Card points *)


Lemma first_generator_valid : valid (hd pointAtInfinity PEDERSEN_GENERATORS).
Proof.
  unfold valid. cbn [hd PEDERSEN_GENERATORS isInfinity x y].
  split; [apply reduced_check; vm_compute; reflexivity | ].
  split; [apply reduced_check; vm_compute; reflexivity | ].
  vm_compute. reflexivity.
Qed.

Lemma length_generator_valid : valid PEDERSEN_LENGTH_GENERATOR.
Proof.
  unfold valid. cbn [PEDERSEN_LENGTH_GENERATOR isInfinity x y].
  split; [apply reduced_check; vm_compute; reflexivity | ].
  split; [apply reduced_check; vm_compute; reflexivity | ].
  vm_compute. reflexivity.
Qed.

Lemma pedersenHash_single (input : Z) : exists h, pedersenHash [input] = Some h.
Proof.
  unfold pedersenHash.
  change (List.length PEDERSEN_GENERATORS <? List.length [input])%nat with false.
  cbv iota.
  pose proof first_generator_valid as V0.
  unfold PEDERSEN_GENERATORS in *. cbn [hd] in V0. cbn [hashLoop].
  destruct (scalarMul_returns _ (scalarFromBigint (mod_ input FIELD_MODULUS)) V0)
    as [term [E1 [V1 _]]].
  rewrite E1.
  destruct (addPoints_returns pointAtInfinity term valid_infinity V1)
    as [result [E2 [V2 _]]].
  rewrite E2.
  destruct (scalarMul_returns _ (scalarFromBigint (Z.of_nat (List.length [input])))
              length_generator_valid) as [lengthTerm [E3 [V3 _]]].
  rewrite E3.
  destruct (addPoints_returns result lengthTerm V2 V3) as [result' [E4 _]].
  rewrite E4. eexists. reflexivity.
Qed.

Lemma cardIndexToPoint_valid (cardIndex : Z) (M : Point) :
  cardIndexToPoint cardIndex = Some M -> valid M.
Proof.
  unfold cardIndexToPoint.
  destruct ((cardIndex <? 0) || (cardIndex >=? DECK_SIZE)); [discriminate | ].
  cbv zeta. destruct (pedersenHash _) as [h | ]; [ | discriminate].
  destruct (fixedBaseScalarMul_returns (scalarFromBigint h)) as [R [E [V _]]].
  rewrite E. intros H. injection H as <-. exact V.
Qed.

Lemma cardIndexToPoint_returns (cardIndex : Z) :
  0 <= cardIndex < DECK_SIZE -> exists M, cardIndexToPoint cardIndex = Some M.
Proof.
  intros H. unfold cardIndexToPoint.
  destruct (Z.ltb_spec cardIndex 0) as [L | _]; [lia | ].
  destruct (Z.geb_spec cardIndex DECK_SIZE) as [G | _]; [lia | ].
  cbn [orb]. cbv zeta.
  destruct (pedersenHash_single (nth (Z.to_nat cardIndex) CARD_PRIMES 0)) as [h E].
  rewrite E.
  destruct (fixedBaseScalarMul_returns (scalarFromBigint h)) as [R [E' _]].
  exists R. exact E'.
Qed.

(** *** One step of the protocol *)








(** *** The whole protocol *)






(** A run of the code: two players, secrets 1 and 2 and nonce 1 each, mask
    the card whose point is twice the generator; unmasking in the reverse
    order gives the point back, with [pk] at infinity. *)
Example two_players_reverse_order :
  addPoints generator generator = Some doubleGenerator
  /\ match maskAll (createCardFromPoint doubleGenerator)
                  [(mkScalar 1 0, mkScalar 1 0); (mkScalar 2 0, mkScalar 1 0)] with
     | Some masked => unmaskAll masked [mkScalar 2 0; mkScalar 1 0]
     | None => None
     end = Some (mkCard doubleGenerator doubleGenerator pointAtInfinity).
Proof.
  split; vm_compute; reflexivity.
Qed.





End ProtocolFacts.

(** ** The group operations of [sdk/src/grumpkin.ts] on valid points *)

Module GrumpkinLaws.
Import Grumpkin Group GroupFacts.
Import Curve (Inf, Aff).

Local Opaque FIELD_MODULUS.

Lemma valid_isOnCurve (P : Point) : valid P -> isOnCurve P = true.
Proof.
  unfold valid, isOnCurve. destruct (isInfinity P); [reflexivity | ].
  intros (_ & _ & H). exact H.
Qed.

Lemma valid_isInfinity (P : Point) :
  valid P -> isInfinity P = true -> P = pointAtInfinity.
Proof. unfold valid. intros H E. rewrite E in H. exact H. Qed.

(** X1.  [addPoints] does not throw on valid points, and its result is again a
    valid point: it satisfies the curve equation and, when it is not the
    point at infinity, its coordinates are reduced. *)
Theorem addPoints_closed (P Q : Point) :
  valid P -> valid Q ->
  exists R, addPoints P Q = Some R /\ isOnCurve R = true /\ valid R.
Proof.
  intros HP HQ. destruct (addPoints_returns P Q HP HQ) as (R & E & VR & _).
  exists R. split; [exact E | ]. split; [apply valid_isOnCurve | ]; exact VR.
Qed.

Lemma addPoints_closed_witness :
  valid generator /\ valid pointAtInfinity /\
  exists R, addPoints generator pointAtInfinity = Some R /\ isOnCurve R = true /\ valid R.
Proof.
  split; [exact generator_valid | ]. split; [exact valid_infinity | ].
  exact (addPoints_closed generator pointAtInfinity generator_valid valid_infinity).
Defined.

(** X2.  [addPoints] is commutative on valid points. *)
Theorem addPoints_commutative (P Q : Point) :
  valid P -> valid Q -> addPoints P Q = addPoints Q P.
Proof.
  intros HP HQ.
  destruct (addPoints_returns P Q HP HQ) as (R & E & VR & ER).
  destruct (addPoints_returns Q P HQ HP) as (R' & E' & VR' & ER').
  rewrite E, E'. f_equal. apply embed_inj; [exact VR | exact VR' | ].
  rewrite ER, ER'. apply grumpkin_add_comm; apply valid_onCurve; assumption.
Qed.

Lemma addPoints_commutative_witness :
  valid generator /\ valid pointAtInfinity /\
  addPoints generator pointAtInfinity = addPoints pointAtInfinity generator.
Proof.
  split; [exact generator_valid | ]. split; [exact valid_infinity | ].
  exact (addPoints_commutative generator pointAtInfinity generator_valid valid_infinity).
Defined.

(** X3.  [addPoints] is associative on valid points: both bracketings return,
    and they return the same point. *)
Theorem addPoints_associative (P Q R : Point) :
  valid P -> valid Q -> valid R ->
  exists PQ QR S,
    addPoints P Q = Some PQ /\ addPoints Q R = Some QR /\
    addPoints PQ R = Some S /\ addPoints P QR = Some S.
Proof.
  intros HP HQ HR.
  destruct (addPoints_returns P Q HP HQ) as (PQ & E1 & V1 & B1).
  destruct (addPoints_returns Q R HQ HR) as (QR & E2 & V2 & B2).
  destruct (addPoints_returns PQ R V1 HR) as (S & E3 & V3 & B3).
  destruct (addPoints_returns P QR HP V2) as (S' & E4 & V4 & B4).
  exists PQ, QR, S. repeat (split; [assumption | ]).
  rewrite E4. f_equal. apply embed_inj; [exact V4 | exact V3 | ].
  rewrite B4, B3, B2, B1. symmetry.
  apply grumpkin_add_assoc; apply valid_onCurve; assumption.
Qed.

Lemma addPoints_associative_witness :
  valid generator /\ valid generator /\ valid generator /\
  exists PQ QR S,
    addPoints generator generator = Some PQ /\ addPoints generator generator = Some QR /\
    addPoints PQ generator = Some S /\ addPoints generator QR = Some S.
Proof.
  split; [exact generator_valid | ]. split; [exact generator_valid | ].
  split; [exact generator_valid | ].
  exact (addPoints_associative generator generator generator
           generator_valid generator_valid generator_valid).
Defined.

(** X4.  [subtractPoints] undoes [addPoints]: [(P + Q) - Q] is [P]. *)
Theorem subtractPoints_undoes_addPoints (P Q : Point) :
  valid P -> valid Q ->
  exists S, addPoints P Q = Some S /\ subtractPoints S Q = Some P.
Proof.
  intros HP HQ.
  destruct (addPoints_returns P Q HP HQ) as (S & E & VS & ES).
  destruct (subtractPoints_returns S Q VS HQ) as (D & E' & VD & ED).
  exists S. split; [exact E | ]. rewrite E'. f_equal.
  apply embed_inj; [exact VD | exact HP | ].
  rewrite ED, ES. apply grumpkin_add_sub; apply valid_onCurve; assumption.
Qed.

Lemma subtractPoints_undoes_addPoints_witness :
  valid generator /\ valid generator /\
  exists S, addPoints generator generator = Some S
            /\ subtractPoints S generator = Some generator.
Proof.
  split; [exact generator_valid | ]. split; [exact generator_valid | ].
  exact (subtractPoints_undoes_addPoints generator generator
           generator_valid generator_valid).
Defined.

(** [negatePoint] is an involution on valid points, and a valid point and
    its negation add up to the point at infinity. *)
Theorem negatePoint_inverse (P : Point) :
  valid P ->
  negatePoint (negatePoint P) = P /\
  addPoints P (negatePoint P) = Some pointAtInfinity.
Proof.
  intros HP. destruct (negatePoint_valid P HP) as [VN EN].
  destruct (negatePoint_valid _ VN) as [VNN ENN]. split.
  - apply embed_inj; [exact VNN | exact HP | ].
    rewrite ENN, EN. unfold neg, Curve.neg.
    destruct (embed P) as [ | u v]; [reflexivity | ].
    f_equal. ring.
  - destruct (addPoints_returns P _ HP VN) as (R & E & VR & ER).
    rewrite E. f_equal. apply valid_isInfinity; [exact VR | ].
    apply embed_infinity. rewrite ER, EN. apply grumpkin_add_neg.
Qed.

Lemma negatePoint_inverse_witness :
  valid generator /\
  negatePoint (negatePoint generator) = generator /\
  addPoints generator (negatePoint generator) = Some pointAtInfinity.
Proof.
  split; [exact generator_valid | ]. exact (negatePoint_inverse generator generator_valid).
Defined.

(** X5.  [scalarMul] is additive in the scalar: for scalars that are not
    negative, the multiple by [a + b] is the sum of the multiples by [a]
    and by [b]. *)
Theorem scalarMul_additive (P : Point) (a b c : Scalar) :
  valid P ->
  0 <= scalarToBigint a -> 0 <= scalarToBigint b ->
  scalarToBigint c = scalarToBigint a + scalarToBigint b ->
  exists A B C,
    scalarMul P a = Some A /\ scalarMul P b = Some B /\ scalarMul P c = Some C /\
    addPoints A B = Some C.
Proof.
  intros HP Ha Hb Hc.
  destruct (scalarMul_returns P a HP) as (A & EA & VA & BA).
  destruct (scalarMul_returns P b HP) as (B & EB & VB & BB).
  destruct (scalarMul_returns P c HP) as (C & EC & VC & BC).
  destruct (addPoints_returns A B VA VB) as (S & ES & VS & BS).
  exists A, B, C. repeat (split; [assumption | ]).
  rewrite ES. f_equal. apply embed_inj; [exact VS | exact VC | ].
  rewrite BS, BA, BB, BC.
  replace (multiplier c) with (multiplier a + multiplier b)%nat
    by (unfold multiplier; rewrite Hc; lia).
  symmetry. apply grumpkin_mul_plus. apply valid_onCurve. exact HP.
Qed.

Lemma scalarMul_additive_witness :
  valid generator /\
  0 <= scalarToBigint (mkScalar 1 0) /\ 0 <= scalarToBigint (mkScalar 2 0) /\
  scalarToBigint (mkScalar 3 0)
  = scalarToBigint (mkScalar 1 0) + scalarToBigint (mkScalar 2 0) /\
  exists A B C,
    scalarMul generator (mkScalar 1 0) = Some A /\
    scalarMul generator (mkScalar 2 0) = Some B /\
    scalarMul generator (mkScalar 3 0) = Some C /\
    addPoints A B = Some C.
Proof.
  split; [exact generator_valid | ].
  split; [vm_compute; discriminate | ]. split; [vm_compute; discriminate | ].
  split; [reflexivity | ].
  apply (scalarMul_additive generator (mkScalar 1 0) (mkScalar 2 0) (mkScalar 3 0)).
  - exact generator_valid.
  - vm_compute; discriminate.
  - vm_compute; discriminate.
  - reflexivity.
Defined.

(** X6.  Multiplying by two scalars in either order gives the same point. *)
Theorem scalarMul_commutes (P : Point) (a b : Scalar) :
  valid P ->
  exists A B S,
    scalarMul P a = Some A /\ scalarMul P b = Some B /\
    scalarMul A b = Some S /\ scalarMul B a = Some S.
Proof.
  intros HP.
  destruct (scalarMul_returns P a HP) as (A & EA & VA & BA).
  destruct (scalarMul_returns P b HP) as (B & EB & VB & BB).
  destruct (scalarMul_returns A b VA) as (S & ES & VS & BS).
  destruct (scalarMul_returns B a VB) as (S' & ES' & VS' & BS').
  exists A, B, S. repeat (split; [assumption | ]).
  rewrite ES'. f_equal. apply embed_inj; [exact VS' | exact VS | ].
  rewrite BS', BS, BA, BB.
  rewrite !grumpkin_mul_times by (apply valid_onCurve; exact HP).
  f_equal. apply Nat.mul_comm.
Qed.

Lemma scalarMul_commutes_witness :
  valid generator /\
  exists A B S,
    scalarMul generator (mkScalar 2 0) = Some A /\
    scalarMul generator (mkScalar 3 0) = Some B /\
    scalarMul A (mkScalar 3 0) = Some S /\ scalarMul B (mkScalar 2 0) = Some S.
Proof.
  split; [exact generator_valid | ].
  exact (scalarMul_commutes generator (mkScalar 2 0) (mkScalar 3 0) generator_valid).
Defined.

(** The loop of [modInverse] for any modulus above 1: it ends within the
    rounds granted, with the greatest common divisor and a Bezout
    coefficient. *)
Lemma modInverse_loop (a p : Z) :
  1 < p ->
  exists g u,
    inverseLoop (inverseFuel p) p (a mod p) 0 1 = Some (g, u)
    /\ g = Z.gcd a p /\ exists k, u * a = g + k * p.
Proof.
  intros Hp. pose proof (Z.mod_pos_bound a p ltac:(lia)) as Hm.
  destruct (inverseLoop_returns (a mod p) p (inverseFuel p) p (a mod p) 0 1)
    as (g & u & E & Eg & k & Eu).
  - lia.
  - lia.
  - apply inverseFuel_enough; lia.
  - exists (-1). lia.
  - exists 0. lia.
  - exists g, u. split; [exact E | ]. split.
    + rewrite Eg, (Z.gcd_comm p), Z.gcd_mod by lia. apply Z.gcd_comm.
    + exists (k + u * (a / p)).
      pose proof (Z.div_mod a p ltac:(lia)) as Hd.
      assert (H : u * a = u * (a mod p) + u * (a / p) * p) by (rewrite Hd at 1; ring).
      lia.
Qed.

(** X7.  [modInverse(a, p)] returns the inverse of [a] modulo [p] whenever [a]
    and [p] are coprime: a number [i] with [0 <= i < p] and
    [a * i = 1 (mod p)]. *)
Theorem modInverse_inverts (a p : Z) :
  1 < p -> Z.gcd a p = 1 ->
  exists i, modInverse a p = Some i /\ 0 <= i < p /\ (a * i) mod p = 1.
Proof.
  intros Hp Hg. unfold modInverse.
  destruct (Z.eqb_spec a 0) as [E0 | _].
  { subst a. rewrite Z.gcd_0_l in Hg. lia. }
  rewrite mod__spec by lia.
  destruct (modInverse_loop a p Hp) as (g & u & E & Eg & k & Eu).
  rewrite E. cbv beta iota.
  replace g with 1 in * by congruence. rewrite Z.eqb_refl.
  exists (mod_ u p). split; [reflexivity | ].
  rewrite mod__spec by lia. split; [apply Z.mod_pos_bound; lia | ].
  rewrite Z.mul_mod_idemp_r by lia.
  replace (a * u) with (1 + k * p) by lia.
  rewrite Z.mod_add by lia. apply Z.mod_small. lia.
Qed.

Lemma modInverse_inverts_witness :
  1 < 7 /\ Z.gcd 3 7 = 1 /\
  exists i, modInverse 3 7 = Some i /\ 0 <= i < 7 /\ (3 * i) mod 7 = 1.
Proof.
  split; [lia | ]. split; [reflexivity | ].
  apply (modInverse_inverts 3 7); [lia | reflexivity].
Defined.

(** X8.  [modInverse(a, p)] throws whenever [a] and [p] have a common factor,
    in particular for every multiple of [p]. *)
Theorem modInverse_refuses (a p : Z) :
  1 < p -> Z.gcd a p <> 1 -> modInverse a p = None.
Proof.
  intros Hp Hg. unfold modInverse.
  destruct (Z.eqb_spec a 0) as [E0 | _]; [reflexivity | ].
  rewrite mod__spec by lia.
  destruct (modInverse_loop a p Hp) as (g & u & E & Eg & _).
  rewrite E. cbv beta iota.
  destruct (Z.eqb_spec g 1) as [E1 | _]; [congruence | reflexivity].
Qed.

Lemma modInverse_refuses_witness :
  1 < 6 /\ Z.gcd 4 6 <> 1 /\ modInverse 4 6 = None.
Proof.
  split; [lia | ]. split; [vm_compute; discriminate | ].
  apply (modInverse_refuses 4 6); [lia | vm_compute; discriminate].
Defined.

(** X9.  The two limbs of [scalarFromBigint] put together by [scalarToBigint]
    give back the value reduced modulo the curve order (the value itself
    when it is below the order); the low limb has 128 bits and the high
    limb is not negative. *)
Theorem scalar_round_trip (value : Z) :
  scalarToBigint (scalarFromBigint value) = value mod CURVE_ORDER /\
  0 <= lo (scalarFromBigint value) < 2 ^ 128 /\
  0 <= hi (scalarFromBigint value).
Proof.
  unfold scalarToBigint, scalarFromBigint. cbn [lo hi].
  rewrite mod__spec by reflexivity.
  set (n := value mod CURVE_ORDER).
  assert (Hn : 0 <= n) by (apply Z.mod_pos_bound; reflexivity).
  replace (Z.shiftl 1 128 - 1) with (Z.ones 128) by reflexivity.
  rewrite Z.land_ones, Z.shiftr_div_pow2, Z.shiftl_mul_pow2 by lia.
  pose proof (Z.div_mod n (2 ^ 128) ltac:(lia)) as Hd.
  pose proof (Z.mod_pos_bound n (2 ^ 128) ltac:(lia)) as Hm.
  pose proof (Z.div_pos n (2 ^ 128) Hn ltac:(lia)) as Hq.
  repeat split; lia.
Qed.

(** X10.  [pointsEqual] decides the equality of valid points. *)
Theorem pointsEqual_decides (P Q : Point) :
  valid P -> valid Q -> (pointsEqual P Q = true <-> P = Q).
Proof.
  intros HP HQ. rewrite (pointsEqual_spec P Q HP HQ). split.
  - apply embed_inj; assumption.
  - intros E. rewrite E. reflexivity.
Qed.

Lemma pointsEqual_decides_witness :
  valid generator /\ valid pointAtInfinity /\
  (pointsEqual generator pointAtInfinity = true <-> generator = pointAtInfinity).
Proof.
  split; [exact generator_valid | ]. split; [exact valid_infinity | ].
  exact (pointsEqual_decides generator pointAtInfinity generator_valid valid_infinity).
Defined.


End GrumpkinLaws.

(** ** The Pedersen hash, card points and the join-then-mask order *)

Module HashFacts.
Import Grumpkin Pedersen CardTs ElGamal Group Protocol Flows GroupFacts ProtocolFacts.
Import Curve (Inf, Aff).

Local Opaque FIELD_MODULUS.

Ltac valid_constant :=
  unfold valid; cbn [isInfinity x y];
  split; [apply reduced_check; vm_compute; reflexivity | ];
  split; [apply reduced_check; vm_compute; reflexivity | ];
  vm_compute; reflexivity.

Lemma generators_valid : Forall valid PEDERSEN_GENERATORS.
Proof. unfold PEDERSEN_GENERATORS. repeat (constructor; [valid_constant | ]). constructor. Qed.

Lemma hashLoop_returns (generators : list Point) :
  Forall valid generators ->
  forall (inputs : list Z) (result : Point),
    valid result -> (List.length inputs <= List.length generators)%nat ->
    exists R, hashLoop generators inputs result = Some R /\ valid R.
Proof.
  induction 1 as [ | g generators Vg _ IH]; intros inputs result Vr Hlen.
  - destruct inputs; [ | cbn in Hlen; lia]. exists result. split; [reflexivity | exact Vr].
  - destruct inputs as [ | input inputs]; [exists result; split; [reflexivity | exact Vr] | ].
    cbn [hashLoop].
    destruct (scalarMul_returns g (scalarFromBigint (mod_ input FIELD_MODULUS)) Vg)
      as (term & E1 & V1 & _).
    rewrite E1.
    destruct (addPoints_returns result term Vr V1) as (result' & E2 & V2 & _).
    rewrite E2. apply IH; [exact V2 | cbn in Hlen; lia].
Qed.

(** X12.  [pedersenHash] returns a reduced field element for every list of at
    most 12 inputs, whatever bigints they are, and throws for every longer
    list. *)
Theorem pedersenHash_returns (inputs : list Z) :
  (exists h, pedersenHash inputs = Some h /\ 0 <= h < FIELD_MODULUS)
  <-> (List.length inputs <= 12)%nat.
Proof.
  unfold pedersenHash.
  change (List.length PEDERSEN_GENERATORS) with 12%nat.
  destruct (Nat.ltb_spec 12 (List.length inputs)) as [L | L].
  - split; [intros (h & E & _); discriminate E | lia].
  - split; [intros _; exact L | intros _].
    destruct (hashLoop_returns _ generators_valid inputs pointAtInfinity valid_infinity L)
      as (result & E1 & V1).
    rewrite E1.
    destruct (scalarMul_returns _ (scalarFromBigint (Z.of_nat (List.length inputs)))
                length_generator_valid) as (lengthTerm & E2 & V2 & _).
    rewrite E2.
    destruct (addPoints_returns result lengthTerm V1 V2) as (result' & E3 & V3 & _).
    rewrite E3. eexists. split; [reflexivity | ].
    pose proof modulus_large as Hl.
    unfold valid in V3. destruct (isInfinity result'); [lia | ].
    destruct V3 as (Hx & _). exact Hx.
Qed.

Lemma hashLoop_congruent (generators : list Point) (inputs inputs' : list Z) :
  Forall2 (fun u v => u mod FIELD_MODULUS = v mod FIELD_MODULUS) inputs inputs' ->
  forall result, hashLoop generators inputs result = hashLoop generators inputs' result.
Proof.
  pose proof modulus_large as Hl.
  intros H. revert generators.
  induction H as [ | u v inputs inputs' Huv _ IH]; intros generators result; [reflexivity | ].
  destruct generators as [ | g generators]; [reflexivity | ].
  cbn [hashLoop]. rewrite !mod__spec by lia. rewrite Huv.
  destruct (scalarMul _ _) as [term | ]; [ | reflexivity].
  destruct (addPoints _ _) as [result' | ]; [ | reflexivity].
  apply IH.
Qed.

(** X13.  [pedersenHash] reads its inputs modulo the field modulus: two input
    lists that agree position by position modulo [FIELD_MODULUS] have the
    same hash, so an input and the same input plus the modulus collide. *)
Theorem pedersenHash_congruent (inputs inputs' : list Z) :
  Forall2 (fun u v => u mod FIELD_MODULUS = v mod FIELD_MODULUS) inputs inputs' ->
  pedersenHash inputs = pedersenHash inputs'.
Proof.
  intros H. unfold pedersenHash.
  rewrite (hashLoop_congruent _ _ _ H), (Forall2_length H). reflexivity.
Qed.

Lemma pedersenHash_congruent_witness :
  Forall2 (fun u v => u mod FIELD_MODULUS = v mod FIELD_MODULUS)
          [5] [5 + FIELD_MODULUS] /\
  pedersenHash [5] = pedersenHash [5 + FIELD_MODULUS].
Proof.
  assert (H : Forall2 (fun u v => u mod FIELD_MODULUS = v mod FIELD_MODULUS)
                      [5] [5 + FIELD_MODULUS]).
  { constructor; [vm_compute; reflexivity | constructor]. }
  split; [exact H | ]. exact (pedersenHash_congruent _ _ H).
Defined.

(** X14.  [cardIndexToPoint] returns a valid curve point exactly for the
    indices 0 to 51, and throws for every other index. *)
Theorem cardIndexToPoint_range (cardIndex : Z) :
  (exists M, cardIndexToPoint cardIndex = Some M /\ valid M)
  <-> 0 <= cardIndex < DECK_SIZE.
Proof.
  split.
  - intros (M & E & _). unfold cardIndexToPoint in E.
    destruct (Z.ltb_spec cardIndex 0) as [L | L]; [discriminate E | ].
    destruct (Z.geb_spec cardIndex DECK_SIZE) as [G | G]; [discriminate E | ].
    lia.
  - intros H. destruct (cardIndexToPoint_returns cardIndex H) as [M E].
    exists M. split; [exact E | ]. exact (cardIndexToPoint_valid cardIndex M E).
Qed.

(** *** Joining first, masking afterwards *)







End HashFacts.

(** ** Merkle trees over any leaves ([circom/sdk/poseidon.js]) *)

Module MerkleLaws.
Import Merkle MerkleFacts.

(** *** The test [(n & (n - 1)) !== 0] of the padding loop *)

Lemma land_pred_power (k : Z) : 0 <= k -> Z.land (2 ^ k) (2 ^ k - 1) = 0.
Proof.
  intros Hk. replace (2 ^ k - 1) with (Z.ones k) by (rewrite Z.ones_equiv; lia).
  rewrite Z.land_ones by lia. apply Z.mod_same.
  pose proof (Z.pow_pos_nonneg 2 k ltac:(lia) Hk). lia.
Qed.

Lemma testbit_top (k m : Z) : 0 <= k -> 2 ^ k <= m < 2 ^ (k + 1) -> Z.testbit m k = true.
Proof.
  intros Hk Hm. apply Z.testbit_true; [exact Hk | ].
  replace (k + 1) with (Z.succ k) in Hm by lia.
  rewrite Z.pow_succ_r in Hm by exact Hk.
  replace (m / 2 ^ k) with 1; [reflexivity | ].
  apply (Z.div_unique m (2 ^ k) 1 (m - 2 ^ k)); lia.
Qed.

Lemma land_pred_between (k m : Z) :
  0 <= k -> 2 ^ k < m < 2 ^ (k + 1) -> Z.land m (m - 1) <> 0.
Proof.
  intros Hk Hm E.
  assert (H : Z.testbit (Z.land m (m - 1)) k = true).
  { rewrite Z.land_spec, !testbit_top by lia. reflexivity. }
  rewrite E, Z.bits_0 in H. discriminate H.
Qed.

(** The loop pushes zeros up to the next power of two. *)
Lemma padLengthZ_reaches (e : Z) :
  0 <= e ->
  forall (fuel : nat) (n : Z),
    2 ^ e < 2 * n -> n <= 2 ^ e -> 2 ^ e - n <= Z.of_nat fuel ->
    padLengthZ fuel n = 2 ^ e.
Proof.
  intros He. induction fuel as [ | fuel IH]; intros n Hlow Hhigh Hfuel.
  - cbn [padLengthZ]. lia.
  - cbn [padLengthZ].
    destruct (Z.eq_dec n (2 ^ e)) as [E | N].
    + rewrite E, land_pred_power by exact He. reflexivity.
    + assert (He1 : 1 <= e).
      { destruct (Z.eq_dec e 0) as [E0 | ]; [ | lia]. subst e. change (2 ^ 0) with 1 in *. lia. }
      assert (Hl : Z.land n (n - 1) <> 0).
      { apply (land_pred_between (e - 1)); [lia | ].
        replace (e - 1 + 1) with e by lia.
        replace (2 ^ e) with (2 * 2 ^ (e - 1)) in Hlow
          by (rewrite <- Z.pow_succ_r by lia; f_equal; lia).
        lia. }
      destruct (Z.eqb_spec (Z.land n (n - 1)) 0) as [E0 | _]; [contradiction | ].
      cbn [negb]. apply IH; lia.
Qed.

Lemma padLength_power (n : nat) :
  (0 < n)%nat ->
  padLength n n = (2 ^ Z.to_nat (Z.log2_up (Z.of_nat n)))%nat
  /\ (2 ^ Z.to_nat (Z.log2_up (Z.of_nat n)) < 2 * n)%nat.
Proof.
  intros Hn. set (e := Z.log2_up (Z.of_nat n)).
  pose proof (Z.log2_up_nonneg (Z.of_nat n)) as He. fold e in He.
  assert (Hb : 2 ^ e < 2 * Z.of_nat n /\ Z.of_nat n <= 2 ^ e).
  { destruct (Nat.eq_dec n 1) as [E1 | N1].
    - subst n. subst e. change (2 ^ Z.log2_up (Z.of_nat 1)) with 1. lia.
    - pose proof (Z.log2_up_spec (Z.of_nat n) ltac:(lia)) as Hs. fold e in Hs.
      assert (He1 : 1 <= e) by (pose proof (Z.log2_up_pos (Z.of_nat n) ltac:(lia)); unfold e; lia).
      replace (2 ^ e) with (2 * 2 ^ Z.pred e)
        by (rewrite <- Z.pow_succ_r by lia; f_equal; lia).
      replace (2 ^ e) with (2 * 2 ^ Z.pred e) in Hs
        by (rewrite <- Z.pow_succ_r by lia; f_equal; lia).
      lia. }
  assert (Hz : Z.of_nat (2 ^ Z.to_nat e) = 2 ^ e).
  { rewrite Nat2Z.inj_pow, Z2Nat.id by exact He. reflexivity. }
  split.
  - apply Nat2Z.inj. rewrite padLength_Z, Hz.
    apply padLengthZ_reaches; lia.
  - apply Nat2Z.inj_lt. rewrite Hz. lia.
Qed.



(** *** The shape of the tree *)

Lemma padLoop_zeros fuel l :
  exists zeros, padLoop fuel l = l ++ zeros /\ Forall (eq 0) zeros.
Proof.
  revert l. induction fuel as [ | fuel IH]; intros l; cbn [padLoop].
  - exists []. split; [now rewrite app_nil_r | constructor].
  - destruct (negb _).
    + destruct (IH (l ++ [0])) as (zeros & E & Hz). exists (0 :: zeros).
      split; [rewrite E, <- app_assoc; reflexivity | constructor; [reflexivity | exact Hz]].
    + exists []. split; [now rewrite app_nil_r | constructor].
Qed.

Lemma buildLevels_shape (hash : list Z -> Z) (d : nat) :
  forall fuel l above,
    List.length l = (2 ^ d)%nat ->
    buildLevels hash fuel l = Some above ->
    List.length above = d /\
    forall k level, nth_error (l :: above) k = Some level ->
                    List.length level = (2 ^ (d - k))%nat.
Proof.
  induction d as [ | d IH]; intros fuel l above Hlen Hb.
  - destruct fuel as [ | fuel]; [discriminate | ]. cbn [buildLevels] in Hb.
    rewrite Hlen in Hb. cbn in Hb. injection Hb as <-. split; [reflexivity | ].
    intros [ | [ | k]] level Hk; cbn in Hk; try discriminate.
    injection Hk as <-. exact Hlen.
  - destruct fuel as [ | fuel]; [discriminate | ]. cbn [buildLevels] in Hb.
    assert (Hbig : (1 <? List.length l)%nat = true).
    { apply Nat.ltb_lt. rewrite Hlen. cbn [Nat.pow].
      pose proof (Nat.pow_nonzero 2 d ltac:(lia)). lia. }
    rewrite Hbig in Hb.
    destruct (nextLevel hash l) as [next | ] eqn:En; [ | discriminate].
    destruct (buildLevels hash fuel next) as [above' | ] eqn:Ea; [ | discriminate].
    cbn in Hb. injection Hb as <-.
    assert (Hn : List.length next = (2 ^ d)%nat).
    { pose proof (nextLevel_length hash l next En) as H2.
      rewrite Hlen in H2. cbn [Nat.pow] in H2. lia. }
    destruct (IH fuel next above' Hn Ea) as [Hab Hlev].
    split; [cbn; lia | ].
    intros [ | k] level Hk.
    + cbn in Hk. injection Hk as <-. rewrite Hlen. reflexivity.
    + cbn [nth_error] in Hk. exact (Hlev k level Hk).
Qed.

(** X17.  [buildMerkleTree] throws only for the empty list.  Otherwise the
    lowest level of the tree is the list of leaves followed by zeros, up
    to the smallest power of two [2^d] that is at least the number of
    leaves; the tree has [d + 1] levels, and level [k] has [2^(d-k)]
    elements, so the last level is the root alone. *)
Theorem buildMerkleTree_shape (hash : list Z -> Z) (leaves : list Z) :
  match buildMerkleTree hash leaves with
  | None => leaves = []
  | Some tree =>
      exists zeros d,
        hd [] tree = leaves ++ zeros /\ Forall (eq 0) zeros /\
        (List.length leaves <= 2 ^ d < 2 * List.length leaves)%nat /\
        List.length tree = S d /\
        forall k level, nth_error tree k = Some level ->
                        List.length level = (2 ^ (d - k))%nat
  end.
Proof.
  destruct leaves as [ | leaf rest]; [reflexivity | ].
  set (leaves := leaf :: rest).
  assert (Hpos : (0 < List.length leaves)%nat) by (cbn; lia).
  destruct (padLength_power _ Hpos) as [Hp Hlt].
  set (d := Z.to_nat (Z.log2_up (Z.of_nat (List.length leaves)))) in *.
  unfold buildMerkleTree. fold leaves.
  destruct (padLoop_zeros (List.length leaves) leaves) as (zeros & Ez & Hz).
  assert (Hlen : List.length (padLoop (List.length leaves) leaves) = (2 ^ d)%nat)
    by (rewrite padLoop_length; exact Hp).
  destruct (buildLevels_power hash d (List.length (padLoop (List.length leaves) leaves))
              (padLoop (List.length leaves) leaves) Hlen
              ltac:(rewrite Hlen; apply Nat.pow_gt_lin_r; lia)) as [above Ea].
  change (match leaves with [] => None | _ => ?u end) with u.
  cbv zeta. rewrite Ea. cbn [option_map].
  destruct (buildLevels_shape hash d _ _ above Hlen Ea) as [Hab Hlev].
  exists zeros, d. split; [exact Ez | ]. split; [exact Hz | ].
  split; [ | split; [cbn; lia | exact Hlev]].
  split; [ | exact Hlt].
  rewrite <- Hlen, Ez, length_app. lia.
Qed.

End MerkleLaws.

(** ** Valid actions of the two-player state machine *)

Module SdkRulesFacts.
Import Sdk SdkRules.

(** The chips an accepted action moves are covered by the stack of the
    player who acts. *)
Lemma valid_chips_covered (s : GameState) (a : Action) :
  isValidAction s a = true ->
  0 <= currentStack s -> 0 <= currentStreetBet s ->
  chipsToAdd s a <= currentStack s.
Proof.
  unfold isValidAction, chipsToAdd.
  destruct (negb (status s =? STATUS_ACTIVE)); [discriminate | ].
  cbv zeta. intros Hv Hstack Hbet.
  destruct (Z.eqb_spec (actionType a) ACTION_FOLD) as [E | _];
    [rewrite E; cbn; exact Hstack | ].
  destruct (Z.eqb_spec (actionType a) ACTION_CHECK) as [E | _];
    [rewrite E; cbn; exact Hstack | ].
  destruct (Z.eqb_spec (actionType a) ACTION_CALL) as [_ | _]; [lia | ].
  destruct (Z.eqb_spec (actionType a) ACTION_BET) as [_ | _].
  { apply andb_prop in Hv. destruct Hv as [_ Hv].
    apply andb_prop in Hv. destruct Hv as [_ Hv]. apply Z.leb_le in Hv. exact Hv. }
  destruct (Z.eqb_spec (actionType a) ACTION_RAISE) as [_ | _].
  { apply andb_prop in Hv. destruct Hv as [_ Hv].
    apply andb_prop in Hv. destruct Hv as [_ Hv]. apply Z.leb_le in Hv. lia. }
  destruct (Z.eqb_spec (actionType a) ACTION_ALL_IN) as [_ | _]; [lia | exact Hstack].
Qed.

(** X18.  An action that [isValidAction] accepts never overdraws a stack: from
    a state whose stacks and street bets are not negative, [applyAction]
    leaves both stacks non-negative. *)
Theorem valid_action_keeps_stacks (s : GameState) (a : Action) :
  isValidAction s a = true ->
  0 <= stackP1 s -> 0 <= stackP2 s -> 0 <= streetBetP1 s -> 0 <= streetBetP2 s ->
  0 <= stackP1 (applyAction s a) /\ 0 <= stackP2 (applyAction s a).
Proof.
  intros Hv H1 H2 H3 H4.
  assert (Hc : chipsToAdd s a <= currentStack s).
  { apply valid_chips_covered; [exact Hv | | ];
      unfold currentStack, currentStreetBet; destruct (currentPlayer s =? 1); assumption. }
  unfold applyAction. cbv zeta. unfold currentStack in Hc.
  destruct (_ && _); cbn [stackP1 stackP2];
    destruct (Z.eqb_spec (currentPlayer s) 1) as [E | N];
    destruct (Z.eqb_spec (currentPlayer s) 2) as [E' | N']; lia.
Qed.

Lemma valid_action_keeps_stacks_witness :
  isValidAction (createGameState 100 100 1) (bet 10) = true /\
  0 <= stackP1 (createGameState 100 100 1) /\ 0 <= stackP2 (createGameState 100 100 1) /\
  0 <= streetBetP1 (createGameState 100 100 1) /\
  0 <= streetBetP2 (createGameState 100 100 1) /\
  0 <= stackP1 (applyAction (createGameState 100 100 1) (bet 10)) /\
  0 <= stackP2 (applyAction (createGameState 100 100 1) (bet 10)).
Proof.
  split; [reflexivity | ]. do 4 (split; [vm_compute; discriminate | ]).
  apply (valid_action_keeps_stacks (createGameState 100 100 1) (bet 10));
    [reflexivity | vm_compute; discriminate ..].
Defined.

(** X20.  A fold ends the game: in the state after a fold, [isValidAction]
    accepts no action at all. *)
Theorem no_action_after_fold (s : GameState) (a : Action) :
  isValidAction (applyAction s fold) a = false.
Proof.
  unfold isValidAction.
  replace (status (applyAction s fold)) with STATUS_FINISHED; [reflexivity | ].
  unfold applyAction. cbn [actionType fold].
  change (ACTION_FOLD =? ACTION_FOLD) with true.
  change (ACTION_FOLD =? ACTION_CALL) with false.
  change (ACTION_FOLD =? ACTION_CHECK) with false.
  rewrite andb_false_r. reflexivity.
Qed.



(** [postBlinds] moves the two blinds from the stacks to the street bets
    and sets the pot to their sum, whatever the pot held: the stacks and
    the pot add up to the stacks before, so chips are conserved exactly
    when the pot was empty.  The small blind is seat 1 when seat 1 deals
    and seat 2 otherwise; it acts first and owes the difference of the
    blinds.  No amount is capped by a stack. *)
Theorem postBlinds_accounts (s : GameState) (smallBlind bigBlind : Z) :
  let s' := postBlinds s smallBlind bigBlind in
  stackP1 s' + stackP2 s' + pot s' = stackP1 s + stackP2 s /\
  streetBetP1 s' + streetBetP2 s' = pot s' /\
  currentPlayer s' = (if dealer s =? 1 then 1 else 2) /\
  currentStreetBet s' = smallBlind /\ opponentStreetBet s' = bigBlind /\
  currentStack s' = (if dealer s =? 1 then stackP1 s else stackP2 s) - smallBlind.
Proof.
  unfold postBlinds, currentStreetBet, opponentStreetBet, currentStack.
  destruct (dealer s =? 1); cbn; repeat split; lia.
Qed.

End SdkRulesFacts.

(** ** Chips and turns in the betting engine *)

Module EngineLaws.
Import Types Engine EngineFacts.

(** *** What the street and turn bookkeeping leaves alone *)

Lemma map_setStreetBet (g : PlayerState -> Z) (b : Z) (ps : list PlayerState) :
  (forall p, g (setStreetBet p b) = g p) ->
  map g (map (fun p => setStreetBet p b) ps) = map g ps.
Proof. intros H. rewrite map_map. apply map_ext. intros p. apply H. Qed.

Lemma advanceStreet_keeps (cfg : GameConfig) (fuel : nat) :
  forall s s',
    advanceStreet fuel cfg s = Some s' ->
    pot s' = pot s /\ map stack (players s') = map stack (players s)
    /\ map totalBet (players s') = map totalBet (players s).
Proof.
  induction fuel as [ | fuel IH]; intros s s' E; [discriminate | ].
  cbn [advanceStreet] in E.
  destruct (street s =? RIVER).
  { injection E as <-. repeat split. }
  cbv zeta in E.
  match type of E with
  | (if ?c then advanceStreet fuel cfg ?s2 else _) = _ =>
      assert (H2 : pot s2 = pot s /\ map stack (players s2) = map stack (players s)
                   /\ map totalBet (players s2) = map totalBet (players s))
        by (cbn [pot players setActionPos]; repeat split;
            apply map_setStreetBet; reflexivity);
      destruct c; [apply IH in E | injection E as <-; exact H2]
  end.
  destruct E as (E1 & E2 & E3). destruct H2 as (F1 & F2 & F3).
  repeat split; congruence.
Qed.

Lemma advanceAction_keeps (cfg : GameConfig) (fuel : nat) (s s' : GameStateN) :
  advanceAction fuel cfg s = Some s' ->
  pot s' = pot s /\ map stack (players s') = map stack (players s)
  /\ map totalBet (players s') = map totalBet (players s).
Proof.
  unfold advanceAction.
  repeat match goal with
         | |- (if ?c then _ else _) = _ -> _ => destruct c
         | |- match ?c with Some _ => _ | None => _ end = _ -> _ => destruct c
         end;
    try apply advanceStreet_keeps;
    intros E; injection E as <-; repeat split.
Qed.



(** *** One action *)


Lemma updFirst_same {A} (pred : A -> bool) (l : list A) :
  Js.updFirst pred (fun x => x) l = l.
Proof.
  induction l as [ | y l IH]; cbn [Js.updFirst]; [reflexivity | ].
  destruct (pred y); [reflexivity | ]. rewrite IH. reflexivity.
Qed.

Lemma found_by_own_id (s : GameStateN) (pid : string) (player : PlayerState) :
  getPlayerById s pid = Some player ->
  find (hasId (id player)) (players s) = Some player.
Proof.
  unfold getPlayerById. intros H.
  destruct (find_some _ _ H) as [_ Hid]. unfold hasId in Hid.
  apply String.eqb_eq in Hid. rewrite Hid. exact H.
Qed.

(** What an action does: it is refused and the state stays as it is, or
    the player found by the action's id pays [paid] chips, not more than
    a non-negative stack holds, into the pot and the turn moves on. *)
Lemma applyAction_cases fuel cfg s action r s' :
  applyAction fuel cfg s action = Some (r, s') ->
  (exists error, r = Failure error /\ s' = s) \/
  (r = Success /\
   exists player paid f s1,
     find (hasId (id player)) (players s) = Some player /\
     stack (f player) = stack player - paid /\
     totalBet (f player) = totalBet player + paid /\
     (0 <= stack player -> 0 <= stack (f player)) /\
     players s1 = Js.updFirst (hasId (id player)) f (players s) /\
     pot s1 = pot s + paid /\
     advanceAction fuel cfg s1 = Some s').
Proof.
  unfold applyAction.
  destruct (getPlayerById s (playerId action)) as [player | ] eqn:Ep.
  2:{ intros E. injection E as <- <-. left. eauto. }
  pose proof (found_by_own_id _ _ _ Ep) as Hfound.
  destruct (negb (seatIndex player =? actionPos s)).
  { intros E. injection E as <- <-. left. eauto. }
  destruct (negb (includes (getValidActions cfg s) (type action))).
  { intros E. injection E as <- <-. left. eauto. }
  assert (Hpay : forall o,
             finish Success (advanceAction fuel cfg o) = Some (r, s') ->
             forall s0 paid nb force,
               players s0 = players s -> pot s0 = pot s -> paid <= stack player ->
               players o = players (pay s0 player paid nb force) ->
               pot o = pot (pay s0 player paid nb force) ->
               (exists error, r = Failure error /\ s' = s) \/
               (r = Success /\
                exists player paid f s1,
                  find (hasId (id player)) (players s) = Some player /\
                  stack (f player) = stack player - paid /\
                  totalBet (f player) = totalBet player + paid /\
                  (0 <= stack player -> 0 <= stack (f player)) /\
                  players s1 = Js.updFirst (hasId (id player)) f (players s) /\
                  pot s1 = pot s + paid /\
                  advanceAction fuel cfg s1 = Some s')).
  { intros o E s0 paid nb force Hps Hpot Hle Ho Hop. right.
    unfold finish in E. destruct (advanceAction fuel cfg o) as [s2 | ] eqn:Ea;
      [ | discriminate]. cbn in E. injection E as <- <-.
    split; [reflexivity | ].
    exists player, paid,
      (fun p => setBets p (stack p - paid) nb (totalBet p + paid)
                  (if force || (stack p - paid =? 0) then true else allIn p)), o.
    split; [exact Hfound | ]. split; [reflexivity | ]. split; [reflexivity | ].
    split; [cbn [stack setBets]; lia | ].
    split; [rewrite Ho; unfold pay, updPlayer; cbn [players setPot setPlayers];
            rewrite Hps; reflexivity | ].
    split; [rewrite Hop; unfold pay; cbn [pot setPot]; rewrite Hpot; reflexivity | ].
    exact Ea. }
  destruct (type action).
  - (* FOLD *)
    unfold handleFold, finish.
    destruct (advanceAction fuel cfg _) as [s2 | ] eqn:Ea; [ | discriminate].
    cbn. intros E. injection E as <- <-. right. split; [reflexivity | ].
    exists player, 0, (fun p => setFolded p true),
      (updPlayer s (id player) (fun p => setFolded p true)).
    split; [exact Hfound | ]. split; [cbn; lia | ]. split; [cbn; lia | ].
    split; [cbn; lia | ]. split; [reflexivity | ]. split; [cbn; lia | exact Ea].
  - (* CHECK *)
    unfold handleCheck. destruct (getAmountToCall s player >? 0).
    { intros E. injection E as <- <-. left. eauto. }
    unfold finish. destruct (advanceAction fuel cfg s) as [s2 | ] eqn:Ea; [ | discriminate].
    cbn. intros E. injection E as <- <-. right. split; [reflexivity | ].
    exists player, 0, (fun p => p), s.
    split; [exact Hfound | ]. split; [lia | ]. split; [lia | ].
    split; [lia | ]. split; [symmetry; apply updFirst_same | ].
    split; [lia | exact Ea].
  - (* CALL *)
    unfold handleCall. cbv zeta. intros E.
    apply (Hpay _ E s (getAmountToCall s player)
             (streetBet player + getAmountToCall s player) false eq_refl eq_refl);
      [unfold getAmountToCall; lia | reflexivity | reflexivity].
  - (* BET *)
    unfold handleBet. destruct (amount action <? bigBlind cfg).
    { intros E. injection E as <- <-. left. eauto. }
    destruct (Z.gtb_spec (amount action) (stack player)) as [G | G].
    { intros E. injection E as <- <-. left. eauto. }
    cbv zeta. intros E.
    apply (Hpay _ E s (amount action) (streetBet player + amount action) false
             eq_refl eq_refl); [exact G | reflexivity | reflexivity].
  - (* RAISE *)
    unfold handleRaise. cbv zeta. destruct (_ && _).
    { intros E. injection E as <- <-. left. eauto. }
    destruct (Z.gtb_spec (amount action - streetBet player) (stack player)) as [G | G].
    { intros E. injection E as <- <-. left. eauto. }
    intros E.
    apply (Hpay _ E s (amount action - streetBet player) (amount action) false
             eq_refl eq_refl); [exact G | reflexivity | reflexivity].
  - (* ALL_IN *)
    unfold handleAllIn. cbv zeta. intros E.
    destruct (_ && _).
    + apply (Hpay _ E _ (stack player) (streetBet player + stack player) true
               eq_refl eq_refl); [lia | reflexivity | reflexivity].
    + apply (Hpay _ E s (stack player) (streetBet player + stack player) true
               eq_refl eq_refl); [lia | reflexivity | reflexivity].
Qed.

(** X22.  An action that the engine refuses leaves the game state exactly as it
    was. *)
Theorem refused_action_changes_nothing fuel cfg s action error s' :
  applyAction fuel cfg s action = Some (Failure error, s') -> s' = s.
Proof.
  intros E. destruct (applyAction_cases _ _ _ _ _ _ E) as [(e & _ & H) | (H & _)].
  - exact H.
  - discriminate H.
Qed.


Lemma refused_action_changes_nothing_witness :
  applyAction 4 DEFAULT_GAME_CONFIG (postBlinds DEFAULT_GAME_CONFIG EngineScenarios.headsUp)
    (mkGameAction "p2" FOLD 0)
  = Some (Failure "Not your turn", postBlinds DEFAULT_GAME_CONFIG EngineScenarios.headsUp) /\
  postBlinds DEFAULT_GAME_CONFIG EngineScenarios.headsUp
  = postBlinds DEFAULT_GAME_CONFIG EngineScenarios.headsUp.
Proof.
  split; [vm_compute; reflexivity | ].
  apply (refused_action_changes_nothing 4 DEFAULT_GAME_CONFIG
           (postBlinds DEFAULT_GAME_CONFIG EngineScenarios.headsUp)
           (mkGameAction "p2" FOLD 0) "Not your turn").
  vm_compute. reflexivity.
Defined.




(** *** The pot is the sum of the total bets *)




(** *** Stacks stay non-negative *)

Lemma updFirst_found_In {A} (pred : A -> bool) f l x y :
  find pred l = Some x -> In y (Js.updFirst pred f l) -> In y l \/ y = f x.
Proof.
  induction l as [ | z l IH]; cbn [find Js.updFirst]; intros Hf Hy; [discriminate | ].
  destruct (pred z).
  - injection Hf as ->. destruct Hy as [<- | Hy]; [right; reflexivity | left; right; exact Hy].
  - destruct Hy as [<- | Hy]; [left; left; reflexivity | ].
    destruct (IH Hf Hy) as [H | H]; [left; right; exact H | right; exact H].
Qed.

(** X24.  No action overdraws a stack: when no stack is negative before
    [applyAction], none is negative after it. *)
Theorem applyAction_keeps_stacks fuel cfg s action r s' :
  (forall p, In p (players s) -> 0 <= stack p) ->
  applyAction fuel cfg s action = Some (r, s') ->
  forall p, In p (players s') -> 0 <= stack p.
Proof.
  intros H E.
  destruct (applyAction_cases _ _ _ _ _ _ E)
    as [(e & _ & ->) | (_ & player & paid & f & s1 & Hfound & _ & _ & Hnn & Hps & _ & Ea)];
    [exact H | ].
  destruct (advanceAction_keeps _ _ _ _ Ea) as (_ & K2 & _).
  intros p Hp.
  assert (Hin : In (stack p) (map stack (players s1)))
    by (rewrite <- K2; apply in_map; exact Hp).
  apply in_map_iff in Hin. destruct Hin as (q & <- & Hq).
  rewrite Hps in Hq.
  destruct (updFirst_found_In _ _ _ _ _ Hfound Hq) as [Hq' | ->].
  - apply H. exact Hq'.
  - apply Hnn. apply H. apply (find_some _ _ Hfound).
Qed.

Lemma applyAction_keeps_stacks_witness :
  (forall p,
      In p (players (postBlinds DEFAULT_GAME_CONFIG EngineScenarios.headsUp)) ->
      0 <= stack p) /\
  applyAction 4 DEFAULT_GAME_CONFIG (postBlinds DEFAULT_GAME_CONFIG EngineScenarios.headsUp)
    (mkGameAction "p1" ALL_IN 0)
  = Some (Success,
          EngineScenarios.stateAfter
            (postBlinds DEFAULT_GAME_CONFIG EngineScenarios.headsUp)
            [mkGameAction "p1" ALL_IN 0]) /\
  forall p,
    In p (players (EngineScenarios.stateAfter
                     (postBlinds DEFAULT_GAME_CONFIG EngineScenarios.headsUp)
                     [mkGameAction "p1" ALL_IN 0])) ->
    0 <= stack p.
Proof.
  assert (H0 : forall p, In p (players (postBlinds DEFAULT_GAME_CONFIG
                                          EngineScenarios.headsUp)) -> 0 <= stack p).
  { intros p [<- | [<- | []]]; vm_compute; discriminate. }
  split; [exact H0 | ].
  split; [vm_compute; reflexivity | ].
  apply (applyAction_keeps_stacks 4 DEFAULT_GAME_CONFIG
           (postBlinds DEFAULT_GAME_CONFIG EngineScenarios.headsUp)
           (mkGameAction "p1" ALL_IN 0) Success _ H0).
  vm_compute. reflexivity.
Defined.

(** *** Whose turn it is *)

Lemma nextActiveLoop_can_act (s : GameStateN) (numPlayers : Z) (iterations : nat) :
  forall seat,
    nextActiveLoop s numPlayers iterations seat = -1 \/
    exists player,
      getPlayerByIndex s (nextActiveLoop s numPlayers iterations seat) = Some player /\
      folded player = false /\ allIn player = false.
Proof.
  induction iterations as [ | k IH]; intros seat; cbn [nextActiveLoop]; [left; reflexivity | ].
  destruct (getPlayerByIndex s seat) as [player | ] eqn:Ep; [ | apply IH].
  destruct (folded player) eqn:Ef; cbn [negb andb]; [apply IH | ].
  destruct (allIn player) eqn:Ea; cbn [negb]; [apply IH | ].
  right. exists player. auto.
Qed.

(** X25.  The seat that [getNextActivePlayer] returns is -1 or the seat of a
    player who has not folded and is not all-in. *)
Theorem getNextActivePlayer_can_act (s : GameStateN) (fromSeat : Z) :
  getNextActivePlayer s fromSeat = -1 \/
  exists player,
    getPlayerByIndex s (getNextActivePlayer s fromSeat) = Some player /\
    folded player = false /\ allIn player = false.
Proof. unfold getNextActivePlayer. cbv zeta. apply nextActiveLoop_can_act. Qed.

(** *** Streets past the river *)

Lemma canAct_setStreetBet (ps : list PlayerState) (b : Z) :
  List.length (filter canAct (map (fun p => setStreetBet p b) ps))
  = List.length (filter canAct ps).
Proof.
  induction ps as [ | p ps IH]; [reflexivity | ].
  cbn [map filter]. change (canAct (setStreetBet p b)) with (canAct p).
  destruct (canAct p); cbn [List.length]; rewrite IH; reflexivity.
Qed.

(** X26.  [advanceStreet] tests only for the river: called on a later street
    while at most one player can act, it calls itself again and again and
    does not return, whatever depth of recursion it is given. *)
Theorem advanceStreet_past_river_never_returns (cfg : GameConfig) (s : GameStateN) :
  RIVER < street s ->
  (List.length (filter canAct (players s)) <= 1)%nat ->
  forall fuel, advanceStreet fuel cfg s = None.
Proof.
  intros Hs Hc fuel. revert s Hs Hc.
  induction fuel as [ | fuel IH]; intros s Hs Hc; [reflexivity | ].
  cbn [advanceStreet].
  destruct (Z.eqb_spec (street s) RIVER) as [E | _]; [lia | ].
  cbv zeta. cbn [players setActionPos].
  rewrite canAct_setStreetBet.
  destruct (Nat.leb_spec (List.length (filter canAct (players s))) 1) as [_ | G]; [ | lia].
  apply IH.
  - cbn [street setActionPos]. lia.
  - cbn [players setActionPos]. rewrite canAct_setStreetBet. exact Hc.
Qed.

Lemma advanceStreet_past_river_never_returns_witness :
  RIVER < street (mkState [createPlayerState "p1" 0 100] 0 SHOWDOWN_STREET 0 0 None 0 2
                    SHOWDOWN) /\
  (List.length
     (filter canAct
        (players (mkState [createPlayerState "p1" 0 100] 0 SHOWDOWN_STREET 0 0 None 0 2
                    SHOWDOWN))) <= 1)%nat /\
  forall fuel,
    advanceStreet fuel DEFAULT_GAME_CONFIG
      (mkState [createPlayerState "p1" 0 100] 0 SHOWDOWN_STREET 0 0 None 0 2 SHOWDOWN)
    = None.
Proof.
  split; [reflexivity | ]. split; [cbn; lia | ].
  apply advanceStreet_past_river_never_returns; [reflexivity | cbn; lia].
Defined.

(** *** The actions on offer *)

(** [getValidActions] offers nothing when no player sits at the action
    position or that player has folded or is all-in.  Otherwise it offers
    FOLD first, then CHECK when nothing is to be called and CALL when
    something is, never both; and it offers ALL_IN exactly when the
    player has chips. *)
Theorem getValidActions_shape (cfg : GameConfig) (s : GameStateN) :
  match getPlayerByIndex s (actionPos s) with
  | None => getValidActions cfg s = []
  | Some player =>
      if folded player || allIn player then getValidActions cfg s = []
      else
        exists rest,
          getValidActions cfg s
          = FOLD :: (if getAmountToCall s player =? 0 then CHECK else CALL) :: rest /\
          includes rest FOLD = false /\ includes rest CHECK = false /\
          includes rest CALL = false /\
          includes rest ALL_IN = (stack player >? 0)
  end.
Proof.
  unfold getValidActions.
  destruct (getPlayerByIndex s (actionPos s)) as [player | ]; [ | reflexivity].
  destruct (folded player || allIn player); [reflexivity | ].
  cbv zeta.
  destruct (getAmountToCall s player =? 0);
    destruct (_ && (stack player >? getAmountToCall s player));
    destruct ((maxStreetBet s >? 0) && _);
    destruct (stack player >? 0);
    eexists; (split; [reflexivity | ]); repeat split.
Qed.

End EngineLaws.

(** ** What a showdown pays *)

Module RoomLaws.
Import Types Room RoomSpec.

(** *** The map of winnings *)







(** *** The winners of a pot *)





(** *** All pots *)



(** *** The stacks *)







End RoomLaws.

(** ** Card names and table keys *)

Module CardEncodingFacts.
Import Ascii CardEncoding.

Lemma indexOf_found (l : list ascii) (c : ascii) :
  forall i r,
    0 <= i -> indexOf l c i = r -> r <> -1 ->
    i <= r < i + Z.of_nat (List.length l) /\ nth (Z.to_nat (r - i)) l " "%char = c.
Proof.
  induction l as [ | a l IH]; intros i r Hi E Hr; cbn [indexOf] in E; [congruence | ].
  destruct (Ascii.eqb_spec a c) as [Eq | _].
  - subst r. split; [cbn [List.length]; lia | ].
    replace (i - i) with 0 by lia. exact Eq.
  - destruct (IH (i + 1) r ltac:(lia) E Hr) as [Hb Hn].
    split; [cbn [List.length]; lia | ].
    replace (Z.to_nat (r - i)) with (S (Z.to_nat (r - (i + 1)))) by lia.
    exact Hn.
Qed.

(** X28.  [indexToString] names exactly the indices 0 to 51, and
    [stringToIndex] reads every name back as the index it names. *)
Theorem card_name_round_trip (index : Z) :
  match indexToString index with
  | Some name => 0 <= index < 52 /\ stringToIndex name = Some index
  | None => index < 0 \/ 52 <= index
  end.
Proof.
  assert (Hall : forallb
                   (fun k => match indexToString (Z.of_nat k) with
                             | Some name =>
                                 match stringToIndex name with
                                 | Some j => j =? Z.of_nat k
                                 | None => false
                                 end
                             | None => false
                             end) (seq 0 52) = true) by (vm_compute; reflexivity).
  destruct (Z.ltb_spec index 0) as [L | L].
  { unfold indexToString. destruct (Z.ltb_spec index 0); [ | lia]. left. exact L. }
  destruct (Z.leb_spec 52 index) as [G | G].
  { unfold indexToString. destruct (Z.geb_spec index 52); [ | lia].
    rewrite orb_true_r. right. exact G. }
  rewrite forallb_forall in Hall.
  specialize (Hall (Z.to_nat index) ltac:(apply in_seq; lia)).
  rewrite Z2Nat.id in Hall by exact L.
  destruct (indexToString index) as [name | ]; [ | discriminate Hall].
  split; [lia | ].
  destruct (stringToIndex name) as [j | ]; [ | discriminate Hall].
  apply Z.eqb_eq in Hall. rewrite Hall. reflexivity.
Qed.

(** X29.  [stringToIndex] accepts only strings of two characters; an index it
    returns lies between 0 and 51, and [indexToString] names that index
    by the same two characters with the rank in upper case and the suit
    in lower case.  So it reads names without regard to case, and two
    strings it accepts with the same result differ in case only. *)
Theorem stringToIndex_reads_names (card : string) (index : Z) :
  stringToIndex card = Some index ->
  exists c0 c1,
    card = String c0 (String c1 EmptyString) /\
    0 <= index < 52 /\
    indexToString index
    = Some (String (toUpperCase c0) (String (toLowerCase c1) EmptyString)).
Proof.
  destruct card as [ | c0 [ | c1 [ | c2 rest]]];
    [discriminate | discriminate | | discriminate].
  cbv beta iota zeta delta [stringToIndex].
  set (rank := indexOf RANKS (toUpperCase c0) 0).
  set (suit := indexOf SUITS (toLowerCase c1) 0).
  destruct (Z.eqb_spec rank (-1)) as [ | Hr]; [discriminate | ].
  destruct (Z.eqb_spec suit (-1)) as [ | Hs]; [discriminate | ].
  cbn [orb]. intros E. injection E as <-.
  destruct (indexOf_found RANKS (toUpperCase c0) 0 rank ltac:(lia) eq_refl Hr) as [Br Nr].
  destruct (indexOf_found SUITS (toLowerCase c1) 0 suit ltac:(lia) eq_refl Hs) as [Bs Ns].
  change (Z.of_nat (List.length RANKS)) with 13 in Br.
  change (Z.of_nat (List.length SUITS)) with 4 in Bs.
  exists c0, c1. split; [reflexivity | ]. split; [lia | ].
  unfold indexToString.
  destruct (Z.ltb_spec (suit * 13 + rank) 0); [lia | ].
  destruct (Z.geb_spec (suit * 13 + rank) 52); [lia | ].
  cbn [orb]. cbv zeta.
  assert (Erem : Z.rem (suit * 13 + rank) 13 = rank).
  { rewrite Z.rem_mod_nonneg by lia. rewrite Z.add_comm, Z.mod_add by lia.
    apply Z.mod_small. lia. }
  assert (Ediv : (suit * 13 + rank) / 13 = suit).
  { rewrite Z.add_comm, Z.div_add by lia. rewrite Z.div_small by lia. lia. }
  rewrite Erem, Ediv.
  rewrite Z.sub_0_r in Nr, Ns. rewrite Nr, Ns. reflexivity.
Qed.

Lemma stringToIndex_reads_names_witness :
  stringToIndex "aS" = Some 51 /\
  exists c0 c1,
    "aS" = String c0 (String c1 EmptyString) /\
    0 <= 51 < 52 /\
    indexToString 51
    = Some (String (toUpperCase c0) (String (toLowerCase c1) EmptyString)).
Proof.
  split; [reflexivity | ]. apply (stringToIndex_reads_names "aS" 51). reflexivity.
Defined.

End CardEncodingFacts.

Module LookupFacts.
Import HandRankings LookupSpec.

Lemma increasing_NoDup (l : list Z) : increasing l = true -> NoDup l.
Proof.
  assert (H : forall l, increasing l = true ->
                        NoDup l /\ forall a, In a l -> hd 0 l <= a).
  { clear l. induction l as [ | a l IH]; intros E.
    - split; [constructor | intros a []].
    - destruct l as [ | b l].
      + split; [repeat constructor; intros [] | ].
        intros c [<- | []]. cbn. lia.
      + cbn [increasing] in E. apply andb_prop in E. destruct E as [Hab E].
        apply Z.ltb_lt in Hab. destruct (IH E) as [Hn Hmin]. cbn [hd] in *.
        split.
        * constructor; [ | exact Hn]. intros Hin. specialize (Hmin a Hin). lia.
        * intros c [<- | Hc]; [lia | ]. specialize (Hmin c Hc). lia. }
  intros E. apply H. exact E.
Qed.

Lemma sorted_increasing_NoDup (l : list Z) :
  increasing (ZSort.sort l) = true -> NoDup l.
Proof.
  intros E. apply (Permutation_NoDup (l := ZSort.sort l)).
  - symmetry. apply ZSort.Permuted_sort.
  - apply increasing_NoDup. exact E.
Qed.

(** X30.  In each of the two tables that [generateHandRankings] returns no
    prime product occurs twice, so the product of a hand's rank primes
    finds at most one entry of the table, and the lookup objects built
    from the tables lose no entry. *)
Theorem prime_products_distinct :
  NoDup (map primeProduct (fst generateHandRankings)) /\
  NoDup (map primeProduct (snd generateHandRankings)).
Proof.
  split; apply sorted_increasing_NoDup; vm_compute; reflexivity.
Qed.

End LookupFacts.
